(** * Local assistant extension: transform worker, NLP worker, undo stack and
      cache helpers, whitelist of sites, sanitizer

    A shallow embedding of [src/workers/transformWorker.ts],
    [src/workers/nlpWorker.ts], the helpers of [src/lib/idb/models.ts], the
    handlers of the site whitelist ([src/background/actionRouter.ts],
    [src/background/serviceWorker.ts], [src/content/contentBootstrap.ts]) and
    the text functions of [src/lib/utils/sanitizer.ts], followed by the
    properties the specification states about them (C1 to C10) and further
    properties of the code (X1 to X30).

    Conventions of the embedding.
    - A JavaScript string is a [list ascii]: the list of its code units, for
      texts whose code units lie in the Latin-1 range 0..255.  Character
      classes, case mapping and white space follow ECMAScript on that range.
    - JavaScript numbers that hold counts are [Z].  The readability score
      of the NLP worker is computed in doubles, the primitive floats with
      the arithmetic of IEEE 754: its value depends on how each operation
      rounds.  The targets of the length stage, the change ratio and the
      score of the analysis of the transform worker are taken in exact
      rational arithmetic ([Q]), with [Math.ceil] and [Math.round] on the
      exact value.  For the change ratio the doubles can round otherwise
      where the exact value of the percentage is a half: 17 words against 40
      are 57.5 exactly and 0.58, and 0.57 in doubles.  What is stated of the
      ratio holds either way: its bounds, its symmetry, and its value at
      texts where the two agree.
    - Regular expressions are values of [regex], run by a backtracking matcher
      with the greedy, leftmost semantics of ECMAScript. *)

From Stdlib Require Import ZArith QArith Qround Ascii String List Lia DecimalString.
From Stdlib Require Import Floats.
From stdpp Require Import gmap strings list sorting.
Import ListNotations.
Open Scope Z_scope.

(* A decimal constant of the source denotes the nearest double. *)
Set Warnings "-inexact-float".

(** ** JavaScript strings, arrays and regular expressions *)

Module Js.

Definition jstr := list ascii.

(** A string literal of the source. *)
Definition str (s : string) : jstr := list_ascii_of_string s.

Definition code (c : ascii) : N := N_of_ascii c.

Definition in_range (lo hi : N) (c : ascii) : bool :=
  ((lo <=? code c) && (code c <=? hi))%N.

Definition is_digit (c : ascii) : bool := in_range 48 57 c.
Definition is_upper (c : ascii) : bool := in_range 65 90 c.
Definition is_lower (c : ascii) : bool := in_range 97 122 c.

(** [\w] without the [u] flag: [[A-Za-z0-9_]]. *)
Definition is_word (c : ascii) : bool :=
  is_upper c || is_lower c || is_digit c || (code c =? 95)%N.

(** [\s], and the characters [trim] strips: TAB, LF, VT, FF, CR, space and
    the no-break space. *)
Definition is_space (c : ascii) : bool :=
  in_range 9 13 c || (code c =? 32)%N || (code c =? 160)%N.

(** [[.!?]] *)
Definition is_terminator (c : ascii) : bool :=
  (code c =? 46)%N || (code c =? 33)%N || (code c =? 63)%N.

(** [[aeiouy]] *)
Definition is_vowel (c : ascii) : bool :=
  existsb (fun v => (code c =? code v)%N) (str "aeiouy").

(** [String.prototype.toLowerCase] on one code unit: A-Z and the Latin-1
    capitals (all of 0xC0..0xDE but the multiplication sign). *)
Definition lower (c : ascii) : ascii :=
  if is_upper c || (in_range 192 222 c && negb (code c =? 215)%N)
  then ascii_of_N (code c + 32) else c.

Definition toLowerCase (s : jstr) : jstr := map lower s.

(** The [Canonicalize] operation of a regular expression with the [i] flag
    and without the [u] flag: the upper-case form of the code unit, when that
    is again one code unit and does not turn a non-ASCII unit into an ASCII
    one.  The micro sign and the y with diaeresis have their capitals outside
    Latin-1 and stay as they are here: no pattern of the program has them. *)
Definition canonicalize (c : ascii) : ascii :=
  if is_lower c || (in_range 224 254 c && negb (code c =? 247)%N)
  then ascii_of_N (code c - 32) else c.

Definition eqc (a b : ascii) : bool := (code a =? code b)%N.

(** The patterns of the program. *)
Inductive regex : Type :=
| Eps                                   (* the empty pattern *)
| Chr (p : ascii -> bool)               (* one character of a class *)
| Rep (min : nat) (p : ascii -> bool)   (* greedy [p{min,}]: [+] is [Rep 1] *)
| WordB                                 (* [\b] *)
| Cat (r1 r2 : regex).

(** A continuation receives the character before the current position and
    the rest of the input, and answers with the number of characters the
    rest of the pattern consumes. *)
Definition cont := option ascii -> jstr -> option nat.

Definition is_word_at (c : option ascii) : bool :=
  match c with Some x => is_word x | None => false end.

(** Greedy repetition of a class: one more character first, and only when
    the continuation fails after it, stop here (if [min] are taken). *)
Fixpoint rep_m (p : ascii -> bool) (min : nat) (k : cont)
    (prev : option ascii) (s : jstr) : option nat :=
  let stop := match min with O => k prev s | S _ => None end in
  match s with
  | c :: s' =>
      if p c then
        match rep_m p (Nat.pred min) k (Some c) s' with
        | Some n => Some (S n)
        | None => stop
        end
      else stop
  | [] => stop
  end.

Fixpoint m (r : regex) (k : cont) (prev : option ascii) (s : jstr) : option nat :=
  match r with
  | Eps => k prev s
  | Chr p =>
      match s with
      | c :: s' => if p c then S <$> k (Some c) s' else None
      | [] => None
      end
  | Rep min p => rep_m p min k prev s
  | WordB =>
      if xorb (is_word_at prev) (is_word_at (head s)) then k prev s else None
  | Cat r1 r2 => m r1 (m r2 k) prev s
  end.

(** One attempt at the current position: the length of the match. *)
Definition exec (r : regex) (prev : option ascii) (s : jstr) : option nat :=
  m r (fun _ _ => Some O) prev s.

(** A literal under the [i] flag. *)
Fixpoint lit_i (w : jstr) : regex :=
  match w with
  | [] => Eps
  | c :: w' => Cat (Chr (fun x => eqc (canonicalize x) (canonicalize c))) (lit_i w')
  end.

(** A literal without the [i] flag. *)
Fixpoint lit (w : jstr) : regex :=
  match w with
  | [] => Eps
  | c :: w' => Cat (Chr (eqc c)) (lit w')
  end.

(** [new RegExp(`\\b${w}\\b`, 'gi')] for a [w] of letters and spaces. *)
Definition word_re_i (w : jstr) : regex := Cat WordB (Cat (lit_i w) WordB).

(** [/\bw\b/g] *)
Definition word_re (w : jstr) : regex := Cat WordB (Cat (lit w) WordB).

(** The pieces a global ([g]) scan cuts the input into: characters no match
    covers, and the matches, leftmost first and not overlapping. [skip]
    counts the characters of the current match still to pass; an empty match
    moves on by one character. *)
Inductive piece : Type :=
| Keep (c : ascii)
| Hit (w : jstr).

Fixpoint scan (r : regex) (prev : option ascii) (skip : nat) (s : jstr) : list piece :=
  match s with
  | [] =>
      match skip, exec r prev [] with
      | O, Some _ => [Hit []]
      | _, _ => []
      end
  | c :: s' =>
      match skip with
      | S n => scan r (Some c) n s'
      | O =>
          match exec r prev s with
          | Some (S n) => Hit (take (S n) s) :: scan r (Some c) n s'
          | Some O => Hit [] :: Keep c :: scan r (Some c) O s'
          | None => Keep c :: scan r (Some c) O s'
          end
      end
  end.

Definition hits (ps : list piece) : list jstr :=
  flat_map (fun p => match p with Keep _ => [] | Hit w => [w] end) ps.

(** [s.match(r)] for a global [r]: every match, or [null]. *)
Definition match_g (r : regex) (s : jstr) : option (list jstr) :=
  match hits (scan r None O s) with
  | [] => None
  | ws => Some ws
  end.

(** [s.replace(r, to)] for a global [r] and a [to] without [$]. *)
Definition replace_g (r : regex) (to : jstr) (s : jstr) : jstr :=
  flat_map (fun p => match p with Keep c => [c] | Hit _ => to end)
           (scan r None O s).

(** [s.split(r)] for an [r] that needs at least one character: the stretches
    between the matches, the empty ones at both ends included. *)
Fixpoint split_pieces (cur : jstr) (ps : list piece) : list jstr :=
  match ps with
  | [] => [rev cur]
  | Keep c :: ps' => split_pieces (c :: cur) ps'
  | Hit _ :: ps' => rev cur :: split_pieces [] ps'
  end.

Definition split (r : regex) (s : jstr) : list jstr :=
  split_pieces [] (scan r None O s).

Fixpoint trimStart (s : jstr) : jstr :=
  match s with
  | c :: s' => if is_space c then trimStart s' else s
  | [] => []
  end.

Definition trimEnd (s : jstr) : jstr := rev (trimStart (rev s)).
Definition trim (s : jstr) : jstr := trimEnd (trimStart s).

(** [a.join(sep)] *)
Fixpoint join (sep : jstr) (a : list jstr) : jstr :=
  match a with
  | [] => []
  | [x] => x
  | x :: a' => x ++ sep ++ join sep a'
  end.

(** [a.slice(0, fin)] on an array, for an integer [fin]. *)
Definition slice0 {A} (fin : Z) (a : list A) : list A :=
  let len := Z.of_nat (length a) in
  let k := if fin <? 0 then Z.max (len + fin) 0 else Z.min fin len in
  take (Z.to_nat k) a.

Fixpoint endsWith_rev (w s : jstr) : bool :=
  match w, s with
  | [], _ => true
  | a :: w', b :: s' => eqc a b && endsWith_rev w' s'
  | _ :: _, [] => false
  end.

(** [s.endsWith(w)] *)
Definition endsWith (s w : jstr) : bool := endsWith_rev (rev w) (rev s).

(** A number that holds an integer, in a template string. *)
Definition showZ (z : Z) : jstr :=
  list_ascii_of_string (NilZero.string_of_int (Z.to_int z)).

(** [Math.round]: the integer nearest to [x], halves upwards. *)
Definition round (x : Q) : Z := Qfloor (x + (1 # 2))%Q.

(** The double that holds an integer: the integer itself up to [2^53], the
    nearest double beyond. *)
Definition of_Z (n : Z) : float := SF2Prim (binary_normalize prec emax n 0 false).

(** [Math.round] on a double: the integer nearest to [x], halves upwards,
    computed on the exact value [(-1)^s m 2^e] of [x]; [-0] for the values
    from [-0.5] to [-0]; an infinite [x] and [NaN] are returned as they
    are. *)
Definition Math_round (x : float) : float :=
  match Prim2SF x with
  | S754_finite s m e =>
      if 0 <=? e then x else
      let n := (2 * (if s then Z.neg m else Z.pos m) + 2 ^ (- e)) / 2 ^ (1 - e) in
      if (n =? 0) && s then neg_zero else of_Z n
  | _ => x
  end.

(** [Math.max] and [Math.min] of two doubles: [NaN] if one of them is, and
    [-0] below [+0]. *)
Definition Math_max (a b : float) : float :=
  if is_nan a || is_nan b then nan
  else if (a <? b)%float then b
  else if (b <? a)%float then a
  else if get_sign a then b else a.

Definition Math_min (a b : float) : float :=
  if is_nan a || is_nan b then nan
  else if (a <? b)%float then a
  else if (b <? a)%float then b
  else if get_sign a then a else b.

(** [Array.prototype.sort] with a comparator: stable, here by insertion;
    an element goes in front of the later ones it does not exceed. *)
Fixpoint insert_by {A} (cmp : A -> A -> Z) (x : A) (l : list A) : list A :=
  match l with
  | [] => [x]
  | y :: l' => if cmp x y <=? 0 then x :: l else y :: insert_by cmp x l'
  end.

Definition sort_by {A} (cmp : A -> A -> Z) (l : list A) : list A :=
  foldr (insert_by cmp) [] l.

(** An object used as a table of counts, [Record<string, number>]: its own
    properties in the order of their creation.  The tables of the program
    start empty and are only written by [t[k] = (t[k] || 0) + 1].  A key that
    names an inherited member of [Object.prototype] (after lower-casing only
    [constructor] and [__proto__] can occur) does not read as a number
    there; the properties below are stated for keys other than these two. *)
Definition table := list (jstr * Z).

Definition inherited (k : jstr) : bool :=
  bool_decide (k = str "constructor") || bool_decide (k = str "__proto__").

(** [t[k] = (t[k] || 0) + 1] *)
Fixpoint bump (k : jstr) (t : table) : table :=
  match t with
  | [] => [(k, 1)]
  | (k', n) :: t' =>
      if bool_decide (k = k') then (k', n + 1) :: t' else (k', n) :: bump k t'
  end.

Definition digit_value (c : ascii) : N := (code c - 48)%N.

Definition decimal (k : jstr) : N :=
  fold_left (fun acc c => (10 * acc + digit_value c)%N) k 0%N.

(** An array index: the canonical decimal numeral of an integer below
    [2^32 - 1]. *)
Definition array_index (k : jstr) : option N :=
  match k with
  | [] => None
  | c :: k' =>
      if forallb is_digit k
         && (negb (eqc c "0"%char) || bool_decide (k' = []))
         && (decimal k <? 4294967295)%N
      then Some (decimal k) else None
  end.

Definition is_array_index (k : jstr) : bool :=
  match array_index k with Some _ => true | None => false end.

Definition index_of (k : jstr) : Z :=
  match array_index k with Some n => Z.of_N n | None => 0 end.

(** [Object.entries(t)]: the array-index keys in ascending numeric order,
    then the other keys in the order of their creation. *)
Definition entries (t : table) : list (jstr * Z) :=
  sort_by (fun a b => index_of (fst a) - index_of (fst b))
          (List.filter (fun e => is_array_index (fst e)) t)
  ++ List.filter (fun e => negb (is_array_index (fst e))) t.

(** [s.substring(0, fin)] for an integer [fin]: a negative end counts as 0,
    one beyond the string as its length. *)
Definition substring0 (fin : Z) (s : jstr) : jstr :=
  take (Z.to_nat (Z.min (Z.max fin 0) (Z.of_nat (length s)))) s.

(** [$] as the last item of a pattern without the [m] flag: the rest of the
    input is empty. *)
Definition at_end : cont :=
  fun _ s => match s with [] => Some O | _ :: _ => None end.

(** [/^r$/.test(s)] *)
Definition test_whole (r : regex) (s : jstr) : bool :=
  match m r at_end None s with Some _ => true | None => false end.

(** The names [Object.prototype] defines: every object literal and every
    object read back from storage finds them through its prototype. *)
Definition Object_prototype : list jstr :=
  map str
    [ "constructor"; "__defineGetter__"; "__defineSetter__"; "hasOwnProperty";
      "__lookupGetter__"; "__lookupSetter__"; "isPrototypeOf";
      "propertyIsEnumerable"; "toString"; "valueOf"; "__proto__";
      "toLocaleString" ]%string.

End Js.

(** ** [src/workers/transformWorker.ts] *)

Module TransformWorker.
Import Js.

Inductive Length : Type := short | medium | long | custom.

Definition Length_name (l : Length) : jstr :=
  match l with
  | short => str "short"
  | medium => str "medium"
  | long => str "long"
  | custom => str "custom"
  end.

(** [payload.settings]; an absent field is [None]. *)
Record Settings : Type := {
  length_ : option Length;
  customLength : option Z;
  tone : option jstr;
  style : option jstr;
  prompt : option jstr;
}.

(** [settings = {}] *)
Definition no_settings : Settings :=
  {| length_ := None; customLength := None; tone := None; style := None;
     prompt := None |}.

(** The [type] of a request; [Other] is any string the worker does not
    know. *)
Inductive RequestType : Type := Transform | Analyze | Other (name : jstr).

Record TransformRequest : Type := {
  id : jstr;
  type : RequestType;
  payload_text : jstr;
  payload_settings : option Settings;
}.

Record TransformResult : Type := {
  text_ : jstr;
  rulesApplied : list jstr;
  changeRatio : Q;
}.

(** The response without its [timing], which reads the clock. *)
Inductive Response (R : Type) : Type :=
| ok (id : jstr) (result : R)
| err (id : jstr) (error : jstr).
Arguments ok {R} id result.
Arguments err {R} id error.

Record AnalyzeResult : Type := {
  keywords : list jstr;
  summary : jstr;
  score : Z;
}.

(** A string used as a condition: the empty string is false. *)
Definition truthy (s : option jstr) : option jstr :=
  match s with
  | Some [] => None
  | _ => s
  end.

(** Line 65 of the source, in the formal table between the entries for
    [kinda] and [really], reads [a lot: 'many',].  The key is not quoted, so
    the line defines no property and the file does not parse as it is
    shipped.  It is read here with its key quoted, ['a lot'], the way the
    casual table writes its phrases (['going to'], ['kind of']) and
    [docs/ARCHITECTURE.md] writes the keys of this table. *)
Definition line_65 : list (jstr * jstr) := [ (str "a lot", str "many") ].

(** The formal table, with [line65] for the entries its line 65 defines. *)
Definition formal_with (line65 : list (jstr * jstr)) : list (jstr * jstr) :=
  [ (str "hi", str "greetings"); (str "hey", str "hello");
    (str "yeah", str "yes"); (str "nope", str "no");
    (str "gonna", str "going to"); (str "wanna", str "want to");
    (str "kinda", str "kind of") ]
  ++ line65
  ++ [ (str "really", str "very"); (str "pretty", str "quite") ].

(** The own tables of [TONE_LEXICONS], in the order they are written. *)
Definition formal : list (jstr * jstr) := formal_with line_65.

Definition casual : list (jstr * jstr) :=
  [ (str "greetings", str "hi"); (str "hello", str "hey");
    (str "yes", str "yeah"); (str "no", str "nope");
    (str "going to", str "gonna"); (str "want to", str "wanna");
    (str "kind of", str "kinda"); (str "very", str "really");
    (str "quite", str "pretty") ].

Definition professional : list (jstr * jstr) :=
  [ (str "think", str "believe"); (str "get", str "obtain");
    (str "make", str "create"); (str "help", str "assist");
    (str "show", str "demonstrate"); (str "tell", str "inform") ].

(** [Object.entries(TONE_LEXICONS[name])], or [None] when the lookup is
    falsy.  The two inherited names give an object without own entries. *)
Definition TONE_LEXICONS (name : jstr) : option (list (jstr * jstr)) :=
  if bool_decide (name = str "formal") then Some formal
  else if bool_decide (name = str "casual") then Some casual
  else if bool_decide (name = str "professional") then Some professional
  else if inherited name then Some []
  else None.

Definition fillers : list jstr :=
  [ str "actually"; str "basically"; str "literally"; str "essentially";
    str "obviously"; str "clearly" ].

(** [STYLE_PATTERNS.concise] *)
Definition concise (text : jstr) : jstr :=
  let result :=
    fold_left (fun result filler => replace_g (word_re_i filler) [] result)
              fillers text in
  let result := replace_g (Rep 2 is_space) (str " ") result in
  trim result.

(** [STYLE_PATTERNS.detailed] *)
Definition detailed (text : jstr) : jstr :=
  replace_g (word_re (str "can")) (str "is able to")
    (replace_g (word_re (str "was")) (str "was previously")
       (replace_g (word_re (str "is")) (str "is currently") text)).

(** [STYLE_PATTERNS.technical] *)
Definition technical (text : jstr) : jstr :=
  replace_g (word_re (str "thing")) (str "element")
    (replace_g (word_re (str "part")) (str "component")
       (replace_g (word_re (str "use")) (str "utilize") text)).

(** What [STYLE_PATTERNS[name]] holds: a function, or (for [__proto__])
    an object that cannot be called.  [constructor] finds [Object], which
    wraps the string it is given. *)
Inductive pattern : Type :=
| Fn (f : jstr -> jstr)
| NotCallable.

Definition STYLE_PATTERNS (name : jstr) : option pattern :=
  if bool_decide (name = str "concise") then Some (Fn concise)
  else if bool_decide (name = str "detailed") then Some (Fn detailed)
  else if bool_decide (name = str "technical") then Some (Fn technical)
  else if bool_decide (name = str "constructor") then Some (Fn (fun t => t))
  else if bool_decide (name = str "__proto__") then Some NotCallable
  else None.

(** [/[^.!?]+[.!?]+/g] *)
Definition sentence_re : regex :=
  Cat (Rep 1 (fun c => negb (is_terminator c))) (Rep 1 is_terminator).

(** [text.match(/[^.!?]+[.!?]+/g) || [text]] *)
Definition sentences_of (text : jstr) : list jstr :=
  match match_g sentence_re text with
  | Some l => l
  | None => [text]
  end.

(** [/\s+/] *)
Definition spaces_re : regex := Rep 1 is_space.

(** [customLength || sentences.length] *)
Definition or_else (x : option Z) (d : Z) : Z :=
  match x with
  | Some 0 | None => d
  | Some n => n
  end.

Definition targetSentences (sentences : list jstr) (length : Length)
    (customLength : option Z) : Z :=
  let n := Z.of_nat (List.length sentences) in
  match length with
  | short => Z.max 1 (Qceiling (inject_Z n * (3 # 10))%Q)
  | medium => Z.max 1 (Qceiling (inject_Z n * (6 # 10))%Q)
  | long => n
  | custom => or_else customLength n
  end.

Definition applyLengthTransform (text : jstr) (length : Length)
    (customLength : option Z) : jstr * jstr :=
  let sentences := sentences_of text in
  let targetSentences := targetSentences sentences length customLength in
  let result := join (str " ") (slice0 targetSentences sentences) in
  (result,
   str "length_" ++ Length_name length ++ str "_" ++ showZ targetSentences
     ++ str "_sentences").

Definition applyToneTransform (text tone : jstr) : jstr * jstr :=
  match TONE_LEXICONS (toLowerCase tone) with
  | None => (text, str "tone_unchanged")
  | Some lexicon =>
      let '(result, swaps) :=
        fold_left
          (fun '(result, swaps) '(from, to) =>
             let regex := word_re_i from in
             match match_g regex result with
             | Some matches =>
                 (replace_g regex to result,
                  swaps + Z.of_nat (List.length matches))
             | None => (result, swaps)
             end)
          lexicon (text, 0) in
      (result, str "tone_" ++ tone ++ str "_" ++ showZ swaps ++ str "_swaps")
  end.

(** [None]: the call of the pattern throws a [TypeError]. *)
Definition applyStyleTransform (text style : jstr) : option (jstr * jstr) :=
  match STYLE_PATTERNS (toLowerCase style) with
  | None => Some (text, str "style_unchanged")
  | Some NotCallable => None
  | Some (Fn transform) =>
      Some (transform text, str "style_" ++ style ++ str "_applied")
  end.

(** The quotient is the exact one, and [Math.round] rounds its exact
    hundredfold. *)
Definition calculateChangeRatio (original transformed : jstr) : Q :=
  let originalWords := split spaces_re original in
  let transformedWords := split spaces_re transformed in
  let lengthDiff :=
    Z.abs (Z.of_nat (List.length originalWords)
           - Z.of_nat (List.length transformedWords)) in
  let maxLength :=
    Z.max (Z.of_nat (List.length originalWords))
          (Z.of_nat (List.length transformedWords)) in
  let ratio :=
    if 0 <? maxLength then (inject_Z lengthDiff / inject_Z maxLength)%Q
    else 0%Q in
  (inject_Z (round (ratio * 100)) / 100)%Q.

(** [aborted] is [signal.aborted] when the function starts. *)
Definition performTransform (request : TransformRequest) (aborted : bool)
    : Response TransformResult :=
  let text := payload_text request in
  let settings := default no_settings (payload_settings request) in
  if aborted then err (id request) (str "Transform cancelled") else
  let '(result, rules) :=
    match length_ settings with
    | Some l =>
        let r := applyLengthTransform text l (customLength settings) in
        (fst r, [snd r])
    | None => (text, [])
    end in
  let '(result, rules) :=
    match truthy (tone settings) with
    | Some t =>
        let r := applyToneTransform result t in
        (fst r, rules ++ [snd r])
    | None => (result, rules)
    end in
  match
    match truthy (style settings) with
    | Some s =>
        match applyStyleTransform result s with
        | Some r => Some (fst r, rules ++ [snd r])
        | None => None
        end
    | None => Some (result, rules)
    end
  with
  | None => err (id request) (str "transform is not a function")
  | Some (result, rules) =>
      ok (id request)
         {| text_ := result; rulesApplied := rules;
            changeRatio := calculateChangeRatio text result |}
  end.

(** [/[^\w\s]/g] *)
Definition punct_re : regex := Chr (fun c => negb (is_word c || is_space c)).

Definition performAnalyze (request : TransformRequest) (aborted : bool)
    : Response AnalyzeResult :=
  let text := payload_text request in
  if aborted then err (id request) (str "Analysis cancelled") else
  let words :=
    List.filter (fun w => (3 <? List.length w)%nat)
      (split spaces_re (replace_g punct_re [] (toLowerCase text))) in
  let freq := fold_left (fun freq w => bump w freq) words [] in
  let keywords :=
    map fst (slice0 10 (sort_by (fun a b => snd b - snd a) (entries freq))) in
  let sentences := sentences_of text in
  let summary := trim (join (str " ") (slice0 2 sentences)) in
  let avgWordsPerSentence :=
    if (0 <? List.length sentences)%nat
    then (inject_Z (Z.of_nat (List.length words))
          / inject_Z (Z.of_nat (List.length sentences)))%Q
    else 0%Q in
  let score := Z.min 100 (round (avgWordsPerSentence * 10)) in
  ok (id request)
     {| keywords := keywords; summary := summary; score := score |}.

End TransformWorker.

(** ** [src/workers/nlpWorker.ts] *)

Module NlpWorker.
Import Js.

Definition STOPWORDS : gset jstr :=
  list_to_set (map str
    [ "the"; "be"; "to"; "of"; "and"; "a"; "in"; "that"; "have"; "i";
      "it"; "for"; "not"; "on"; "with"; "he"; "as"; "you"; "do"; "at";
      "this"; "but"; "his"; "by"; "from"; "they"; "we"; "say"; "her"; "she";
      "or"; "an"; "will"; "my"; "one"; "all"; "would"; "there"; "their";
      "what" ]%string).

(** [STOPWORDS.has(word)] *)
Definition has (s : gset jstr) (word : jstr) : bool := bool_decide (word ∈ s).

(** [/[^\w\s]/g], [/\s+/], [/[^.!?]+[.!?]+/g], [/[^a-z]/g], [/[aeiouy]+/g] *)
Definition punct_re : regex := Chr (fun c => negb (is_word c || is_space c)).
Definition spaces_re : regex := Rep 1 is_space.
Definition sentence_re : regex :=
  Cat (Rep 1 (fun c => negb (is_terminator c))) (Rep 1 is_terminator).
Definition nonletter_re : regex := Chr (fun c => negb (is_lower c)).
Definition vowels_re : regex := Rep 1 is_vowel.

(** The tokens [extractKeywords] counts. *)
Definition keyword_tokens (text : jstr) : list jstr :=
  List.filter (fun word => (3 <? List.length word)%nat && negb (has STOPWORDS word))
    (split spaces_re (replace_g punct_re [] (toLowerCase text))).

(** [maxKeywords = 10] *)
Definition extractKeywords (text : jstr) (maxKeywords : option Z) : list jstr :=
  let maxKeywords := default 10 maxKeywords in
  let words := keyword_tokens text in
  let freq := fold_left (fun freq word => bump word freq) words [] in
  map fst (slice0 maxKeywords (sort_by (fun a b => snd b - snd a) (entries freq))).

(** [text.match(/[^.!?]+[.!?]+/g) || [text]] *)
Definition sentences_of (text : jstr) : list jstr :=
  match match_g sentence_re text with
  | Some l => l
  | None => [text]
  end.

(** [summaryLength = 2] *)
Definition extractiveSummarize (text : jstr) (summaryLength : option Z) : jstr :=
  let summaryLength := default 2 summaryLength in
  let sentences := sentences_of text in
  trim (join (str " ")
          (slice0 (Z.min summaryLength (Z.of_nat (List.length sentences)))
                  sentences)).

Definition countSyllables (word : jstr) : Z :=
  let word := replace_g nonletter_re [] (toLowerCase word) in
  if (List.length word <=? 3)%nat then 1 else
  let count :=
    match match_g vowels_re word with
    | Some vowels => Z.of_nat (List.length vowels)
    | None => 1
    end in
  let count := if endsWith word (str "e") then count - 1 else count in
  let count :=
    if endsWith word (str "le") && (2 <? List.length word)%nat
    then count + 1 else count in
  Z.max 1 count.

(** The counts are integers; the two averages and the score are doubles,
    computed in the order the source writes them.  (The sum of the syllable
    counts is exact below [2^53].) *)
Definition calculateReadabilityScore (text : jstr) : float :=
  let sentences := sentences_of text in
  let words := split spaces_re text in
  let syllables := fold_left (fun sum word => sum + countSyllables word) words 0 in
  if (List.length sentences =? 0)%nat || (List.length words =? 0)%nat then 0%float
  else
  let avgWordsPerSentence :=
    (of_Z (Z.of_nat (List.length words))
     / of_Z (Z.of_nat (List.length sentences)))%float in
  let avgSyllablesPerWord :=
    (of_Z syllables / of_Z (Z.of_nat (List.length words)))%float in
  let score :=
    (206.835 - 1.015 * avgWordsPerSentence - 84.6 * avgSyllablesPerWord)%float in
  Math_max 0 (Math_min 100 (Math_round score)).

(** The [type] of a request; [other] is any string the worker does not
    know. *)
Inductive RequestType : Type :=
| keywords | summarize | score | analyze | other (name : jstr).

Record NLPRequest : Type := {
  id : jstr;
  type : RequestType;
  payload_text : jstr;
  maxKeywords : option Z;
  summaryLength : option Z;
}.

Inductive Result : Type :=
| Keywords (keywords : list jstr)
| Summary (summary : jstr)
| Score (score : float)
| Analysis (keywords : list jstr) (summary : jstr) (score : float).

(** The response without its [timing]. *)
Inductive NLPResponse : Type :=
| ok (id : jstr) (result : Result)
| err (id : jstr) (error : jstr).

Definition processRequest (request : NLPRequest) (aborted : bool) : NLPResponse :=
  let text := payload_text request in
  if aborted then err (id request) (str "Request cancelled") else
  match type request with
  | keywords =>
      ok (id request) (Keywords (extractKeywords text (maxKeywords request)))
  | summarize =>
      ok (id request) (Summary (extractiveSummarize text (summaryLength request)))
  | score => ok (id request) (Score (calculateReadabilityScore text))
  | analyze =>
      ok (id request)
         (Analysis (extractKeywords text None) (extractiveSummarize text None)
                   (calculateReadabilityScore text))
  | other name => err (id request) (str "Unknown request type: " ++ name)
  end.

End NlpWorker.

(** ** [src/lib/idb/models.ts] *)

Module Models.
Import Js.

Section Data.
(** The type of the payloads the source declares [unknown]. *)
Context {Data : Type}.

Record UndoAction : Type := {
  actionType : jstr;
  timestamp : Z;
  data : Data;
}.

Record UndoStack : Type := {
  siteKey : jstr;
  actions : list UndoAction;
}.

Record CacheEntry : Type := {
  cacheKey : jstr;
  value : Data;
  lastAccessedAt : Z;
}.

(** The [cacheLRU] object store: its records under their key path
    [cacheKey]. *)
Local Abbreviation store := (gmap jstr CacheEntry).

(** [store.put(entry)] and [store.delete(key)] of IndexedDB. *)
Definition put (entry : CacheEntry) (st : store) : store :=
  <[cacheKey entry := entry]> st.
Definition delete_key (key : jstr) (st : store) : store := delete key st.

(** The order of IndexedDB on string keys: by code units. *)
Fixpoint compare_keys (a b : jstr) : Z :=
  match a, b with
  | [], [] => 0
  | [], _ :: _ => -1
  | _ :: _, [] => 1
  | x :: a', y :: b' =>
      if (code x <? code y)%N then -1
      else if (code y <? code x)%N then 1
      else compare_keys a' b'
  end.

(** The records a cursor on the index [lastAccessedAt] passes: by index
    key, and by primary key among equal index keys. *)
Definition index_cursor (st : store) : list CacheEntry :=
  sort_by (fun a b =>
             if lastAccessedAt a =? lastAccessedAt b
             then compare_keys (cacheKey a) (cacheKey b)
             else lastAccessedAt a - lastAccessedAt b)
          (snd <$> map_to_list st).

(** [LRUManager], with its field [maxSize] as the first argument of the
    methods; [constructor(maxSize = 100)]. *)
Definition LRUManager (maxSize : option Z) : Z := default 100 maxSize.

(** [evictOldest] on the object store it is given: the store it leaves. *)
Definition evictOldest (maxSize : Z) (st : store) : store :=
  let entries := index_cursor st in
  if maxSize <? Z.of_nat (length entries) then
    let toDelete :=
      slice0 (Z.of_nat (length entries) - maxSize)
        (sort_by (fun a b => lastAccessedAt a - lastAccessedAt b) entries) in
    fold_left (fun st entry => delete_key (cacheKey entry) st) toDelete st
  else st.

(** [now] is [Date.now()]. *)
Definition updateAccessTime (now : Z) (entry : CacheEntry) : CacheEntry :=
  {| cacheKey := cacheKey entry; value := value entry; lastAccessedAt := now |}.

(** [UndoStackManager], with its field [maxActions] as the first argument of
    the methods; [constructor(maxActions = 10)]. *)
Definition UndoStackManager (maxActions : option Z) : Z := default 10 maxActions.

Definition pushAction (maxActions : Z) (stack : UndoStack) (action : UndoAction)
    : UndoStack :=
  let actions := slice0 maxActions (action :: actions stack) in
  {| siteKey := siteKey stack; actions := actions |}.

(** The action is [None] for [null]. *)
Definition popAction (stack : UndoStack) : UndoStack * option UndoAction :=
  match actions stack with
  | [] => (stack, None)
  | action :: rest => ({| siteKey := siteKey stack; actions := rest |}, Some action)
  end.

Definition clear (stack : UndoStack) : UndoStack :=
  {| siteKey := siteKey stack; actions := [] |}.

End Data.
Arguments UndoAction : clear implicits.
Arguments UndoStack : clear implicits.
Arguments CacheEntry : clear implicits.

(** The [cacheLRU] object store with payloads of type [Data]. *)
Abbreviation store Data := (gmap Js.jstr (CacheEntry Data)).

(** [createPreview(text, maxLength = 150)] *)
Definition createPreview (text : jstr) (maxLength : option Z) : jstr :=
  let maxLength := default 150 maxLength in
  if Z.of_nat (length text) <=? maxLength then text
  else trim (substring0 maxLength text) ++ str "...".

End Models.

(** ** [chrome.storage.local] and the answers of the browser *)

Module Chrome.
Import Js.

(** The flags of a site: an object from feature names to booleans. *)
Abbreviation Features := (gmap jstr bool).

(** A record of the whitelist.  The records [handleRequestSiteAccess]
    writes have the three fields; a record written for a hostname that was
    only found through the prototype has [features] alone. *)
Record SitePermissions : Type := {
  enabled : option bool;
  features : Features;
  addedAt : option Z;
}.

Abbreviation Whitelist := (gmap jstr SitePermissions).

Record ExtensionSettings : Type := {
  telemetryEnabled : bool;
  maxCharLimit : Z;
  retentionDays : Z;
}.

(** The two keys of the local storage area the extension uses; [None] is a
    key that was never set.  Reads and writes of the storage area itself are
    taken to succeed, and a value read is the value last written. *)
Record Storage : Type := {
  siteWhitelist : option Whitelist;
  extensionSettings : option ExtensionSettings;
}.

(** [chrome.storage.local.set({ siteWhitelist: updated })] *)
Definition set_siteWhitelist (updated : Whitelist) (st : Storage) : Storage :=
  {| siteWhitelist := Some updated; extensionSettings := extensionSettings st |}.

(** What [object?.[key]] finds: an own property, a member of
    [Object.prototype] (a function or, for [__proto__], the prototype: truthy
    and without properties of the names the program reads), or nothing. *)
Inductive property (A : Type) : Type :=
| Own (a : A)
| Inherited
| Undefined.
Arguments Own {A} a.
Arguments Inherited {A}.
Arguments Undefined {A}.

Definition get {A} (object : option (gmap jstr A)) (key : jstr) : property A :=
  match object with
  | None => Undefined
  | Some o =>
      match o !! key with
      | Some a => Own a
      | None =>
          if bool_decide (key ∈ Object_prototype) then Inherited else Undefined
      end
  end.

(** [{ ...object }] *)
Definition spread {A} (object : option (gmap jstr A)) : gmap jstr A :=
  default ∅ object.

(** A promise of the browser: settled with a value, or with an error. *)
Inductive promise (A : Type) : Type :=
| resolves (a : A)
| rejects (message : jstr).
Arguments resolves {A} a.
Arguments rejects {A} message.

(** How the browser answers the calls one message makes. *)
Record Browser : Type := {
  permissions_request : promise bool;
  permissions_remove : promise bool;
  scripting_executeScript : promise unit;
  tabs_create : promise unit;
  Date_now : Z;
}.

End Chrome.

(** ** [src/background/actionRouter.ts] *)

Module ActionRouter.
Import Js Chrome.

(** [{ action, payload }] with the payload the handler of the action is
    typed for; [unknown] is any other action. *)
Inductive Message : Type :=
| checkPermissions (hostname : jstr)
| requestSiteAccess (hostname : jstr)
| enableFeature (hostname feature : jstr)
| disableFeature (hostname feature : jstr)
| removeSiteAccess (hostname : jstr)
| injectContent (tabId : Z)
| openDashboard
| unknown (action : jstr).

(** [{ enabled, features }] and [{ success }] *)
Inductive Reply : Type :=
| Permissions (enabled_ : bool) (features_ : Features)
| Success (success : bool).

(** A handler leaves a storage and a settled promise. *)
Definition handler : Type := Storage -> Storage * promise Reply.

Definition handleCheckPermissions (hostname : jstr) : handler := fun st =>
  let sitePerms := get (siteWhitelist st) hostname in
  (st,
   resolves
     (Permissions
        (match sitePerms with Own p => default false (enabled p) | _ => false end)
        (match sitePerms with Own p => features p | _ => ∅ end))).

Definition handleRequestSiteAccess (browser : Browser) (hostname : jstr)
    : handler := fun st =>
  match permissions_request browser with
  | rejects message => (st, rejects message)
  | resolves granted =>
      if granted then
        let updated :=
          <[hostname :=
              {| enabled := Some true;
                 features :=
                   {[ str "copyRewrite" := false; str "observers" := false;
                      str "autofill" := false ]};
                 addedAt := Some (Date_now browser) |}]>
            (spread (siteWhitelist st)) in
        (set_siteWhitelist updated st, resolves (Success granted))
      else (st, resolves (Success granted))
  end.

(** The body [handleEnableFeature] and [handleDisableFeature] share, with
    the value they write for the feature. *)
Definition set_feature (value : bool) (hostname feature : jstr) : handler :=
  fun st =>
  match get (siteWhitelist st) hostname with
  | Undefined => (st, rejects (str "Site not whitelisted"))
  | Own sitePerms =>
      let updated :=
        <[hostname :=
            {| enabled := enabled sitePerms;
               features := <[feature := value]> (features sitePerms);
               addedAt := addedAt sitePerms |}]>
          (spread (siteWhitelist st)) in
      (set_siteWhitelist updated st, resolves (Success true))
  | Inherited =>
      let updated :=
        <[hostname :=
            {| enabled := None;
               features := <[feature := value]> ∅;
               addedAt := None |}]>
          (spread (siteWhitelist st)) in
      (set_siteWhitelist updated st, resolves (Success true))
  end.

Definition handleEnableFeature (hostname feature : jstr) : handler :=
  set_feature true hostname feature.

Definition handleDisableFeature (hostname feature : jstr) : handler :=
  set_feature false hostname feature.

Definition handleRemoveSiteAccess (browser : Browser) (hostname : jstr)
    : handler := fun st =>
  let updated := delete hostname (spread (siteWhitelist st)) in
  let st := set_siteWhitelist updated st in
  match permissions_remove browser with
  | rejects message => (st, rejects message)
  | resolves _ => (st, resolves (Success true))
  end.

Definition handleInjectContent (browser : Browser) (tabId : Z) : handler :=
  fun st =>
  match scripting_executeScript browser with
  | rejects message => (st, rejects message)
  | resolves _ => (st, resolves (Success true))
  end.

Definition handleOpenDashboard (browser : Browser) : handler := fun st =>
  match tabs_create browser with
  | rejects message => (st, rejects message)
  | resolves _ => (st, resolves (Success true))
  end.

Definition actionRouter (browser : Browser) (message : Message) : handler :=
  match message with
  | checkPermissions hostname => handleCheckPermissions hostname
  | requestSiteAccess hostname => handleRequestSiteAccess browser hostname
  | enableFeature hostname feature => handleEnableFeature hostname feature
  | disableFeature hostname feature => handleDisableFeature hostname feature
  | removeSiteAccess hostname => handleRemoveSiteAccess browser hostname
  | injectContent tabId => handleInjectContent browser tabId
  | openDashboard => handleOpenDashboard browser
  | unknown action => fun st => (st, rejects (str "Unknown action: " ++ action))
  end.

End ActionRouter.

(** ** [src/background/serviceWorker.ts] *)

Module ServiceWorker.
Import Js Chrome.

(** The listener of [chrome.runtime.onInstalled]. *)
Definition onInstalled (st : Storage) : Storage :=
  let st :=
    match siteWhitelist st with
    | Some _ => st
    | None =>
        {| siteWhitelist := Some ∅; extensionSettings := extensionSettings st |}
    end in
  {| siteWhitelist := siteWhitelist st;
     extensionSettings :=
       Some {| telemetryEnabled := false; maxCharLimit := 20000;
               retentionDays := 30 |} |}.

(** What [sendResponse] is given: the reply of the router, or
    [{ error: error.message }]. *)
Inductive Response : Type :=
| reply (r : ActionRouter.Reply)
| error (message : jstr).

(** The listener of [chrome.runtime.onMessage]. *)
Definition onMessage (browser : Browser) (message : ActionRouter.Message)
    (st : Storage) : Storage * Response :=
  match ActionRouter.actionRouter browser message st with
  | (st', resolves r) => (st', reply r)
  | (st', rejects message) => (st', error message)
  end.

Definition isSiteWhitelisted (hostname : jstr) (st : Storage) : bool :=
  match get (siteWhitelist st) hostname with
  | Own p => default false (enabled p)
  | _ => false
  end.

End ServiceWorker.

(** ** [src/content/contentBootstrap.ts] *)

Module ContentBootstrap.
Import Js Chrome.

(** What the bootstrap starts. *)
Inductive Started : Type := CopyInterceptor | ScopedObserver.

(** A flag read as a condition. *)
Definition flag (features : Features) (name : string) : bool :=
  default false (features !! str name).

(** [checkPermissions]: the response to the message, or [null] when sending
    it fails. *)
Definition checkPermissions (sendMessage : promise ServiceWorker.Response)
    : option ServiceWorker.Response :=
  match sendMessage with
  | resolves response => Some response
  | rejects _ => None
  end.

(** [initializeFeatures]: what it starts, in order. *)
Definition initializeFeatures (features : Features) : list Started :=
  (if flag features "copyRewrite" then [CopyInterceptor] else [])
  ++ (if flag features "observers" then [ScopedObserver] else []).

(** The bootstrap of a page under [protocol], with the answer to its
    [checkPermissions] message. *)
Definition bootstrap (protocol : jstr)
    (sendMessage : promise ServiceWorker.Response) : list Started :=
  if bool_decide (protocol = str "chrome-extension:") then [] else
  match checkPermissions sendMessage with
  | Some (ServiceWorker.reply (ActionRouter.Permissions true features)) =>
      initializeFeatures features
  | _ => []
  end.

End ContentBootstrap.

(** ** [src/lib/utils/sanitizer.ts] *)

Module Sanitizer.
Import Js.

(** The double quote. *)
Definition quote : ascii := ascii_of_N 34.

Definition sanitizeText (text : jstr) : jstr :=
  replace_g (Chr (eqc "/"%char)) (str "&#x2F;")
    (replace_g (Chr (eqc "'"%char)) (str "&#x27;")
       (replace_g (Chr (eqc quote)) (str "&quot;")
          (replace_g (Chr (eqc ">"%char)) (str "&gt;")
             (replace_g (Chr (eqc "<"%char)) (str "&lt;") text)))).

(** [[^\s@]] *)
Definition address_char (c : ascii) : bool := negb (is_space c || eqc c "@"%char).

(** [/^[^\s@]+@[^\s@]+\.[^\s@]+$/] without its anchors *)
Definition email_re : regex :=
  Cat (Rep 1 address_char)
    (Cat (Chr (eqc "@"%char))
       (Cat (Rep 1 address_char)
          (Cat (Chr (eqc "."%char)) (Rep 1 address_char)))).

(** [[\d\s()+-]] *)
Definition phone_char (c : ascii) : bool :=
  is_digit c || is_space c || existsb (eqc c) (str "()+-").

(** [/^[\d\s()+-]+$/] without its anchors *)
Definition tel_re : regex := Rep 1 phone_char.

Section Parsers.
(** Whether [new URL(value)] returns, and whether [Number(value)] is
    [NaN]: the two parsers of the platform. *)
Variable URL_parses : jstr -> bool.
Variable Number_isNaN : jstr -> bool.

Definition validateFieldValue (value type : jstr) : bool :=
  if bool_decide (type = str "email") then test_whole email_re value
  else if bool_decide (type = str "url") then URL_parses value
  else if bool_decide (type = str "tel") then test_whole tel_re value
  else if bool_decide (type = str "number") then negb (Number_isNaN value)
  else true.

End Parsers.

End Sanitizer.

(** ** Auxiliary notions for the properties *)

Module Aux.
Import Js.

(** The length of the longest prefix of [s] inside the class [p]. *)
Fixpoint run (p : ascii -> bool) (s : jstr) : nat :=
  match s with
  | c :: s' => if p c then S (run p s') else O
  | [] => O
  end.

(** The last character of [s], or [prev] when [s] is empty. *)
Definition last_or (prev : option ascii) (s : jstr) : option ascii :=
  match last s with
  | Some c => Some c
  | None => prev
  end.

(** [w] matches a prefix of [s] character by character under the relation
    [eq]. *)
Fixpoint prefix_by (eq : ascii -> ascii -> bool) (w s : jstr) : bool :=
  match w, s with
  | [], _ => true
  | a :: w', b :: s' => eq b a && prefix_by eq w' s'
  | _ :: _, [] => false
  end.

(** Equality of characters under the [i] flag. *)
Definition eqi (x c : ascii) : bool := eqc (canonicalize x) (canonicalize c).

(** The continuation at the end of a pattern. *)
Definition accept : cont := fun _ _ => Some O.

(** [\b] between the characters [l] and [r]. *)
Definition boundary (l r : option ascii) : bool :=
  xorb (is_word_at l) (is_word_at r).

(** A character that is no terminal punctuation. *)
Abbreviation nonterm := (fun c : ascii => negb (is_terminator c)).

(** The order of a sort by the comparator [cmp]. *)
Definition before {A : Type} (cmp : A -> A -> Z) (a b : A) : Prop := cmp a b <= 0.

(** A record of the cache store with its key. *)
Definition keyed {Data : Type} (e : Models.CacheEntry Data)
    : jstr * Models.CacheEntry Data :=
  (Models.cacheKey e, e).

(** What a global replacement writes for the pieces of a scan. *)
Definition emit (to : jstr) (ps : list piece) : jstr :=
  flat_map (fun p => match p with Keep c => [c] | Hit _ => to end) ps.

(** The shape of a match of [/[^.!?]+[.!?]+/]: characters other than
    terminators, then terminators, at least one of each. *)
Definition sentence_shaped (h : jstr) : Prop :=
  exists a b, h = a ++ b
    /\ a <> [] /\ Forall (fun c => negb (is_terminator c) = true) a
    /\ b <> [] /\ Forall (fun c => is_terminator c = true) b.

(** [s] does not begin with a character of the class [p]. *)
Definition not_starting (p : ascii -> bool) (s : jstr) : Prop :=
  match s with c :: _ => p c = false | [] => True end.

(** [w] is [from] up to the case of its letters. *)
Definition same_ic (from w : jstr) : bool :=
  (length w =? length from)%nat && prefix_by eqi from w.

(** A key of letters, digits and underscores only. *)
Definition wordy (from : jstr) : Prop :=
  from <> [] /\ Forall (fun c => is_word c = true) from.

(** A key that begins and ends with a word character. *)
Definition edged (from : jstr) : Prop :=
  is_word_at (head from) = true /\ is_word_at (last from) = true.

(** A maximal run of word characters [w] in front of [rest]. *)
Definition chunk (w rest : jstr) : Prop :=
  w <> [] /\ Forall (fun c => is_word c = true) w /\ not_starting is_word rest.

(** [s] does not end with a word character. *)
Definition not_ending_word (s : jstr) : Prop := is_word_at (last s) = false.

(** What the replacement of the whole word [from] by [to] makes of a
    word. *)
Definition sub (from to w : jstr) : jstr := if same_ic from w then to else w.

(** What the replacement of the whole word [f] by [to] writes from a
    position on, [prev] being the character before it. *)
Definition rewrite_from (f to : jstr) (prev : option ascii) (s : jstr) : jstr :=
  emit to (scan (word_re_i f) prev O s).

(** [result.replace(regex, '')] for the whole word [f]. *)
Definition del (f : jstr) (s : jstr) : jstr := replace_g (word_re_i f) [] s.

(** [result.replace(/\s{2,}/g, ' ')] *)
Definition squeeze (s : jstr) : jstr := replace_g (Rep 2 is_space) (str " ") s.

(** The tone stage without its count of swaps. *)
Definition swap_all (lexicon : list (jstr * jstr)) (text : jstr) : jstr :=
  fold_left (fun t e => replace_g (word_re_i (fst e)) (snd e) t) lexicon text.

(** The words of a text: its maximal runs of word characters. *)
Fixpoint words_from (inword : bool) (s : jstr) : list jstr :=
  match s with
  | [] => []
  | c :: s' =>
      if is_word c
      then (if inword then [] else [take (run is_word s) s]) ++ words_from true s'
      else words_from false s'
  end.

Definition words (s : jstr) : list jstr := words_from false s.

(** No word of the key [from] is the word [w], in whatever case. *)
Definition clear_of (from w : jstr) : bool :=
  forallb (fun x => negb (same_ic x w)) (words from).

(** A key that can stand in a lexicon next to the word [w] without ever
    matching it, alone or as a part of a phrase. *)
Definition apart_from (w : jstr) (e : jstr * jstr) : Prop :=
  edged (fst e) /\ clear_of (fst e) w = true.

(** No two white-space characters next to each other. *)
Fixpoint no_adjacent_spaces (s : jstr) : bool :=
  match s with
  | c :: s' =>
      negb (is_space c && match s' with d :: _ => is_space d | [] => false end)
      && no_adjacent_spaces s'
  | [] => true
  end.

(** Every record of the cache store sits under its key path [cacheKey], as
    [put] leaves it. *)
Definition keyed_by_path {Data : Type} (st : Models.store Data) : Prop :=
  map_Forall (fun k e => Models.cacheKey e = k) st.

(** The actions [n] calls of [popAction] return, the first one first. *)
Fixpoint pop_all {Data : Type} (n : nat) (stack : Models.UndoStack Data)
    : list (Models.UndoAction Data) :=
  match n with
  | O => []
  | S n' =>
      match Models.popAction stack with
      | (stack', Some action) => action :: pop_all n' stack'
      | (_, None) => []
      end
  end.

(** The record a hostname has of its own in the stored whitelist. *)
Definition site (st : Chrome.Storage) (hostname : jstr)
    : option Chrome.SitePermissions :=
  Chrome.spread (Chrome.siteWhitelist st) !! hostname.

(** The hostname a message is about. *)
Definition site_of (message : ActionRouter.Message) : option jstr :=
  match message with
  | ActionRouter.checkPermissions hostname
  | ActionRouter.requestSiteAccess hostname
  | ActionRouter.enableFeature hostname _
  | ActionRouter.disableFeature hostname _
  | ActionRouter.removeSiteAccess hostname => Some hostname
  | _ => None
  end.

(** The message that switches a feature of a site on or off. *)
Definition switch (value : bool) (hostname feature : jstr)
    : ActionRouter.Message :=
  if value then ActionRouter.enableFeature hostname feature
  else ActionRouter.disableFeature hostname feature.

(** [chrome.runtime.sendMessage] of a page: [channel] is how the call
    settles, it delivers the message to the listener of the service worker
    and resolves with its response, or it rejects (no listener, or the
    extension was reloaded). *)
Definition sendMessage (channel : Chrome.promise unit)
    (browser : Chrome.Browser) (message : ActionRouter.Message)
    (st : Chrome.Storage) : Chrome.promise ServiceWorker.Response :=
  match channel with
  | Chrome.resolves _ =>
      Chrome.resolves (snd (ServiceWorker.onMessage browser message st))
  | Chrome.rejects failure => Chrome.rejects failure
  end.

(** A page under [protocol] on [hostname] loads: its content script asks
    the service worker over [channel] and starts what the answer allows. *)
Definition page_load (channel : Chrome.promise unit) (browser : Chrome.Browser)
    (protocol hostname : jstr) (st : Chrome.Storage)
    : list ContentBootstrap.Started :=
  ContentBootstrap.bootstrap protocol
    (sendMessage channel browser (ActionRouter.checkPermissions hostname) st).

(** The flag that lets the bootstrap start a part of the content script. *)
Definition flag_of (x : ContentBootstrap.Started) : string :=
  match x with
  | ContentBootstrap.CopyInterceptor => "copyRewrite"
  | ContentBootstrap.ScopedObserver => "observers"
  end.

(** The flags of a site that was just given access. *)
Definition all_off : Chrome.Features :=
  {[ str "copyRewrite" := false; str "observers" := false;
     str "autofill" := false ]}.

(** 1 for a setting that is given, 0 for one that is not. *)
Definition given {A : Type} (setting : option A) : nat :=
  match setting with Some _ => 1 | None => 0 end.

(** The request with another [prompt] in its settings. *)
Definition with_prompt (prompt : option jstr)
    (request : TransformWorker.TransformRequest)
    : TransformWorker.TransformRequest :=
  {| TransformWorker.id := TransformWorker.id request;
     TransformWorker.type := TransformWorker.type request;
     TransformWorker.payload_text := TransformWorker.payload_text request;
     TransformWorker.payload_settings :=
       Some
         (let settings :=
            default TransformWorker.no_settings
              (TransformWorker.payload_settings request) in
          {| TransformWorker.length_ := TransformWorker.length_ settings;
             TransformWorker.customLength := TransformWorker.customLength settings;
             TransformWorker.tone := TransformWorker.tone settings;
             TransformWorker.style := TransformWorker.style settings;
             TransformWorker.prompt := prompt |}) |}.

(** A string of lower-case letters, digits and underscores. *)
Definition lower_word (w : jstr) : Prop :=
  Forall (fun c => is_word c = true /\ is_upper c = false) w.

(** The words the analysis of the transform worker counts. *)
Definition analysis_words (text : jstr) : list jstr :=
  List.filter (fun w => (3 <? List.length w)%nat)
    (split TransformWorker.spaces_re
       (replace_g TransformWorker.punct_re [] (toLowerCase text))).

(** A literal whose characters are compared by [eq]. *)
Fixpoint lit_by (eq : ascii -> ascii -> bool) (w : jstr) : regex :=
  match w with
  | [] => Eps
  | c :: w' => Cat (Chr (fun x => eq x c)) (lit_by eq w')
  end.

(** The whole word [w], its characters compared by [eq]. *)
Definition word_by (eq : ascii -> ascii -> bool) (w : jstr) : regex :=
  Cat WordB (Cat (lit_by eq w) WordB).

(** Equality of characters without the [i] flag. *)
Definition eqs (x c : ascii) : bool := eqc c x.

(** [w] is [from], character by character under [eq]. *)
Definition same_by (eq : ascii -> ascii -> bool) (from w : jstr) : bool :=
  (length w =? length from)%nat && prefix_by eq from w.

(** The text with each of its words (maximal runs of word characters) [w]
    replaced by [g w], and everything between the words kept. *)
Fixpoint map_words_from (g : jstr -> jstr) (inword : bool) (s : jstr) : jstr :=
  match s with
  | [] => []
  | c :: s' =>
      if is_word c
      then (if inword then [] else g (take (run is_word s) s))
           ++ map_words_from g true s'
      else c :: map_words_from g false s'
  end.

Definition map_words (g : jstr -> jstr) (s : jstr) : jstr :=
  map_words_from g false s.

(** One entry of a table of whole words, applied to a word. *)
Definition swap (from to w : jstr) : jstr :=
  if bool_decide (w = from) then to else w.

(** What the technical style makes of a word. *)
Definition technical_word (w : jstr) : jstr :=
  swap (str "thing") (str "element")
    (swap (str "part") (str "component") (swap (str "use") (str "utilize") w)).

(** What the detailed style makes of a word. *)
Definition detailed_word (w : jstr) : jstr :=
  if bool_decide (w = str "is") then str "is currently"
  else if bool_decide (w = str "was") then str "was previously"
  else if bool_decide (w = str "can") then str "is able to"
  else w.

(** The entity [sanitizeText] writes for a character, or the character. *)
Definition escape (c : ascii) : jstr :=
  if eqc c "<"%char then str "&lt;"
  else if eqc c ">"%char then str "&gt;"
  else if eqc c Sanitizer.quote then str "&quot;"
  else if eqc c "'"%char then str "&#x27;"
  else if eqc c "/"%char then str "&#x2F;"
  else [c].

(** One of the five characters [sanitizeText] escapes. *)
Definition special (c : ascii) : bool :=
  existsb (eqc c) ("<"%char :: ">"%char :: Sanitizer.quote :: str "'/").

(** A part of an address: not empty, without white space and [@]. *)
Definition address_part (s : jstr) : Prop :=
  s <> [] /\ Forall (fun c => Sanitizer.address_char c = true) s.

(** A word that is one of the fillers, in whatever case. *)
Definition is_filler (w : jstr) : bool :=
  existsb (fun filler => same_ic filler w) TransformWorker.fillers.

(** The names the table of tones answers to, the two inherited ones
    included. *)
Definition tone_names : list jstr :=
  map str ["formal"; "casual"; "professional"; "constructor"; "__proto__"]%string.

(** The names the table of styles answers to. *)
Definition style_names : list jstr :=
  map str ["concise"; "detailed"; "technical"; "constructor"; "__proto__"]%string.

(** What the entries of a lexicon of whole words, applied one after the
    other, make of a word. *)
Definition word_after (lexicon : list (jstr * jstr)) (w : jstr) : jstr :=
  fold_left (fun w e => sub (fst e) (snd e) w) lexicon w.

(** How many of the entries swap the word on its way. *)
Fixpoint swaps_of (lexicon : list (jstr * jstr)) (w : jstr) : Z :=
  match lexicon with
  | [] => 0
  | e :: lexicon' =>
      (if same_ic (fst e) w then 1 else 0)
      + swaps_of lexicon' (sub (fst e) (snd e) w)
  end.

(** The value of the first key of the lexicon that is [w] up to case. *)
Definition lookup_ic (lexicon : list (jstr * jstr)) (w : jstr) : option jstr :=
  snd <$> List.find (fun e => same_ic (fst e) w) lexicon.

(** What the professional tone makes of a word, and whether it is one of
    its keys. *)
Definition professional_word (w : jstr) : jstr :=
  default w (lookup_ic TransformWorker.professional w).

Definition professional_key (w : jstr) : bool :=
  match lookup_ic TransformWorker.professional w with
  | Some _ => true
  | None => false
  end.

End Aux.

(** ** The specification's own notions, for comparison with the code *)

Module Spec.
Import Js.

(** The number of maximal runs of characters of the class [p]. *)
Fixpoint runs_from (p : ascii -> bool) (inrun : bool) (s : jstr) : Z :=
  match s with
  | [] => 0
  | c :: s' =>
      if p c then (if inrun then 0 else 1) + runs_from p true s'
      else runs_from p false s'
  end.

Definition runs (p : ascii -> bool) (s : jstr) : Z := runs_from p false s.

(** The number of words of a text: its maximal runs of characters that are
    not white space. *)
Definition wordCount (s : jstr) : Z := runs (fun c => negb (is_space c)) s.

(** [|wordCount(original) - wordCount(final)| / max(...)], rounded to two
    decimal places; 0 if both word counts are 0. *)
Definition changeRatio (original final : jstr) : Q :=
  let a := wordCount original in
  let b := wordCount final in
  if (a =? 0) && (b =? 0) then 0%Q
  else (inject_Z (round (inject_Z (Z.abs (a - b)) / inject_Z (Z.max a b) * 100))
        / 100)%Q.

(** The target sentence count of the length stage. *)
Definition targetSentences (total : Z) (length : TransformWorker.Length)
    (customLength : option Z) : Z :=
  match length with
  | TransformWorker.short => Qceiling (inject_Z total * (3 # 10))%Q
  | TransformWorker.medium => Qceiling (inject_Z total * (6 # 10))%Q
  | TransformWorker.long => total
  | TransformWorker.custom =>
      match customLength with
      | Some n => Z.max 1 n
      | None => total
      end
  end.

(** [from] stands at the front of [s] as a whole word, in whatever case:
    neither the character before it ([prev]) nor the one after it is a word
    character. *)
Definition occurs_whole (from : jstr) (prev : option ascii) (s : jstr) : Prop :=
  exists w rest,
    s = w ++ rest /\ Aux.same_ic from w = true
    /\ is_word_at prev = false /\ is_word_at (head rest) = false.

(** [Rewritten from to prev s out]: [out] is [s] with the whole-word
    occurrences of [from] replaced by [to], from left to right, and
    everything else left as it is; [prev] is the character before [s]. *)
Inductive Rewritten (from to : jstr) : option ascii -> jstr -> jstr -> Prop :=
| rewritten_nil prev : Rewritten from to prev [] []
| rewritten_swap prev w rest out :
    Aux.same_ic from w = true ->
    is_word_at prev = false -> is_word_at (head rest) = false ->
    Rewritten from to (Aux.last_or prev w) rest out ->
    Rewritten from to prev (w ++ rest) (to ++ out)
| rewritten_keep prev c s out :
    ~ occurs_whole from prev (c :: s) ->
    Rewritten from to (Some c) s out ->
    Rewritten from to prev (c :: s) (c :: out).

(** The entries of a lexicon applied one after the other. *)
Inductive ToneRewritten : list (jstr * jstr) -> jstr -> jstr -> Prop :=
| tone_done t : ToneRewritten [] t t
| tone_entry from to lexicon t t' out :
    Rewritten from to None t t' -> ToneRewritten lexicon t' out ->
    ToneRewritten ((from, to) :: lexicon) t out.

(** The pieces of a text between its runs of white space, the empty
    pieces at both ends included: [cur] holds the piece being read, in
    reverse. *)
Fixpoint pieces_from (cur : jstr) (inspace : bool) (s : jstr) : list jstr :=
  match s with
  | [] => [rev cur]
  | c :: s' =>
      if is_space c
      then (if inspace then pieces_from [] true s'
            else rev cur :: pieces_from [] true s')
      else pieces_from (c :: cur) false s'
  end.

Definition pieces (s : jstr) : list jstr := pieces_from [] false s.

(** The words of a text: its pieces that are not empty. *)
Definition words_of (s : jstr) : list jstr :=
  List.filter (fun w => negb (bool_decide (w = []))) (pieces s).

(** The number of places where terminal punctuation follows other text:
    the number of sentences that end. *)
Fixpoint ends_from (after_text : bool) (s : jstr) : Z :=
  match s with
  | [] => 0
  | c :: s' =>
      if is_terminator c
      then (if after_text then 1 else 0) + ends_from false s'
      else ends_from true s'
  end.

(** The sentence ends of a text. *)
Definition sentenceEnds (s : jstr) : Z := ends_from false s.


(** The sentences of a text split by terminal punctuation: its maximal
    runs of characters other than [.], [!] and [?], whether punctuation
    follows the run or the text ends with it.  A text without terminal
    punctuation is one sentence; the empty text has none. *)
Definition sentences (s : jstr) : Z := runs (fun c => negb (is_terminator c)) s.

(** The lower-cased letters of a token. *)
Definition letters (word : jstr) : jstr := List.filter is_lower (toLowerCase word).

(** The syllable heuristic on the letters of a token: vowel groups
    (minimum 1), one less for a final [e], one more for a final [le] of a
    token longer than 2, at least 1. *)
Definition heuristic (w : jstr) : Z :=
  let count := Z.max 1 (runs is_vowel w) in
  let count := if endsWith w (str "e") then count - 1 else count in
  let count :=
    if endsWith w (str "le") && (2 <? List.length w)%nat then count + 1 else count in
  Z.max 1 count.

(** The heuristic as the specification words it. *)
Definition syllables (word : jstr) : Z := heuristic (letters word).

(** The heuristic with tokens of at most three letters counted as one
    syllable. *)
Definition syllables_short (word : jstr) : Z :=
  if (List.length (letters word) <=? 3)%nat then 1 else heuristic (letters word).

Definition total (f : jstr -> Z) (l : list jstr) : Z :=
  foldr (fun w acc => f w + acc) 0 l.

(** [206.835 - 1.015 (W/S) - 84.6 (Y/W)] in doubles, rounded to the nearest
    integer and clamped to [0,100]. *)
Definition flesch (W S Y : Z) : float :=
  Math_max 0
    (Math_min 100
       (Math_round
          (206.835 - 1.015 * (of_Z W / of_Z S) - 84.6 * (of_Z Y / of_Z W))%float)).

(** The readability score as the specification words it: 0 without words
    or sentences. *)
Definition readabilityScore (text : jstr) : float :=
  let ws := words_of text in
  let W := Z.of_nat (List.length ws) in
  let S := sentences text in
  if (W =? 0) || (S =? 0) then 0%float else flesch W S (total syllables ws).




(** The tokens keyword extraction counts: the pieces of the lower-cased
    text without its characters that are neither word characters nor white
    space, longer than 3 and no stop words. *)
Definition tokens (text : jstr) : list jstr :=
  List.filter
    (fun word => (3 <? List.length word)%nat
                 && negb (NlpWorker.has NlpWorker.STOPWORDS word))
    (pieces (List.filter (fun c => is_word c || is_space c) (toLowerCase text))).

(** How often [w] occurs among the tokens. *)
Definition occurrences (l : list jstr) (w : jstr) : Z :=
  Z.of_nat (List.length (List.filter (fun x => bool_decide (x = w)) l)).

(** The distinct tokens in the order of their first occurrence. *)
Fixpoint firsts (l : list jstr) : list jstr :=
  match l with
  | [] => []
  | x :: l' => x :: List.filter (fun y => negb (bool_decide (y = x))) (firsts l')
  end.

(** More frequent first. *)
Definition by_frequency (l : list jstr) (a b : jstr) : Z :=
  occurrences l b - occurrences l a.

(** The keywords as the specification words them: at most [K] distinct
    tokens by descending frequency, ties in the order of first
    occurrence. *)
Definition keywords (l : list jstr) (K : Z) : list jstr :=
  take (Z.to_nat K) (sort_by (by_frequency l) (firsts l)).

(** The order in which a table of counts lists its keys: the array-index
    keys by their number, then the other keys by first occurrence. *)
Definition enumeration (ks : list jstr) : list jstr :=
  sort_by (fun a b => index_of a - index_of b)
          (List.filter is_array_index ks)
  ++ List.filter (fun k => negb (is_array_index k)) ks.

(** The keywords with ties in the order of the table. *)
Definition keywords_enumerated (l : list jstr) (K : Z) : list jstr :=
  take (Z.to_nat K) (sort_by (by_frequency l) (enumeration (firsts l))).

End Spec.

(** * Properties *)

(** ** The matcher on the patterns of the program *)

Section RegexFacts.
Import Js Aux.
Implicit Types (p : ascii -> bool) (s w : jstr) (prev : option ascii) (k : cont).

Lemma rep_accept p min prev s :
  rep_m p min accept prev s
  = if (min <=? run p s)%nat then Some (run p s) else None.
Proof.
  revert min prev. induction s as [|c s IH]; intros min prev; simpl.
  - by destruct min.
  - destruct (p c); [|by destruct min].
    rewrite IH. destruct min as [|min]; simpl; [done|].
    destruct (Nat.leb_spec min (run p s)); simpl; done.
Qed.

Lemma exec_Rep p min prev s :
  exec (Rep min p) prev s
  = if (min <=? run p s)%nat then Some (run p s) else None.
Proof. apply rep_accept. Qed.

Lemma exec_Chr p prev s :
  exec (Chr p) prev s
  = match s with c :: _ => if p c then Some 1%nat else None | [] => None end.
Proof. unfold exec. simpl. destruct s as [|c s]; [done|]. by destruct (p c). Qed.

(** A run of one class followed by a run of its complement: giving back
    characters of the first run never helps the second. *)
Lemma rep_then_rep p q min prev s :
  (forall c, p c = negb (q c)) ->
  rep_m p min (rep_m q 1 accept) prev s
  = if (min <=? run p s)%nat && (1 <=? run q (drop (run p s) s))%nat
    then Some (run p s + run q (drop (run p s) s))%nat else None.
Proof.
  intros Hpq. revert min prev. induction s as [|c s IH]; intros min prev.
  - simpl. destruct min; done.
  - simpl. rewrite (Hpq c). destruct (q c) eqn:Hq; simpl.
    + rewrite Hq. destruct min as [|min]; simpl; [|done].
      rewrite ?Hq, rep_accept. simpl. done.
    + rewrite IH. destruct min as [|min]; simpl.
      * destruct (run q (drop (run p s) s)); simpl; done.
      * destruct (min <=? run p s)%nat; simpl; [|done].
        destruct (run q (drop (run p s) s)); simpl; done.
Qed.

Lemma run_le p s : (run p s <= length s)%nat.
Proof. induction s as [|c s IH]; simpl; [lia|]. destruct (p c); simpl; lia. Qed.

Lemma run_all p s : Forall (fun c => p c = true) (take (run p s) s).
Proof.
  induction s as [|c s IH]; simpl; [constructor|].
  destruct (p c) eqn:E; simpl; by constructor.
Qed.

Lemma run_stop p s :
  match drop (run p s) s with c :: _ => p c = false | [] => True end.
Proof.
  induction s as [|c s IH]; simpl; [done|]. destruct (p c) eqn:E; simpl; done.
Qed.

Lemma run_app p a s :
  Forall (fun c => p c = true) a -> run p (a ++ s) = (length a + run p s)%nat.
Proof. induction 1 as [|c a Hc _ IH]; simpl; [done|]. by rewrite Hc, IH. Qed.

Lemma run_0 p s :
  match s with c :: _ => p c = false | [] => True end -> run p s = 0%nat.
Proof. destruct s as [|c s]; simpl; [done|]. by intros ->. Qed.

Lemma last_or_cons prev c s : last_or prev (c :: s) = last_or (Some c) s.
Proof. unfold last_or. rewrite last_cons. by destruct (last s). Qed.

Lemma last_or_app prev a s : last_or prev (a ++ s) = last_or (last_or prev a) s.
Proof.
  revert prev. induction a as [|c a IH]; intros prev; [done|].
  simpl. by rewrite !last_or_cons, IH.
Qed.

(** Passing the characters of a match. *)
Lemma scan_skip (r : regex) n s prev :
  (n <= length s)%nat ->
  scan r prev n s = scan r (last_or prev (take n s)) O (drop n s).
Proof.
  revert n prev. induction s as [|c s IH]; intros n prev Hn; simpl in *.
  - by replace n with 0%nat by lia.
  - destruct n as [|n]; [done|]. simpl. rewrite IH by lia.
    by rewrite last_or_cons.
Qed.

Lemma scan_hit (r : regex) n s prev :
  exec r prev s = Some (S n) -> (S n <= length s)%nat ->
  scan r prev O s
  = Hit (take (S n) s) :: scan r (last_or prev (take (S n) s)) O (drop (S n) s).
Proof.
  intros He Hn. destruct s as [|c s]; simpl in *; [lia|].
  rewrite He. f_equal. rewrite scan_skip by lia. by rewrite last_or_cons.
Qed.

Lemma scan_miss (r : regex) c s prev :
  exec r prev (c :: s) = None ->
  scan r prev O (c :: s) = Keep c :: scan r (Some c) O s.
Proof. intros He. simpl. by rewrite He. Qed.

Lemma replace_g_emit (r : regex) (to : jstr) s :
  replace_g r to s = emit to (scan r None O s).
Proof. done. Qed.

End RegexFacts.



(** ** The undo stack *)

Section UndoStackFacts.
Import Js Models.
Context {Data : Type}.
Implicit Types (stack : UndoStack Data) (action : UndoAction Data).

Lemma slice0_take {A} (n : Z) (l : list A) :
  0 <= n -> slice0 n l = take (Z.to_nat n) l.
Proof.
  intros Hn. unfold slice0.
  destruct (Z.ltb_spec n 0) as [?|_]; [lia|].
  destruct (Z.min_spec n (Z.of_nat (length l))) as [[_ ->]|[Hle ->]]; [done|].
  rewrite Nat2Z.id, !take_ge; [done|lia|lia].
Qed.

Lemma pushAction_actions (N : Z) stack action :
  0 <= N ->
  actions (pushAction N stack action) = take (Z.to_nat N) (action :: actions stack).
Proof. intros HN. unfold pushAction. simpl. by apply slice0_take. Qed.

Lemma pushAction_length (N : Z) stack action :
  0 <= N ->
  Z.of_nat (length (actions (pushAction N stack action)))
  = Z.min N (Z.of_nat (length (actions stack)) + 1).
Proof.
  intros HN. rewrite pushAction_actions, length_take by done. simpl. lia.
Qed.

Lemma take_app_take {A} (n : nat) (l k : list A) :
  take n (l ++ take n k) = take n (l ++ k).
Proof. rewrite !take_app, take_take. do 2 f_equal. lia. Qed.

(** Pushing a run of actions keeps the newest [N], newest first. *)
Lemma push_all_actions (N : Z) (pushed : list (UndoAction Data)) stack :
  0 <= N ->
  Z.of_nat (length (actions stack)) <= N ->
  actions (fold_left (pushAction N) pushed stack)
  = take (Z.to_nat N) (rev pushed ++ actions stack).
Proof.
  intros HN. revert stack.
  induction pushed as [|a pushed IH]; intros stack Hlen; simpl.
  - rewrite take_ge; [done|lia].
  - rewrite IH, pushAction_actions by (rewrite ?pushAction_length; lia).
    by rewrite take_app_take, <- app_assoc.
Qed.

End UndoStackFacts.

(** C9. A push onto a stack of at most [N] actions puts the new action in
    front and cuts the list back to its first [N] entries, so the oldest ones
    (the tail) go and the length stays at most [N]; [N] is 10 by default.
    After [N + 5] pushes onto an empty stack exactly [N] actions are left:
    the newest [N], newest first, without the five pushed first.  A pop of an
    empty stack gives no action and the same stack. *)
Theorem undo_stack_bounded {Data : Type} (N : Z)
    (stack : Models.UndoStack Data) (action : Models.UndoAction Data)
    (key : Js.jstr) (pushed : list (Models.UndoAction Data)) :
  Z.of_nat (length (Models.actions stack)) <= N ->
  Z.of_nat (length pushed) = N + 5 ->
  let empty := {| Models.siteKey := key; Models.actions := [] |} in
  let after := fold_left (Models.pushAction N) pushed empty in
  (Models.actions (Models.pushAction N stack action)
     = take (Z.to_nat N) (action :: Models.actions stack)
   /\ Models.siteKey (Models.pushAction N stack action) = Models.siteKey stack
   /\ Z.of_nat (length (Models.actions (Models.pushAction N stack action))) <= N)
  /\ (Z.of_nat (length (Models.actions after)) = N
      /\ Models.actions after = rev (drop 5 pushed)
      /\ (NoDup pushed ->
          forall a, a ∈ take 5 pushed -> a ∉ Models.actions after))
  /\ Models.popAction empty = (empty, None)
  /\ Models.UndoStackManager None = 10.
Proof.
  intros Hlen Hpushed empty after.
  assert (HN : 0 <= N) by lia.
  assert (Hafter : Models.actions after = rev (drop 5 pushed)).
  { unfold after. rewrite push_all_actions by (simpl; lia). simpl.
    rewrite app_nil_r.
    rewrite <- (take_drop 5 pushed) at 1. rewrite rev_app_distr.
    rewrite take_app_length'; [done|]. rewrite length_rev, length_drop. lia. }
  repeat split.
  - by apply pushAction_actions.
  - rewrite pushAction_length by done. lia.
  - rewrite Hafter, length_rev, length_drop. lia.
  - done.
  - intros Hnd a Hin. rewrite Hafter. rewrite <- (take_drop 5 pushed) in Hnd.
    apply NoDup_app in Hnd as (_ & Hdisj & _).
    intros Hin'. apply (Hdisj a Hin).
    apply list_elem_of_In. apply list_elem_of_In in Hin'. by apply in_rev.
Qed.

(** With the default depth 10: fifteen pushes leave the ten newest. *)
Lemma undo_stack_bounded_witness :
  let mk n := {| Models.actionType := Js.str "replace"; Models.timestamp := n;
                 Models.data := tt |} in
  let stack := {| Models.siteKey := Js.str "example.org";
                  Models.actions := [mk 2; mk 1] |} in
  let pushed := map mk [1; 2; 3; 4; 5; 6; 7; 8; 9; 10; 11; 12; 13; 14; 15] in
  let after := fold_left (Models.pushAction 10) pushed
                 {| Models.siteKey := Js.str "example.org"; Models.actions := [] |} in
  Models.actions (Models.pushAction 10 stack (mk 3)) = [mk 3; mk 2; mk 1]
  /\ Models.actions after = map mk [15; 14; 13; 12; 11; 10; 9; 8; 7; 6].
Proof.
  intros mk stack pushed after.
  destruct (undo_stack_bounded 10 stack (mk 3) (Js.str "example.org") pushed)
    as ((H1 & _) & (_ & H2 & _) & _).
  - simpl. lia.
  - simpl. lia.
  - split; [exact H1 | exact H2].
Defined.

(** C10. On a stack with fewer than [N] actions a push followed by a pop
    gives back the pushed action and the stack as it was: the same actions
    and the same site key. *)
Theorem pop_push_identity {Data : Type} (N : Z)
    (s : Models.UndoStack Data) (a : Models.UndoAction Data) :
  Z.of_nat (length (Models.actions s)) < N ->
  snd (Models.popAction (Models.pushAction N s a)) = Some a
  /\ Models.actions (fst (Models.popAction (Models.pushAction N s a)))
     = Models.actions s
  /\ Models.siteKey (fst (Models.popAction (Models.pushAction N s a)))
     = Models.siteKey s.
Proof.
  intros Hlt.
  assert (Hpush : Models.actions (Models.pushAction N s a) = a :: Models.actions s).
  { rewrite pushAction_actions by lia. apply take_ge. simpl. lia. }
  unfold Models.popAction. rewrite Hpush. simpl. done.
Qed.

Lemma pop_push_identity_witness :
  let a := {| Models.actionType := Js.str "copy"; Models.timestamp := 7;
              Models.data := tt |} in
  let s := {| Models.siteKey := Js.str "example.org"; Models.actions := [a; a] |} in
  snd (Models.popAction (Models.pushAction 10 s a)) = Some a
  /\ Models.actions (fst (Models.popAction (Models.pushAction 10 s a))) = [a; a]
  /\ Models.siteKey (fst (Models.popAction (Models.pushAction 10 s a)))
     = Js.str "example.org".
Proof.
  intros a s. apply (pop_push_identity 10 s a). simpl. lia.
Defined.

(** ** Stable sorting by a comparator *)

Section SortFacts.
Import Js Aux.
Context {A : Type} (cmp : A -> A -> Z).

Lemma insert_by_perm (x : A) (l : list A) : insert_by cmp x l ≡ₚ x :: l.
Proof.
  induction l as [|y l IH]; simpl; [done|].
  destruct (cmp x y <=? 0); [done|]. rewrite IH. apply Permutation_swap.
Qed.

Lemma sort_by_perm (l : list A) : sort_by cmp l ≡ₚ l.
Proof.
  induction l as [|x l IH]; simpl; [done|].
  unfold sort_by in *. simpl. by rewrite insert_by_perm, IH.
Qed.

Lemma sort_by_length (l : list A) : length (sort_by cmp l) = length l.
Proof. by rewrite sort_by_perm. Qed.

Hypothesis cmp_total : forall a b, cmp a b <= 0 \/ cmp b a <= 0.
Hypothesis cmp_trans : forall a b c, cmp a b <= 0 -> cmp b c <= 0 -> cmp a c <= 0.

Lemma insert_by_sorted (x : A) (l : list A) :
  StronglySorted (before cmp) l -> StronglySorted (before cmp) (insert_by cmp x l).
Proof.
  induction 1 as [|y l Hs IH Hall]; simpl.
  - repeat constructor.
  - destruct (Z.leb_spec (cmp x y) 0) as [Hle|Hgt].
    + constructor; [by constructor|]. constructor; [done|].
      eapply Forall_impl; [exact Hall|]. intros z Hz. by eapply cmp_trans.
    + constructor; [done|]. rewrite insert_by_perm. constructor; [|done].
      destruct (cmp_total x y); [lia|done].
Qed.

Lemma sort_by_sorted (l : list A) : StronglySorted (before cmp) (sort_by cmp l).
Proof.
  induction l as [|x l IH]; [constructor|]. by apply insert_by_sorted.
Qed.

End SortFacts.

(** ** The cache store and its eviction *)

Section CacheFacts.
Import Js Aux Models.
Context {Data : Type}.
Implicit Types (st : store Data) (e : CacheEntry Data) (es : list (CacheEntry Data)).

Lemma puts_to_list es st :
  NoDup (cacheKey <$> es) ->
  (forall e, e ∈ es -> st !! cacheKey e = None) ->
  map_to_list (fold_left (fun st e => put e st) es st)
  ≡ₚ (keyed <$> es) ++ map_to_list st.
Proof.
  revert st. induction es as [|e es IH]; intros st Hnd Hfresh; simpl; [done|].
  apply NoDup_cons in Hnd as [Hnotin Hnd].
  rewrite IH; [|done|].
  - unfold put. rewrite map_to_list_insert by (apply Hfresh; left).
    unfold keyed at 2. by rewrite Permutation_middle.
  - intros e' He'. unfold put. rewrite lookup_insert_ne.
    + apply Hfresh. by right.
    + intros Heq. apply Hnotin. rewrite Heq. by apply list_elem_of_fmap_2.
Qed.

Lemma index_cursor_perm st : index_cursor st ≡ₚ snd <$> map_to_list st.
Proof. apply sort_by_perm. Qed.

Lemma by_age_total e1 e2 :
  lastAccessedAt e1 - lastAccessedAt e2 <= 0
  \/ lastAccessedAt e2 - lastAccessedAt e1 <= 0.
Proof. lia. Qed.

(** Among records with distinct access times, of which [e0] has the
    smallest, the oldest-first order starts with [e0]. *)
Lemma oldest_first e0 rest (l : list (CacheEntry Data)) :
  l ≡ₚ e0 :: rest ->
  Forall (fun e => lastAccessedAt e0 < lastAccessedAt e) rest ->
  take 1 (sort_by (fun a b => lastAccessedAt a - lastAccessedAt b) l) = [e0].
Proof.
  intros Hperm Hmin.
  set (cmp := fun a b : CacheEntry Data => lastAccessedAt a - lastAccessedAt b).
  pose proof (sort_by_sorted cmp by_age_total ltac:(unfold cmp; lia) l) as Hs.
  pose proof (transitivity (sort_by_perm cmp l) Hperm) as Hp.
  destruct (sort_by cmp l) as [|x xs].
  { by apply Permutation_nil_cons in Hp. }
  simpl. rewrite take_0. f_equal.
  assert (Hx : x ∈ e0 :: rest) by (rewrite <- Hp; left).
  apply elem_of_cons in Hx as [->|Hx]; [done|].
  assert (He0 : e0 ∈ x :: xs) by (rewrite Hp; left).
  apply elem_of_cons in He0 as [->|He0]; [done|].
  apply StronglySorted_inv in Hs as [_ Hall].
  rewrite Forall_forall in Hall, Hmin.
  pose proof (Hall e0 He0) as H1. pose proof (Hmin x Hx) as H2.
  unfold before, cmp in H1. lia.
Qed.

End CacheFacts.

(** C8. A cache of capacity [C] that received [C + 1] entries with distinct
    keys and strictly increasing access times holds, after eviction, every
    entry but the one accessed first: that one is absent, the other [C] are
    present as they were put, and the store has [C] records. *)
Theorem evict_drops_oldest {Data : Type} (C : Z)
    (e0 : Models.CacheEntry Data) (rest : list (Models.CacheEntry Data)) :
  0 <= C ->
  Z.of_nat (length (e0 :: rest)) = C + 1 ->
  NoDup (Models.cacheKey <$> e0 :: rest) ->
  StronglySorted Z.lt (Models.lastAccessedAt <$> e0 :: rest) ->
  let st := fold_left (fun st e => Models.put e st) (e0 :: rest) ∅ in
  let st' := Models.evictOldest C st in
  st' !! Models.cacheKey e0 = None
  /\ (forall e, e ∈ rest -> st' !! Models.cacheKey e = Some e)
  /\ Z.of_nat (size st') = C
  /\ Z.of_nat (size st') <= C.
Proof.
  intros HC Hlen Hnd Hsorted st st'.
  assert (Hlist : map_to_list st ≡ₚ Aux.keyed <$> e0 :: rest).
  { unfold st. rewrite puts_to_list; [|done|intros; apply lookup_empty].
    by rewrite map_to_list_empty, app_nil_r. }
  assert (Hsnd : snd <$> map_to_list st ≡ₚ e0 :: rest).
  { rewrite Hlist, <- list_fmap_compose.
    change (snd ∘ Aux.keyed) with (@id (Models.CacheEntry Data)).
    by rewrite list_fmap_id. }
  assert (Hlook : forall e, e ∈ e0 :: rest -> st !! Models.cacheKey e = Some e).
  { intros e He. apply elem_of_map_to_list. rewrite Hlist.
    by apply (list_elem_of_fmap_2 Aux.keyed). }
  assert (Hcur : Models.index_cursor st ≡ₚ e0 :: rest).
  { by rewrite index_cursor_perm. }
  assert (Hsize : size st = length (e0 :: rest)).
  { by rewrite <- length_map_to_list, Hlist, length_fmap. }
  assert (Hmin : Forall (fun e => Models.lastAccessedAt e0 < Models.lastAccessedAt e) rest).
  { rewrite fmap_cons in Hsorted. apply StronglySorted_inv in Hsorted as [_ Hall].
    by rewrite Forall_fmap in Hall. }
  assert (Hst' : st' = delete (Models.cacheKey e0) st).
  { unfold st', Models.evictOldest.
    rewrite (Permutation_length Hcur).
    destruct (Z.ltb_spec C (Z.of_nat (length (e0 :: rest)))) as [_|?]; [|lia].
    rewrite slice0_take by lia.
    replace (Z.to_nat (Z.of_nat (length (e0 :: rest)) - C)) with 1%nat by lia.
    by rewrite (oldest_first e0 rest). }
  rewrite Hst'. repeat split.
  - apply lookup_delete_eq.
  - intros e He. rewrite lookup_delete_ne; [apply Hlook; by right|].
    intros Heq. rewrite fmap_cons in Hnd. apply NoDup_cons in Hnd as [Hnotin _].
    apply Hnotin. rewrite Heq. by apply list_elem_of_fmap_2.
  - rewrite map_size_delete, Hlook by left. rewrite Hsize. simpl in *. lia.
  - rewrite map_size_delete, Hlook by left. rewrite Hsize. simpl in *. lia.
Qed.

(** Capacity 2 and three entries put at times 10, 20 and 30. *)
Lemma evict_drops_oldest_witness :
  let mk k t := {| Models.cacheKey := Js.str k; Models.value := tt;
                   Models.lastAccessedAt := t |} in
  let st := fold_left (fun st e => Models.put e st)
              [mk "a" 10; mk "b" 20; mk "c" 30] ∅ in
  Models.evictOldest 2 st !! Js.str "a" = None
  /\ (forall e, e ∈ [mk "b" 20; mk "c" 30] ->
      Models.evictOldest 2 st !! Models.cacheKey e = Some e)
  /\ Z.of_nat (size (Models.evictOldest 2 st)) = 2
  /\ Z.of_nat (size (Models.evictOldest 2 st)) <= 2.
Proof.
  intros mk st.
  apply (evict_drops_oldest 2 (mk "a" 10) [mk "b" 20; mk "c" 30]).
  - lia.
  - reflexivity.
  - refine (bool_decide_unpack _ _). vm_compute. exact I.
  - simpl. repeat constructor; lia.
Defined.

(** ** Sentences and the length stage *)

Section SentenceFacts.
Import Js Aux TransformWorker.
Implicit Types (s h : jstr) (prev : option ascii).

Lemma exec_sentence prev s :
  exec sentence_re prev s
  = if (1 <=? run nonterm s)%nat
       && (1 <=? run is_terminator (drop (run nonterm s) s))%nat
    then Some (run nonterm s + run is_terminator (drop (run nonterm s) s))%nat
    else None.
Proof. apply rep_then_rep. done. Qed.

Lemma hits_Hit w ps : hits (Hit w :: ps) = w :: hits ps.
Proof. done. Qed.

Lemma hits_Keep c ps : hits (Keep c :: ps) = hits ps.
Proof. done. Qed.

(** Whatever a scan reports as a match is a match of one attempt. *)
Lemma hits_Forall (r : regex) (P : jstr -> Prop) :
  (forall prev s n, exec r prev s = Some n -> P (take n s)) ->
  forall s prev n, Forall P (hits (scan r prev n s)).
Proof.
  intros HP. induction s as [|c s IH]; intros prev n.
  - simpl. destruct n; [|constructor].
    destruct (exec r prev []) eqn:E; [|constructor].
    pose proof (HP _ _ _ E) as H. rewrite take_nil in H. by repeat constructor.
  - simpl. destruct n as [|n]; [|apply IH].
    destruct (exec r prev (c :: s)) as [[|k]|] eqn:E; simpl.
    + constructor; [exact (HP _ _ _ E)|apply IH].
    + constructor; [exact (HP _ _ _ E)|apply IH].
    + apply IH.
Qed.

Lemma exec_sentence_shaped prev s n :
  exec sentence_re prev s = Some n -> sentence_shaped (take n s).
Proof.
  rewrite exec_sentence.
  destruct (Nat.leb_spec 1 (run nonterm s)) as [Ha|]; [|done].
  destruct (Nat.leb_spec 1 (run is_terminator (drop (run nonterm s) s)))
    as [Hb|]; [|done].
  simpl. intros [= <-].
  exists (take (run nonterm s) s),
         (take (run is_terminator (drop (run nonterm s) s)) (drop (run nonterm s) s)).
  pose proof (run_le nonterm s).
  pose proof (run_le is_terminator (drop (run nonterm s) s)).
  split; [by rewrite take_take_drop|].
  split; [intros E; apply (f_equal length) in E; rewrite length_take in E;
          simpl in E; lia|].
  split; [apply run_all|].
  split; [intros E; apply (f_equal length) in E; rewrite length_take in E;
          simpl in E; lia|].
  apply run_all.
Qed.

Lemma exec_sentence_end prev s k :
  exec sentence_re prev s = Some k ->
  (1 <= k <= length s)%nat /\ not_starting is_terminator (drop k s).
Proof.
  rewrite exec_sentence.
  pose proof (run_le nonterm s) as H1.
  pose proof (run_le is_terminator (drop (run nonterm s) s)) as H2.
  pose proof (run_stop is_terminator (drop (run nonterm s) s)) as H3.
  rewrite length_drop in H2. rewrite drop_drop in H3.
  set (n := run nonterm s) in *.
  set (j := run is_terminator (drop n s)) in *.
  destruct (Nat.leb_spec 1 n); [|done]. destruct (Nat.leb_spec 1 j); [|done].
  simpl. intros [= <-]. split; [lia|]. unfold not_starting.
  by destruct (drop (n + j) s).
Qed.

Lemma sentences_shaped prev s : Forall sentence_shaped (hits (scan sentence_re prev O s)).
Proof. apply hits_Forall. apply exec_sentence_shaped. Qed.

(** A sentence in front of a text that does not go on with a terminator is
    the first match. *)
Lemma scan_sentence h rest prev :
  sentence_shaped h -> not_starting is_terminator rest ->
  scan sentence_re prev O (h ++ rest)
  = Hit h :: scan sentence_re (last_or prev h) O rest.
Proof.
  intros (a & b & -> & Ha & Hna & Hb & Hnb) Hrest.
  assert (Hrun1 : run nonterm ((a ++ b) ++ rest) = length a).
  { rewrite <- app_assoc, run_app by done. rewrite run_0; [lia|].
    destruct b as [|c b]; [done|]. simpl. apply Forall_cons in Hnb as [-> _]. done. }
  assert (Hrun2 : run is_terminator (drop (length a) ((a ++ b) ++ rest)) = length b).
  { rewrite <- app_assoc, drop_app_length, run_app by done. rewrite run_0; [lia|].
    destruct rest; simpl in *; done. }
  assert (He : exec sentence_re prev ((a ++ b) ++ rest)
               = Some (S (Nat.pred (length (a ++ b))))).
  { rewrite exec_sentence, Hrun1, Hrun2, length_app.
    destruct a; [done|]. destruct b; [done|]. simpl. done. }
  assert (Hlen : S (Nat.pred (length (a ++ b))) = length (a ++ b)).
  { rewrite length_app. destruct a; [done|]. simpl. lia. }
  rewrite (scan_hit _ _ _ _ He) by (rewrite Hlen, !length_app; lia).
  by rewrite Hlen, take_app_length, drop_app_length.
Qed.

Lemma scan_sentence_nil prev : scan sentence_re prev O [] = [].
Proof. cbn [scan]. by rewrite exec_sentence. Qed.

Lemma shaped_prepend pre h :
  Forall (fun c => nonterm c = true) pre -> sentence_shaped h ->
  sentence_shaped (pre ++ h).
Proof.
  intros Hpre (a & b & -> & Ha & Hna & Hb & Hnb).
  exists (pre ++ a), b. rewrite app_assoc. repeat split; try done.
  - intros E. apply app_eq_nil in E as [_ E]. done.
  - by apply Forall_app.
Qed.

(** Joined by single spaces, sentences are found again one by one. *)
Lemma count_joined hs pre prev :
  hs <> [] -> Forall sentence_shaped hs ->
  Forall (fun c => nonterm c = true) pre ->
  length (hits (scan sentence_re prev O (pre ++ join (str " ") hs))) = length hs.
Proof.
  revert pre prev. induction hs as [|h hs IH]; intros pre prev Hne Hall Hpre; [done|].
  apply Forall_cons in Hall as [Hh Hall].
  destruct hs as [|h2 hs].
  - cbn [join]. rewrite <- (app_nil_r (pre ++ h)).
    rewrite scan_sentence; [|by apply shaped_prepend|done].
    by rewrite hits_Hit, scan_sentence_nil.
  - change (join (str " ") (h :: h2 :: hs))
      with (h ++ str " " ++ join (str " ") (h2 :: hs)).
    rewrite app_assoc. rewrite scan_sentence; [|by apply shaped_prepend|done].
    rewrite hits_Hit. cbn [length]. f_equal.
    apply (IH (str " ")); [done|done|]. by repeat constructor.
Qed.

Lemma slice0_all {A} (l : list A) : slice0 (Z.of_nat (length l)) l = l.
Proof. rewrite slice0_take by lia. rewrite Nat2Z.id. apply take_ge. lia. Qed.

End SentenceFacts.


(** ** The length stage: target counts *)

Section LengthFacts.
Import Js Aux TransformWorker.

Lemma match_g_nonempty (r : regex) s l : match_g r s = Some l -> l <> [].
Proof. unfold match_g. destruct (hits _); [done|]. by intros [= <-]. Qed.

Lemma sentences_of_nonempty text : (1 <= length (sentences_of text))%nat.
Proof.
  unfold sentences_of. destruct (match_g sentence_re text) as [l|] eqn:E; simpl; [|lia].
  apply match_g_nonempty in E. destruct l; simpl; [done|lia].
Qed.

Lemma Qceiling_pos (n : Z) (q : Q) :
  1 <= n -> (0 < q)%Q -> 1 <= Qceiling (inject_Z n * q).
Proof.
  intros Hn Hq.
  assert (H : (0 < inject_Z n * q)%Q).
  { apply Qmult_lt_0_compat; [|done]. change 0%Q with (inject_Z 0).
    rewrite <- Zlt_Qlt. lia. }
  pose proof (Qle_ceiling (inject_Z n * q)) as Hc.
  assert (H' : (0 < inject_Z (Qceiling (inject_Z n * q)))%Q)
    by (eapply Qlt_le_trans; eassumption).
  change 0%Q with (inject_Z 0) in H'. rewrite <- Zlt_Qlt in H'. lia.
Qed.

(** The modes other than [custom], and [custom] with a positive or an
    absent count, have the target the specification gives. *)
Lemma targetSentences_spec text length customLength :
  (length = custom -> match customLength with Some n => 1 <= n | None => True end) ->
  targetSentences (sentences_of text) length customLength
  = Spec.targetSentences (Z.of_nat (List.length (sentences_of text))) length
      customLength.
Proof.
  intros Hc. pose proof (sentences_of_nonempty text) as Hn.
  destruct length; simpl.
  - apply Z.max_r. apply Qceiling_pos; [lia|done].
  - apply Z.max_r. apply Qceiling_pos; [lia|done].
  - done.
  - specialize (Hc eq_refl). destruct customLength as [[|n|n]|]; simpl; try done; lia.
Qed.

(** The stage keeps the first sentences up to the target, joined by single
    spaces. *)
Lemma applyLengthTransform_spec text length customLength :
  (length = custom -> match customLength with Some n => 1 <= n | None => True end) ->
  fst (applyLengthTransform text length customLength)
  = join (str " ")
      (take (Z.to_nat (Spec.targetSentences
                         (Z.of_nat (List.length (sentences_of text))) length
                         customLength))
            (sentences_of text)).
Proof.
  intros Hc. unfold applyLengthTransform. cbn [fst].
  rewrite targetSentences_spec by done.
  rewrite slice0_take; [done|].
  pose proof (sentences_of_nonempty text) as Hn.
  destruct length; simpl.
  - etransitivity; [|apply Qceiling_pos]; [lia|lia|done].
  - etransitivity; [|apply Qceiling_pos]; [lia|lia|done].
  - lia.
  - specialize (Hc eq_refl). destruct customLength; lia.
Qed.

End LengthFacts.

(** C4 on the code: a negative [customLength] is not clamped.  For the
    text of three sentences and [customLength = -1] the target is [-1], the
    slice drops the last sentence and two are kept, where a target clamped
    to 1 keeps the first sentence alone. *)
Theorem custom_length_not_clamped :
  let text := Js.str "A. B. C." in
  let sentences := TransformWorker.sentences_of text in
  sentences = [Js.str "A."; Js.str " B."; Js.str " C."]
  /\ TransformWorker.targetSentences sentences TransformWorker.custom (Some (-1)) = -1
  /\ Spec.targetSentences (Z.of_nat (length sentences)) TransformWorker.custom
       (Some (-1)) = 1
  /\ TransformWorker.applyLengthTransform text TransformWorker.custom (Some (-1))
     = (Js.str "A.  B.", Js.str "length_custom_-1_sentences")
  /\ TransformWorker.targetSentences sentences TransformWorker.custom (Some 0) = 3.
Proof. vm_compute. done. Qed.

(** ** The change ratio *)

Section ChangeRatioFacts.
Import Js Aux TransformWorker.

Lemma split_pieces_nonempty cur ps : (1 <= length (split_pieces cur ps))%nat.
Proof.
  revert cur. induction ps as [|[c|w] ps IH]; intros cur; simpl; [lia|apply IH|lia].
Qed.

Lemma split_nonempty (r : regex) s : (1 <= length (split r s))%nat.
Proof. apply split_pieces_nonempty. Qed.

Lemma round_bounds (x : Q) (lo hi : Z) :
  (inject_Z lo <= x)%Q -> (x <= inject_Z hi)%Q -> lo <= round x <= hi.
Proof.
  intros Hlo Hhi. unfold round. split.
  - rewrite <- (Qfloor_Z lo). apply Qfloor_resp_le.
    rewrite <- (Qplus_0_r (inject_Z lo)). by apply Qplus_le_compat.
  - assert (H : (x + (1 # 2) < inject_Z (hi + 1))%Q).
    { rewrite inject_Z_plus, (Qplus_comm x), (Qplus_comm (inject_Z hi)).
      apply Qplus_lt_le_compat; [reflexivity|done]. }
    pose proof (Qfloor_le (x + (1 # 2))) as Hf.
    assert (H' : (inject_Z (Qfloor (x + (1 # 2))) < inject_Z (hi + 1))%Q)
      by (eapply Qle_lt_trans; eassumption).
    rewrite <- Zlt_Qlt in H'. lia.
Qed.

Lemma quotient_bounds (d m : Z) :
  0 <= d <= m -> 0 < m ->
  (0 <= inject_Z d / inject_Z m)%Q /\ (inject_Z d / inject_Z m <= 1)%Q.
Proof.
  intros Hd Hm.
  assert (Hm' : (0 < inject_Z m)%Q)
    by (change 0%Q with (inject_Z 0); rewrite <- Zlt_Qlt; lia).
  split.
  - apply Qle_shift_div_l; [done|]. rewrite Qmult_0_l.
    change 0%Q with (inject_Z 0). rewrite <- Zle_Qle. lia.
  - apply Qle_shift_div_r; [done|]. rewrite Qmult_1_l. rewrite <- Zle_Qle. lia.
Qed.

(** The ratio of the code is a number of hundredths between 0 and 1. *)
Lemma calculateChangeRatio_range original transformed :
  (0 <= calculateChangeRatio original transformed)%Q
  /\ (calculateChangeRatio original transformed <= 1)%Q.
Proof.
  unfold calculateChangeRatio.
  pose proof (split_nonempty spaces_re original) as Ho.
  pose proof (split_nonempty spaces_re transformed) as Ht.
  set (a := Z.of_nat (length (split spaces_re original))) in *.
  set (b := Z.of_nat (length (split spaces_re transformed))) in *.
  destruct (Z.ltb_spec 0 (Z.max a b)) as [Hm|Hm]; [|lia].
  destruct (quotient_bounds (Z.abs (a - b)) (Z.max a b)) as [H0 H1]; [lia|lia|].
  destruct (round_bounds (inject_Z (Z.abs (a - b)) / inject_Z (Z.max a b) * 100) 0 100)
    as [Hr0 Hr1].
  - change (inject_Z 0) with (0 * 100)%Q. by apply Qmult_le_compat_r.
  - change (inject_Z 100) with (1 * 100)%Q. by apply Qmult_le_compat_r.
  - apply quotient_bounds; [lia|lia].
Qed.

Lemma calculateChangeRatio_same text : (calculateChangeRatio text text == 0)%Q.
Proof.
  unfold calculateChangeRatio.
  pose proof (split_nonempty spaces_re text) as Ho.
  rewrite Z.sub_diag, Z.max_id. simpl Z.abs.
  destruct (Z.ltb_spec 0 (Z.of_nat (length (split spaces_re text)))); [|lia].
  assert (E : round (inject_Z 0 / inject_Z (Z.of_nat (length (split spaces_re text)))
                     * 100) = 0).
  { unfold round. rewrite (Qfloor_comp _ (1 # 2)); [done|].
    unfold Qdiv. change (inject_Z 0) with 0%Q. rewrite !Qmult_0_l. reflexivity. }
  change (Z.abs 0) with 0. rewrite E. reflexivity.
Qed.

(** Without settings no stage runs: the text comes back with ratio 0. *)
Lemma performTransform_no_settings request :
  payload_settings request = None \/ payload_settings request = Some no_settings ->
  exists result,
    performTransform request false = ok (id request) result
    /\ text_ result = payload_text request
    /\ rulesApplied result = []
    /\ (changeRatio result == 0)%Q.
Proof.
  intros Hs. eexists. split.
  - unfold performTransform. destruct Hs as [-> | ->]; simpl; reflexivity.
  - simpl. repeat split. apply calculateChangeRatio_same.
Qed.

(** Every successful result has its ratio between 0 and 1. *)
Lemma performTransform_ratio_range request aborted result rid :
  performTransform request aborted = ok rid result ->
  (0 <= changeRatio result)%Q /\ (changeRatio result <= 1)%Q.
Proof.
  unfold performTransform. destruct aborted; [done|].
  repeat (match goal with
          | |- context [match ?x with _ => _ end] => destruct x eqn:?
          | |- context [let '(_, _) := ?x in _] => destruct x eqn:?
          end; try done).
  all: intros [= _ <-]; simpl; apply calculateChangeRatio_range.
Qed.

End ChangeRatioFacts.

(** C1 on the code: the word counts of the ratio are the numbers of pieces
    of a split on white space, which count an empty piece at either end and
    are never 0.  A text of three spaces has no word, and neither has the
    empty text the concise style makes of it; the ratio is 0.5, not 0.  A
    leading space alone gives two words the ratio 0.33. *)
Theorem change_ratio_of_blank_text :
  let settings :=
    Some {| TransformWorker.length_ := None;
            TransformWorker.customLength := None;
            TransformWorker.tone := None;
            TransformWorker.style := Some (Js.str "concise");
            TransformWorker.prompt := None |} in
  let request text :=
    {| TransformWorker.id := Js.str "r1";
       TransformWorker.type := TransformWorker.Transform;
       TransformWorker.payload_text := text;
       TransformWorker.payload_settings := settings |} in
  (exists result,
     TransformWorker.performTransform (request (Js.str "   ")) false
     = TransformWorker.ok (Js.str "r1") result
     /\ TransformWorker.text_ result = []
     /\ Spec.wordCount (Js.str "   ") = 0
     /\ Spec.wordCount (TransformWorker.text_ result) = 0
     /\ (Spec.changeRatio (Js.str "   ") (TransformWorker.text_ result) == 0)%Q
     /\ (TransformWorker.changeRatio result == 1 # 2)%Q)
  /\ (exists result,
        TransformWorker.performTransform (request (Js.str " hello world")) false
        = TransformWorker.ok (Js.str "r1") result
        /\ TransformWorker.text_ result = Js.str "hello world"
        /\ Spec.wordCount (Js.str " hello world") = 2
        /\ Spec.wordCount (TransformWorker.text_ result) = 2
        /\ (Spec.changeRatio (Js.str " hello world") (TransformWorker.text_ result)
            == 0)%Q
        /\ (TransformWorker.changeRatio result == 33 # 100)%Q)
  /\ length (Js.split TransformWorker.spaces_re (Js.str "   ")) = 2%nat
  /\ length (Js.split TransformWorker.spaces_re []) = 1%nat
  /\ length (Js.split TransformWorker.spaces_re (Js.str " hello world")) = 3%nat.
Proof.
  split; [|split].
  - eexists. split; [vm_compute; reflexivity|]. vm_compute. done.
  - eexists. split; [vm_compute; reflexivity|]. vm_compute. done.
  - vm_compute. done.
Qed.

(** ** Whole-word patterns *)

Section WordFacts.
Import Js Aux.
Implicit Types (s w f from to rest : jstr) (prev : option ascii) (k : cont).

Lemma is_word_canonicalize (x : ascii) : is_word (canonicalize x) = is_word x.
Proof. destruct x as [[] [] [] [] [] [] [] []]; reflexivity. Qed.

Lemma code_inj (a b : ascii) : (code a =? code b)%N = true -> a = b.
Proof.
  intros H. apply N.eqb_eq in H. unfold code in H.
  by rewrite <- (ascii_N_embedding a), <- (ascii_N_embedding b), H.
Qed.

Lemma eqi_word (x a : ascii) : eqi x a = true -> is_word x = is_word a.
Proof.
  intros H. apply code_inj in H.
  by rewrite <- (is_word_canonicalize x), H, is_word_canonicalize.
Qed.

Lemma m_lit_i w k prev s :
  m (lit_i w) k prev s
  = if prefix_by eqi w s
    then (fun n => (length w + n)%nat)
           <$> k (last_or prev (take (length w) s)) (drop (length w) s)
    else None.
Proof.
  revert prev s. induction w as [|a w IH]; intros prev s; simpl.
  - rewrite take_0, drop_0. unfold last_or. simpl. by destruct (k prev s).
  - destruct s as [|x s]; [done|]. fold (eqi x a).
    destruct (eqi x a); simpl; [|done].
    rewrite IH, last_or_cons. destruct (prefix_by eqi w s); [|done].
    by destruct (k _ _).
Qed.

Lemma exec_word_re_i w prev s :
  exec (word_re_i w) prev s
  = if boundary prev (head s) && prefix_by eqi w s
       && boundary (last_or prev (take (length w) s)) (head (drop (length w) s))
    then Some (length w) else None.
Proof.
  unfold exec, word_re_i, boundary. cbn [m].
  destruct (xorb (is_word_at prev) (is_word_at (head s))); [|done].
  rewrite m_lit_i. cbn [m].
  destruct (prefix_by eqi w s); [|done]. simpl.
  destruct (xorb _ _); simpl; [|done]. f_equal. lia.
Qed.

Lemma prefix_by_length eq w s : prefix_by eq w s = true -> (length w <= length s)%nat.
Proof.
  revert s. induction w as [|a w IH]; intros [|b s]; simpl; try done; try lia.
  intros [_ H]%andb_prop. apply IH in H. lia.
Qed.

Lemma prefix_by_word w s :
  Forall (fun c => is_word c = true) w -> prefix_by eqi w s = true ->
  Forall (fun c => is_word c = true) (take (length w) s).
Proof.
  intros Hw. revert s. induction Hw as [|a w Ha _ IH]; intros [|b s]; simpl; try done.
  intros [H1 H2]%andb_prop. constructor; [|by apply IH].
  by rewrite (eqi_word _ _ H1).
Qed.

Lemma prefix_by_app eq w a s :
  length a = length w -> prefix_by eq w (a ++ s) = prefix_by eq w a.
Proof.
  revert a. induction w as [|x w IH]; intros [|y a]; simpl; try done.
  intros [= H]. by rewrite IH.
Qed.

Lemma last_word w prev :
  w <> [] -> Forall (fun c => is_word c = true) w -> is_word_at (last_or prev w) = true.
Proof.
  intros Hne Hw. unfold last_or. destruct (last w) as [c|] eqn:E.
  - simpl. apply last_Some in E as [l ->].
    apply Forall_app in Hw as [_ Hc]. by apply Forall_cons in Hc as [Hc _].
  - by apply last_None in E.
Qed.

Lemma head_not_starting p s : not_starting p s -> forall c, head s = Some c -> p c = false.
Proof. destruct s; simpl; [done|]. by intros H c [= <-]. Qed.

Lemma is_word_at_head_false rest :
  not_starting is_word rest -> is_word_at (head rest) = false.
Proof. by destruct rest. Qed.

Section Wordy.
Variables (f to : jstr).
Hypothesis Hf : wordy f.

Lemma exec_word_nil prev : exec (word_re_i f) prev [] = None.
Proof.
  rewrite exec_word_re_i. destruct Hf as [Hne _]. destruct f; [done|].
  simpl. by rewrite andb_false_r.
Qed.

(** No match starts at a character that is not a word character. *)
Lemma exec_word_at_nonword prev c s :
  is_word c = false -> exec (word_re_i f) prev (c :: s) = None.
Proof.
  intros Hc. rewrite exec_word_re_i. destruct Hf as [Hne Hall].
  destruct f as [|a f']; [done|]. apply Forall_cons in Hall as [Ha _].
  simpl. destruct (eqi c a) eqn:E; [|by rewrite andb_false_r].
  apply eqi_word in E. congruence.
Qed.

(** No match starts inside a word. *)
Lemma exec_word_inside prev c s :
  is_word_at prev = true -> is_word c = true ->
  exec (word_re_i f) prev (c :: s) = None.
Proof.
  intros Hp Hc. rewrite exec_word_re_i. unfold boundary. simpl. by rewrite Hp, Hc.
Qed.

(** At the start of a word the match is the word, if it is [f] up to
    case. *)
Lemma exec_word_at_chunk prev w rest :
  is_word_at prev = false -> chunk w rest ->
  exec (word_re_i f) prev (w ++ rest)
  = if same_ic f w then Some (length w) else None.
Proof.
  intros Hp (Hne & Hw & Hrest). rewrite exec_word_re_i.
  destruct Hf as [Hfne Hfall]. unfold same_ic.
  assert (Hb : boundary prev (head (w ++ rest)) = true).
  { unfold boundary. destruct w as [|c w]; [done|]. simpl.
    apply Forall_cons in Hw as [-> _]. by rewrite Hp. }
  rewrite Hb. simpl.
  destruct (Nat.eqb_spec (length w) (length f)) as [Hlen|Hlen]; simpl.
  - rewrite <- Hlen, prefix_by_app, take_app_length, drop_app_length by done.
    destruct (prefix_by eqi f w); simpl; [|done].
    unfold boundary. by rewrite last_word, is_word_at_head_false.
  - destruct (prefix_by eqi f (w ++ rest)) eqn:E; simpl; [|done].
    pose proof (prefix_by_word _ _ Hfall E) as Hpw.
    pose proof (prefix_by_length _ _ _ E) as Hlen'.
    destruct (decide (length f < length w)%nat) as [Hlt|Hge].
    + (* the match ends inside the word *)
      unfold boundary. rewrite last_word; [| |done].
      2:{ intros E'. apply (f_equal length) in E'.
          rewrite length_take, length_app in E'.
          destruct f, w; simpl in *; try done; lia. }
      rewrite drop_app_le by lia.
      destruct (drop (length f) w) as [|d l] eqn:Ed.
      { apply (f_equal length) in Ed. rewrite length_drop in Ed. simpl in Ed. lia. }
      simpl. assert (Hd : is_word d = true).
      { assert (Hin : d ∈ w) by (rewrite <- (take_drop (length f) w), Ed; set_solver).
        rewrite Forall_forall in Hw. by apply Hw. }
      by rewrite Hd.
    + (* the match would run over the end of the word *)
      exfalso. rewrite take_app_ge in Hpw by lia.
      apply Forall_app in Hpw as [_ Hpw].
      destruct rest as [|c rest]; [rewrite length_app in Hlen'; simpl in *; lia|].
      assert (Hpos : (0 < length f - length w)%nat) by lia.
      destruct (length f - length w)%nat as [|n]; [lia|].
      simpl in Hpw. apply Forall_cons in Hpw as [Hc _]. simpl in Hrest. congruence.
Qed.

Lemma rewrite_from_nil prev : rewrite_from f to prev [] = [].
Proof. unfold rewrite_from. cbn [scan]. by rewrite exec_word_nil. Qed.

Lemma rewrite_from_nonword prev c s :
  is_word c = false -> rewrite_from f to prev (c :: s) = c :: rewrite_from f to (Some c) s.
Proof.
  intros Hc. unfold rewrite_from. by rewrite scan_miss by by apply exec_word_at_nonword.
Qed.

Lemma scan_inside prev w rest :
  is_word_at prev = true -> Forall (fun c => is_word c = true) w ->
  scan (word_re_i f) prev O (w ++ rest)
  = (Keep <$> w) ++ scan (word_re_i f) (last_or prev w) O rest.
Proof.
  intros Hp Hw. revert prev Hp. induction Hw as [|c w Hc _ IH]; intros prev Hp; [done|].
  rewrite <- app_comm_cons, scan_miss by by apply exec_word_inside.
  rewrite IH by done. by rewrite last_or_cons.
Qed.

Lemma emit_app ps qs : emit to (ps ++ qs) = emit to ps ++ emit to qs.
Proof. unfold emit. by rewrite flat_map_app. Qed.

Lemma emit_Keep w : emit to (Keep <$> w) = w.
Proof. induction w as [|c w IH]; [done|]. simpl. by f_equal. Qed.

Lemma rewrite_from_chunk prev w rest :
  is_word_at prev = false -> chunk w rest ->
  rewrite_from f to prev (w ++ rest) = sub f to w ++ rewrite_from f to (last_or prev w) rest.
Proof.
  intros Hp Hch. pose proof (exec_word_at_chunk prev w rest Hp Hch) as He.
  destruct Hch as (Hne & Hw & Hrest). unfold rewrite_from, sub.
  destruct (same_ic f w) eqn:Hs.
  - destruct w as [|c w]; [done|].
    rewrite (scan_hit _ (length w) _ _ He) by (simpl; rewrite length_app; lia).
    change (S (length w)) with (length (c :: w)).
    rewrite take_app_length, drop_app_length. done.
  - destruct w as [|c w]; [done|]. apply Forall_cons in Hw as [Hc Hw].
    rewrite <- app_comm_cons, scan_miss by done.
    rewrite scan_inside by done. cbn [emit flat_map]. simpl app.
    fold (emit to ((Keep <$> w) ++ scan (word_re_i f) (last_or (Some c) w) O rest)).
    by rewrite emit_app, emit_Keep, last_or_cons.
Qed.

(** In front of a character that is not a word character the previous
    character does not matter. *)
Lemma rewrite_from_fresh prev rest :
  not_starting is_word rest -> rewrite_from f to prev rest = rewrite_from f to None rest.
Proof.
  destruct rest as [|c s]; intros Hc; [by rewrite !rewrite_from_nil|].
  by rewrite !rewrite_from_nonword.
Qed.

Lemma rewrite_from_same prev prev' s :
  is_word_at prev = is_word_at prev' -> rewrite_from f to prev s = rewrite_from f to prev' s.
Proof.
  intros Hp. destruct s as [|c s]; [by rewrite !rewrite_from_nil|].
  unfold rewrite_from. cbn [scan].
  assert (He : exec (word_re_i f) prev (c :: s) = exec (word_re_i f) prev' (c :: s)).
  { rewrite !exec_word_re_i. unfold boundary. rewrite Hp.
    destruct Hf as [Hne _]. destruct f as [|a f']; [done|].
    simpl length. rewrite !firstn_cons, !last_or_cons. done. }
  by rewrite He.
Qed.

(** The replacement, word by word. *)
Lemma replace_nil : replace_g (word_re_i f) to [] = [].
Proof. apply rewrite_from_nil. Qed.

Lemma replace_nonword c s :
  is_word c = false ->
  replace_g (word_re_i f) to (c :: s) = c :: replace_g (word_re_i f) to s.
Proof.
  intros Hc. change (rewrite_from f to None (c :: s) = c :: rewrite_from f to None s).
  rewrite rewrite_from_nonword by done. f_equal.
  apply rewrite_from_same. simpl. done.
Qed.

Lemma replace_chunk w rest :
  chunk w rest ->
  replace_g (word_re_i f) to (w ++ rest)
  = sub f to w ++ replace_g (word_re_i f) to rest.
Proof.
  intros Hch. change (rewrite_from f to None (w ++ rest) = sub f to w ++ rewrite_from f to None rest).
  rewrite rewrite_from_chunk by done. f_equal.
  apply rewrite_from_fresh. by destruct Hch as (_ & _ & ?).
Qed.

End Wordy.

(** Induction over a text by its words and the characters between them. *)
Lemma chunk_ind (P : jstr -> Prop) :
  P [] ->
  (forall c s, is_word c = false -> P s -> P (c :: s)) ->
  (forall w rest, chunk w rest -> P rest -> P (w ++ rest)) ->
  forall s, P s.
Proof.
  intros Hnil Hsep Hword s.
  remember (length s) as n eqn:Hn. revert s Hn.
  induction n as [n IH] using lt_wf_ind. intros s Hn.
  destruct s as [|c s]; [done|].
  destruct (is_word c) eqn:Hc.
  - rewrite <- (take_drop (run is_word (c :: s)) (c :: s)).
    apply Hword.
    + repeat split.
      * simpl. rewrite Hc. done.
      * apply run_all.
      * pose proof (run_stop is_word (c :: s)) as H.
        by destruct (drop (run is_word (c :: s)) (c :: s)).
    + apply (IH (length (drop (run is_word (c :: s)) (c :: s)))); [|done].
      rewrite length_drop. simpl run. rewrite Hc. simpl in *. lia.
  - apply Hsep; [done|]. apply (IH (length s)); [simpl in Hn; lia|done].
Qed.

End WordFacts.

(** ** The tone stage *)

Section ToneFacts.
Import Js Aux TransformWorker.
Implicit Types (s w f from to rest : jstr) (prev : option ascii).

Lemma prefix_by_head w s :
  w <> [] -> prefix_by eqi w s = true -> is_word_at (head s) = is_word_at (head w).
Proof.
  destruct w as [|a w]; [done|]. destruct s as [|b s]; [done|]. simpl.
  intros _ [H _]%andb_prop. by apply eqi_word.
Qed.

Lemma prefix_by_last w s prev :
  w <> [] -> prefix_by eqi w s = true ->
  is_word_at (last_or prev (take (length w) s)) = is_word_at (last w).
Proof.
  revert s prev. induction w as [|a w IH]; intros s prev Hne; [done|].
  destruct s as [|b s]; [done|]. simpl. intros [H1 H2]%andb_prop.
  rewrite last_or_cons, last_cons. destruct w as [|a' w].
  - cbn [length]. rewrite take_0. simpl. by apply eqi_word.
  - rewrite IH by done. by destruct (last (a' :: w)) eqn:E; [|apply last_None in E].
Qed.

Lemma exec_edged from prev s :
  edged from ->
  exec (word_re_i from) prev s
  = if negb (is_word_at prev) && prefix_by eqi from s
       && negb (is_word_at (head (drop (length from) s)))
    then Some (length from) else None.
Proof.
  intros [Hh Hl]. rewrite exec_word_re_i.
  assert (Hne : from <> []) by (by destruct from).
  destruct (prefix_by eqi from s) eqn:E; [|by rewrite !andb_false_r].
  unfold boundary. rewrite (prefix_by_head _ _ Hne E), (prefix_by_last _ _ _ Hne E).
  rewrite Hh, Hl, !xorb_true_r. simpl. by rewrite andb_true_r.
Qed.

Lemma exec_occurs from prev s :
  edged from ->
  (exists n, exec (word_re_i from) prev s = Some n) <-> Spec.occurs_whole from prev s.
Proof.
  intros He. rewrite exec_edged by done. split.
  - intros [n Hn].
    destruct (is_word_at prev) eqn:Hp; [done|].
    destruct (prefix_by eqi from s) eqn:Hpre; [|done].
    destruct (is_word_at (head (drop (length from) s))) eqn:Hd; [done|].
    exists (take (length from) s), (drop (length from) s).
    pose proof (prefix_by_length _ _ _ Hpre).
    split; [by rewrite take_drop|]. split; [|done].
    unfold same_ic. rewrite length_take, Nat.min_l, Nat.eqb_refl by done. simpl.
    rewrite <- (take_drop (length from) s) in Hpre.
    by rewrite prefix_by_app in Hpre by (rewrite length_take; lia).
  - intros (w & rest & -> & Hs & Hp & Hr).
    apply andb_prop in Hs as [Hlen Hpre]. apply Nat.eqb_eq in Hlen.
    rewrite Hp, prefix_by_app, Hpre, <- Hlen, drop_app_length, Hr by done.
    simpl. by eexists.
Qed.

Lemma exec_edged_length from prev s n :
  edged from -> exec (word_re_i from) prev s = Some n ->
  n = length from /\ (1 <= n <= length s)%nat.
Proof.
  intros He. rewrite exec_edged by done.
  destruct (negb (is_word_at prev)); [|done].
  destruct (prefix_by eqi from s) eqn:Hpre; [|done].
  destruct (negb _); [|done]. simpl. intros [= <-].
  pose proof (prefix_by_length _ _ _ Hpre). destruct He as [Hh _].
  destruct from; [done|]. simpl in *. lia.
Qed.

(** The replacement of one entry rewrites whole words and nothing else. *)
Lemma rewritten_scan from to :
  edged from ->
  forall s prev, Spec.Rewritten from to prev s (emit to (scan (word_re_i from) prev O s)).
Proof.
  intros He s. remember (length s) as n eqn:Hn. revert s Hn.
  induction n as [n IH] using lt_wf_ind. intros s Hn prev.
  destruct s as [|c s].
  - cbn [scan]. destruct (exec (word_re_i from) prev []) as [k|] eqn:E.
    + apply exec_edged_length in E as [_ E]; [simpl in E; lia|done].
    + constructor.
  - destruct (exec (word_re_i from) prev (c :: s)) as [k|] eqn:E.
    + pose proof (proj1 (exec_occurs from prev (c :: s) He) (ex_intro _ _ E))
        as (w & rest & Hs & Hsame & Hp & Hr).
      pose proof (exec_edged_length _ _ _ _ He E) as [-> Hk].
      assert (Hlen : length w = length from).
      { apply andb_prop in Hsame as [Hl _]. by apply Nat.eqb_eq in Hl. }
      destruct (length from) as [|k] eqn:Ek; [lia|].
      rewrite (scan_hit _ k _ _ E) by lia.
      rewrite Hs, <- Hlen, take_app_length, drop_app_length.
      cbn [emit flat_map]. fold (emit to (scan (word_re_i from) (last_or prev w) O rest)).
      apply Spec.rewritten_swap; try done.
      apply (IH (length rest)); [|done].
      rewrite Hn, Hs, length_app. lia.
    + rewrite scan_miss by done. cbn [emit flat_map]. simpl app.
      apply Spec.rewritten_keep.
      * intros Ho. apply exec_occurs in Ho as [k Hk]; [congruence|done].
      * apply (IH (length s)); [simpl in Hn; lia|done].
Qed.

Lemma emit_no_hits (r : regex) to s prev :
  hits (scan r prev O s) = [] -> emit to (scan r prev O s) = s.
Proof.
  revert prev. induction s as [|c s IH]; intros prev; cbn [scan].
  - by destruct (exec r prev []).
  - destruct (exec r prev (c :: s)) as [[|k]|]; try done.
    rewrite hits_Keep. intros H. cbn [emit flat_map]. simpl. f_equal. by apply IH.
Qed.

Lemma replace_no_match (r : regex) to s : match_g r s = None -> replace_g r to s = s.
Proof.
  unfold match_g. destruct (hits (scan r None O s)) eqn:E; [|done].
  intros _. by apply emit_no_hits.
Qed.

Lemma tone_fold lexicon text n :
  fst (fold_left
         (fun '(result, swaps) '(from, to) =>
            let regex := word_re_i from in
            match match_g regex result with
            | Some matches =>
                (replace_g regex to result, swaps + Z.of_nat (List.length matches))
            | None => (result, swaps)
            end) lexicon (text, n))
  = swap_all lexicon text.
Proof.
  revert text n. induction lexicon as [|[from to] lexicon IH]; intros text n; [done|].
  cbn [fold_left swap_all fst snd].
  destruct (match_g (word_re_i from) text) eqn:E.
  - apply IH.
  - rewrite IH. unfold swap_all. by rewrite replace_no_match.
Qed.

Lemma applyToneTransform_text text tone lexicon :
  TONE_LEXICONS (toLowerCase tone) = Some lexicon ->
  fst (applyToneTransform text tone) = swap_all lexicon text.
Proof.
  intros H. unfold applyToneTransform. rewrite H.
  rewrite <- (tone_fold lexicon text 0).
  by destruct (fold_left _ lexicon (text, 0)).
Qed.

Lemma swap_all_rewritten lexicon text :
  Forall (fun e => edged (fst e)) lexicon ->
  Spec.ToneRewritten lexicon text (swap_all lexicon text).
Proof.
  intros Hall. revert text. induction Hall as [|[from to] lexicon He _ IH]; intros text.
  - constructor.
  - econstructor; [|apply IH]. by apply rewritten_scan.
Qed.

Lemma lexicon_edged name lexicon :
  TONE_LEXICONS name = Some lexicon -> Forall (fun e => edged (fst e)) lexicon.
Proof.
  unfold TONE_LEXICONS. repeat case_bool_decide; intros Hlex.
  1-3: injection Hlex as <-; repeat constructor.
  destruct (inherited name); [injection Hlex as <-; constructor|done].
Qed.

(** A word between two texts that do not touch it is replaced on its own. *)
Lemma replace_word_between f to u w v :
  wordy f -> not_ending_word u -> chunk w v ->
  replace_g (word_re_i f) to (u ++ w ++ v)
  = replace_g (word_re_i f) to u ++ sub f to w ++ replace_g (word_re_i f) to v.
Proof.
  intros Hf Hu Hch. revert Hu. induction u as [|c s Hc IH|x rest Hx IH] using chunk_ind;
    intros Hu.
  - rewrite app_nil_l. by rewrite (replace_nil f to Hf), (replace_chunk f to Hf).
  - rewrite <- app_comm_cons.
    rewrite !(replace_nonword f to Hf) by done. simpl. f_equal. apply IH.
    unfold not_ending_word in *. rewrite last_cons in Hu.
    by destruct (last s).
  - pose proof Hx as (Hxne & Hxw & Hrest).
    destruct rest as [|c rest].
    { exfalso. unfold not_ending_word in Hu. rewrite app_nil_r in Hu.
      pose proof (last_word x None Hxne Hxw) as Hl. unfold last_or in Hl.
      destruct (last x); simpl in *; congruence. }
    rewrite <- app_assoc.
    rewrite (replace_chunk f to Hf x (c :: rest)) by done.
    rewrite (replace_chunk f to Hf x ((c :: rest) ++ w ++ v)) by done.
    rewrite <- app_assoc. f_equal.
    apply IH. unfold not_ending_word in *. rewrite last_app in Hu.
    by destruct (last (c :: rest)) eqn:E; [|apply last_None in E].
Qed.

End ToneFacts.


(** ** The words of a text *)

Section WordsFacts.
Import Js Aux.
Implicit Types (s w f rest : jstr).

Lemma words_from_fresh b rest :
  not_starting is_word rest -> words_from b rest = words_from false rest.
Proof. destruct rest as [|c s]; simpl; [done|]. by intros ->. Qed.

Lemma words_from_inside w rest :
  Forall (fun c => is_word c = true) w ->
  words_from true (w ++ rest) = words_from true rest.
Proof. induction 1 as [|c w Hc _ IH]; [done|]. simpl. by rewrite Hc. Qed.

Lemma words_nonword c s : is_word c = false -> words (c :: s) = words s.
Proof. unfold words. simpl. by intros ->. Qed.

Lemma run_chunk w rest : chunk w rest -> run is_word (w ++ rest) = length w.
Proof.
  intros (_ & Hw & Hrest). rewrite run_app by done. rewrite run_0; [lia|].
  by destruct rest.
Qed.

Lemma words_chunk w rest : chunk w rest -> words (w ++ rest) = w :: words rest.
Proof.
  intros Hch. pose proof (run_chunk w rest Hch) as Hrun.
  destruct Hch as (Hne & Hw & Hrest). unfold words.
  destruct w as [|c w]; [done|]. apply Forall_cons in Hw as [Hc Hw].
  cbn [words_from app]. rewrite Hc. cbn [app]. f_equal.
  - change (c :: w ++ rest) with ((c :: w) ++ rest). by rewrite Hrun, take_app_length.
  - rewrite words_from_inside by done. by apply words_from_fresh.
Qed.

Lemma words_skip sp s :
  Forall (fun c => is_word c = false) sp -> words (sp ++ s) = words s.
Proof. induction 1 as [|c sp Hc _ IH]; [done|]. simpl. by rewrite words_nonword. Qed.

Lemma not_starting_app p rest x :
  rest <> [] -> not_starting p rest -> not_starting p (rest ++ x).
Proof. by destruct rest. Qed.

Lemma words_trailing s sp :
  Forall (fun c => is_word c = false) sp -> words (s ++ sp) = words s.
Proof.
  intros Hsp. induction s as [|c s Hc IH|w rest Hch IH] using chunk_ind.
  - rewrite app_nil_l, <- (app_nil_r sp). by rewrite words_skip.
  - rewrite <- app_comm_cons. by rewrite !words_nonword.
  - rewrite <- app_assoc.
    assert (Hch' : chunk w (rest ++ sp)).
    { destruct Hch as (Hne & Hw & Hrest). repeat split; try done.
      destruct rest as [|c rest]; [|done]. simpl. destruct Hsp; done. }
    by rewrite (words_chunk w (rest ++ sp)), (words_chunk w rest), IH.
Qed.

Section Delete.
Variable f : jstr.
Hypothesis Hf : wordy f.

Lemma del_not_starting rest :
  not_starting is_word rest -> not_starting is_word (del f rest).
Proof.
  destruct rest as [|c s]; intros Hc; unfold del.
  - by rewrite (replace_nil f [] Hf).
  - by rewrite (replace_nonword f [] Hf).
Qed.

(** Deleting a word leaves the other words as they are. *)
Lemma words_del s :
  words (del f s) = List.filter (fun w => negb (same_ic f w)) (words s).
Proof.
  unfold del. induction s as [|c s Hc IH|w rest Hch IH] using chunk_ind.
  - by rewrite (replace_nil f [] Hf).
  - by rewrite (replace_nonword f [] Hf), !words_nonword.
  - rewrite (replace_chunk f [] Hf), (words_chunk w rest) by done.
    simpl. unfold sub. destruct (same_ic f w); simpl; [done|].
    rewrite words_chunk; [by rewrite IH|].
    destruct Hch as (Hne & Hw & Hrest). repeat split; try done.
    by apply del_not_starting.
Qed.

(** Without the word there is nothing to delete. *)
Lemma del_absent s :
  Forall (fun w => same_ic f w = false) (words s) -> del f s = s.
Proof.
  unfold del. induction s as [|c s Hc IH|w rest Hch IH] using chunk_ind; intros Hall.
  - by rewrite (replace_nil f [] Hf).
  - rewrite (replace_nonword f [] Hf) by done. rewrite words_nonword in Hall by done.
    by rewrite IH.
  - rewrite (replace_chunk f [] Hf) by done. rewrite words_chunk in Hall by done.
    apply Forall_cons in Hall as [Hw Hall]. unfold sub. by rewrite Hw, IH.
Qed.

End Delete.

Lemma words_del_all fs s :
  Forall wordy fs ->
  words (fold_left (fun result filler => replace_g (word_re_i filler) [] result) fs s)
  = List.filter (fun w => forallb (fun f => negb (same_ic f w)) fs) (words s).
Proof.
  intros Hfs. revert s. induction Hfs as [|f fs Hf _ IH]; intros s; simpl.
  - induction (words s) as [|w l IHl]; simpl; [done|]. by f_equal.
  - rewrite IH. fold (del f s). rewrite (words_del f Hf).
    induction (words s) as [|w l IHl]; simpl; [done|].
    destruct (same_ic f w); simpl; [done|].
    destruct (forallb _ fs); simpl; by rewrite IHl.
Qed.

Lemma del_all_absent fs s :
  Forall wordy fs ->
  Forall (fun w => forallb (fun f => negb (same_ic f w)) fs = true) (words s) ->
  fold_left (fun result filler => replace_g (word_re_i filler) [] result) fs s = s.
Proof.
  intros Hfs. induction Hfs as [|f fs Hf _ IH]; intros Hall; simpl; [done|].
  fold (del f s). rewrite (del_absent f Hf).
  - apply IH. eapply Forall_impl; [exact Hall|]. simpl.
    by intros w [_ H]%andb_prop.
  - eapply Forall_impl; [exact Hall|]. simpl.
    intros w [H _]%andb_prop. by apply negb_true_iff.
Qed.

End WordsFacts.

(** ** Runs of white space and trimming *)

Section SpaceFacts.
Import Js Aux.
Implicit Types (s rest : jstr) (prev : option ascii).

Lemma space_not_word (c : ascii) : is_space c = true -> is_word c = false.
Proof. destruct c as [[] [] [] [] [] [] [] []]; simpl; done. Qed.

Lemma word_not_space (c : ascii) : is_word c = true -> is_space c = false.
Proof. destruct (is_space c) eqn:E; [|done]. apply space_not_word in E. congruence. Qed.

Lemma scan_spaces_prev prev prev' s :
  scan (Rep 2 is_space) prev O s = scan (Rep 2 is_space) prev' O s.
Proof.
  destruct s as [|c s]; cbn [scan]; by rewrite !exec_Rep.
Qed.

Lemma squeeze_nil : squeeze [] = [].
Proof. done. Qed.

Lemma squeeze_keep c s :
  (run is_space (c :: s) < 2)%nat -> squeeze (c :: s) = c :: squeeze s.
Proof.
  intros Hrun. unfold squeeze, replace_g. rewrite scan_miss.
  - simpl. f_equal. by rewrite (scan_spaces_prev (Some c) None).
  - rewrite exec_Rep. destruct (Nat.leb_spec 2 (run is_space (c :: s))); [lia|done].
Qed.

Lemma squeeze_run s :
  (2 <= run is_space s)%nat ->
  squeeze s = str " " ++ squeeze (drop (run is_space s) s).
Proof.
  intros Hrun. unfold squeeze, replace_g.
  pose proof (run_le is_space s) as Hle.
  destruct (run is_space s) as [|n] eqn:E; [lia|].
  rewrite (scan_hit _ n); [|rewrite exec_Rep, E|lia].
  - cbn [flat_map]. f_equal. by rewrite (scan_spaces_prev _ None).
  - destruct (Nat.leb_spec 2 (S n)); [done|lia].
Qed.

Lemma squeeze_not_starting p s :
  p " "%char = false -> not_starting p s -> not_starting p (squeeze s).
Proof.
  intros Hp. destruct s as [|c s]; [done|]. intros Hc.
  destruct (Nat.leb_spec 2 (run is_space (c :: s))) as [Hrun|Hrun].
  - rewrite squeeze_run by done. simpl. done.
  - rewrite squeeze_keep by lia. done.
Qed.

Lemma squeeze_not_starting_space s :
  not_starting is_space s -> not_starting is_space (squeeze s).
Proof.
  destruct s as [|c s]; [done|]. intros Hc.
  rewrite squeeze_keep; [done|]. simpl in *. rewrite Hc. lia.
Qed.

Lemma squeeze_words_chars w rest :
  Forall (fun c => is_word c = true) w -> squeeze (w ++ rest) = w ++ squeeze rest.
Proof.
  induction 1 as [|c w Hc _ IH]; [done|].
  rewrite <- app_comm_cons, squeeze_keep; [by rewrite IH|].
  simpl. rewrite (word_not_space c Hc). lia.
Qed.

(** Squeezing white space leaves the words as they are. *)
Lemma words_squeeze s : words (squeeze s) = words s.
Proof.
  remember (length s) as n eqn:Hn. revert s Hn.
  induction n as [n IH] using lt_wf_ind. intros s Hn.
  destruct s as [|c s]; [done|].
  destruct (is_word c) eqn:Hc.
  - (* a word: squeezing passes it *)
    set (k := run is_word (c :: s)).
    assert (Hch : chunk (take k (c :: s)) (drop k (c :: s))).
    { repeat split.
      - unfold k. simpl. by rewrite Hc.
      - apply run_all.
      - pose proof (run_stop is_word (c :: s)) as H. fold k in H.
        by destruct (drop k (c :: s)). }
    rewrite <- (take_drop k (c :: s)).
    rewrite squeeze_words_chars by apply Hch.
    rewrite !words_chunk; [f_equal|done|].
    + apply (IH (length (drop k (c :: s)))); [|done].
      rewrite Hn, length_drop. unfold k. simpl. rewrite Hc. lia.
    + destruct Hch as (? & ? & ?). repeat split; try done.
      by apply squeeze_not_starting.
  - destruct (Nat.leb_spec 2 (run is_space (c :: s))) as [Hrun|Hrun].
    + rewrite squeeze_run by done.
      rewrite (words_skip (str " ")) by by repeat constructor.
      transitivity (words (drop (run is_space (c :: s)) (c :: s))).
      * apply (IH (length (drop (run is_space (c :: s)) (c :: s)))); [|done].
        rewrite Hn, length_drop. cbn [length]. lia.
      * rewrite <- (words_skip (take (run is_space (c :: s)) (c :: s))).
        -- by rewrite take_drop.
        -- eapply Forall_impl; [apply run_all|]. apply space_not_word.
    + rewrite squeeze_keep by lia. rewrite !words_nonword by done.
      apply (IH (length s)); [simpl in Hn; lia|done].
Qed.

Lemma no_adjacent_cons c s :
  no_adjacent_spaces (c :: s)
  = negb (is_space c && is_word_at None || is_space c && negb (run is_space s =? 0)%nat)
    && no_adjacent_spaces s.
Proof. simpl. destruct s as [|d s]; simpl; [by rewrite andb_false_r|].
  destruct (is_space d); simpl; by rewrite ?andb_false_r, ?andb_true_r. Qed.

Lemma squeeze_no_adjacent s : no_adjacent_spaces (squeeze s) = true.
Proof.
  remember (length s) as n eqn:Hn. revert s Hn.
  induction n as [n IH] using lt_wf_ind. intros s Hn.
  destruct s as [|c s]; [done|].
  destruct (Nat.leb_spec 2 (run is_space (c :: s))) as [Hrun|Hrun].
  - rewrite squeeze_run by done.
    pose proof (run_stop is_space (c :: s)) as Hstop.
    pose proof (squeeze_not_starting_space _ Hstop) as Hns.
    change (str " " ++ ?x) with (" "%char :: x). rewrite no_adjacent_cons.
    rewrite (IH (length (drop (run is_space (c :: s)) (c :: s)))); [|rewrite Hn, length_drop; cbn [length]; lia|done].
    rewrite run_0 by done. done.
  - rewrite squeeze_keep by lia. rewrite no_adjacent_cons.
    rewrite (IH (length s)); [|simpl in Hn; lia|done].
    destruct (is_space c) eqn:Hc; [|done].
    assert (Hs : not_starting is_space s).
    { simpl in Hrun. rewrite Hc in Hrun. destruct s as [|d s]; [done|].
      simpl in *. destruct (is_space d); [lia|done]. }
    rewrite run_0; [done|]. by apply squeeze_not_starting_space.
Qed.

Lemma no_adjacent_squeeze s : no_adjacent_spaces s = true -> squeeze s = s.
Proof.
  induction s as [|c s IH]; [done|]. rewrite no_adjacent_cons.
  intros [H1 H2]%andb_prop. rewrite squeeze_keep; [by rewrite IH|].
  simpl. destruct (is_space c); [|lia]. simpl in H1.
  destruct (run is_space s); [lia|done].
Qed.

Lemma no_adjacent_suffix a s :
  no_adjacent_spaces (a ++ s) = true -> no_adjacent_spaces s = true.
Proof.
  induction a as [|c a IH]; [done|]. rewrite <- app_comm_cons, no_adjacent_cons.
  intros [_ H]%andb_prop. by apply IH.
Qed.

Lemma run_prefix p a s : (run p a <= run p (a ++ s))%nat.
Proof. induction a as [|c a IH]; simpl; [lia|]. destruct (p c); lia. Qed.

Lemma no_adjacent_prefix a s :
  no_adjacent_spaces (a ++ s) = true -> no_adjacent_spaces a = true.
Proof.
  induction a as [|c a IH]; [done|]. rewrite <- app_comm_cons, !no_adjacent_cons.
  intros [H1 H2]%andb_prop. rewrite (IH H2), andb_true_r.
  destruct (is_space c); [|done]. simpl in *.
  pose proof (run_prefix is_space a s).
  destruct (run is_space (a ++ s)); [|done]. by replace (run is_space a) with 0%nat by lia.
Qed.

(** What [trimStart] and [trimEnd] take away. *)
Lemma trimStart_split s :
  exists sp, s = sp ++ trimStart s /\ Forall (fun c => is_space c = true) sp.
Proof.
  induction s as [|c s (sp & IH & Hsp)]; [by exists []|]. simpl.
  destruct (is_space c) eqn:Hc.
  - exists (c :: sp). split; [by rewrite <- app_comm_cons, <- IH|by constructor].
  - by exists [].
Qed.

Lemma trimStart_not_starting s : not_starting is_space (trimStart s).
Proof.
  induction s as [|c s IH]; [done|]. simpl. destruct (is_space c) eqn:Hc; done.
Qed.

Lemma trimStart_fixed s : not_starting is_space s -> trimStart s = s.
Proof. destruct s as [|c s]; [done|]. simpl. by intros ->. Qed.

Lemma trimEnd_split s :
  exists sp, s = trimEnd s ++ sp /\ Forall (fun c => is_space c = true) sp.
Proof.
  destruct (trimStart_split (rev s)) as (sp & E & Hsp).
  exists (rev sp). split.
  - unfold trimEnd. rewrite <- rev_app_distr, <- E. by rewrite rev_involutive.
  - apply Forall_forall. intros c Hc. rewrite Forall_forall in Hsp. apply Hsp.
    apply list_elem_of_In. apply list_elem_of_In in Hc. by apply in_rev.
Qed.

Lemma trimEnd_idem s : trimEnd (trimEnd s) = trimEnd s.
Proof.
  unfold trimEnd. rewrite rev_involutive.
  by rewrite (trimStart_fixed _ (trimStart_not_starting _)).
Qed.

Lemma trimEnd_not_starting s :
  not_starting is_space s -> not_starting is_space (trimEnd s).
Proof.
  intros Hs. destruct (trimEnd_split s) as (sp & E & Hsp).
  destruct (trimEnd s) as [|c t]; [done|].
  rewrite E in Hs. done.
Qed.

Lemma trim_idem s : trim (trim s) = trim s.
Proof.
  unfold trim.
  rewrite (trimStart_fixed (trimEnd (trimStart s)))
    by (apply trimEnd_not_starting, trimStart_not_starting).
  apply trimEnd_idem.
Qed.

Lemma words_trim s : words (trim s) = words s.
Proof.
  unfold trim.
  destruct (trimEnd_split (trimStart s)) as (sp & E & Hsp).
  destruct (trimStart_split s) as (sp' & E' & Hsp').
  rewrite E' at 2. rewrite words_skip
    by (eapply Forall_impl; [exact Hsp'|apply space_not_word]).
  rewrite E at 2. rewrite words_trailing; [done|].
  eapply Forall_impl; [exact Hsp|apply space_not_word].
Qed.

Lemma no_adjacent_trim s :
  no_adjacent_spaces s = true -> no_adjacent_spaces (trim s) = true.
Proof.
  intros H. unfold trim.
  destruct (trimEnd_split (trimStart s)) as (sp & E & Hsp).
  destruct (trimStart_split s) as (sp' & E' & Hsp').
  rewrite E' in H. apply no_adjacent_suffix in H.
  rewrite E in H. by apply no_adjacent_prefix in H.
Qed.

End SpaceFacts.

(** C7. The concise style is idempotent: applied to its own result it
    returns that result. *)
Theorem concise_idempotent (text : Js.jstr) :
  TransformWorker.concise (TransformWorker.concise text)
  = TransformWorker.concise text.
Proof.
  assert (Hfs : Forall Aux.wordy TransformWorker.fillers).
  { repeat constructor; done. }
  set (t3 := TransformWorker.concise text).
  assert (Hwords : Forall (fun w => forallb (fun f => negb (Aux.same_ic f w))
                                      TransformWorker.fillers = true)
                     (Aux.words t3)).
  { unfold t3, TransformWorker.concise.
    rewrite words_trim. fold (Aux.squeeze (fold_left
      (fun result filler => Js.replace_g (Js.word_re_i filler) [] result)
      TransformWorker.fillers text)).
    rewrite words_squeeze, words_del_all by done.
    apply Forall_forall. intros w Hw. apply list_elem_of_In, filter_In in Hw.
    apply Hw. }
  assert (Hadj : Aux.no_adjacent_spaces t3 = true).
  { unfold t3, TransformWorker.concise. apply no_adjacent_trim.
    apply squeeze_no_adjacent. }
  assert (Htrim : Js.trim t3 = t3).
  { unfold t3, TransformWorker.concise. apply trim_idem. }
  unfold TransformWorker.concise at 1. fold t3.
  rewrite del_all_absent by done.
  fold (Aux.squeeze t3). rewrite no_adjacent_squeeze by done.
  exact Htrim.
Qed.
(** ** Keys of several words *)

Section PhraseFacts.
Import Js Aux.
Implicit Types (s w f x u v from to rest : jstr) (prev : option ascii).

Lemma prefix_by_app_le eq f a s :
  (length f <= length a)%nat -> prefix_by eq f (a ++ s) = prefix_by eq f a.
Proof.
  revert a. induction f as [|c f IH]; intros [|b a]; simpl; try done; try lia.
  intros H. by rewrite IH by lia.
Qed.

Lemma prefix_by_split eq f a s :
  (length a <= length f)%nat ->
  prefix_by eq f (a ++ s)
  = prefix_by eq (take (length a) f) a && prefix_by eq (drop (length a) f) s.
Proof.
  revert f. induction a as [|b a IH]; intros f H.
  - by rewrite take_0, drop_0.
  - destruct f as [|c f]; simpl in *; [lia|]. rewrite IH by lia.
    by rewrite andb_assoc.
Qed.

Lemma same_words a b :
  length a = length b -> prefix_by eqi a b = true ->
  Forall (fun c => is_word c = true) b -> Forall (fun c => is_word c = true) a.
Proof.
  revert b. induction a as [|c a IH]; intros [|d b]; simpl; try done.
  intros [= Hlen] [H1 H2]%andb_prop [Hd Hb]%Forall_cons.
  constructor; [|by eapply IH]. by rewrite <- (eqi_word _ _ H1).
Qed.

Lemma same_last a b :
  a <> [] -> length a = length b -> prefix_by eqi a b = true ->
  is_word_at (last b) = is_word_at (last a).
Proof.
  intros Hne Hlen Hpre.
  pose proof (prefix_by_last a b None Hne Hpre) as H.
  rewrite Hlen, firstn_all in H. unfold last_or in H.
  destruct (last b) eqn:E; [done|]. apply last_None in E. subst b.
  by destruct a.
Qed.

Lemma last_drop {A} (l : list A) (i : nat) :
  (i < length l)%nat -> last (drop i l) = last l.
Proof.
  revert i. induction l as [|a l IH]; intros i Hi; simpl in *; [lia|].
  destruct i as [|i]; [done|]. simpl. rewrite IH by lia.
  destruct l; simpl in *; [lia|done].
Qed.

(** A word between a text that does not end in a word character and one
    that does not begin with one is a word of the whole. *)
Lemma words_between x w rest :
  not_ending_word x -> chunk w rest -> w ∈ words (x ++ w ++ rest).
Proof.
  intros Hx Hch. revert Hx.
  induction x as [|c s Hc IH|y r Hy IH] using chunk_ind; intros Hx.
  - rewrite app_nil_l, words_chunk by done. by left.
  - rewrite <- app_comm_cons, words_nonword by done. apply IH.
    unfold not_ending_word in *. rewrite last_cons in Hx. by destruct (last s).
  - pose proof Hy as (Hyne & Hyw & Hr).
    destruct r as [|c r].
    { exfalso. unfold not_ending_word in Hx. rewrite app_nil_r in Hx.
      pose proof (last_word y None Hyne Hyw) as Hl. unfold last_or in Hl.
      destruct (last y); simpl in *; congruence. }
    rewrite <- app_assoc.
    rewrite (words_chunk y ((c :: r) ++ w ++ rest)) by done.
    right. apply IH. unfold not_ending_word in *. rewrite last_app in Hx.
    by destruct (last (c :: r)) eqn:E; [|apply last_None in E].
Qed.

(** A scan of a text whose matches cannot reach into what follows it. *)
Lemma scan_sealed (r : regex) x y :
  (forall prev, exec r prev [] = None) ->
  (forall prev s n, exec r prev s = Some n -> (n <= length s)%nat) ->
  (forall i prev, (i < length x)%nat ->
     exec r prev (drop i x ++ y) = exec r prev (drop i x)) ->
  forall prev n, (n <= length x)%nat ->
  scan r prev n (x ++ y) = scan r prev n x ++ scan r (last_or prev x) O y.
Proof.
  intros Hnil Hlen. induction x as [|c x IH]; intros Hseal prev n Hn.
  - simpl in Hn. replace n with O by lia. cbn [scan app]. by rewrite Hnil.
  - assert (Hseal' : forall i prev, (i < length x)%nat ->
              exec r prev (drop i x ++ y) = exec r prev (drop i x)).
    { intros i p Hi. apply (Hseal (S i) p). simpl. lia. }
    rewrite last_or_cons. destruct n as [|n].
    + pose proof (Hseal O prev ltac:(simpl; lia)) as H0. rewrite !drop_0 in H0.
      rewrite <- app_comm_cons. cbn [scan].
      change (c :: x ++ y) with ((c :: x) ++ y). rewrite H0.
      destruct (exec r prev (c :: x)) as [[|k]|] eqn:E.
      * rewrite IH by (done || lia). done.
      * apply Hlen in E. rewrite take_app_le by done.
        rewrite IH by (done || simpl in E; lia). done.
      * rewrite IH by (done || lia). done.
    + rewrite <- app_comm_cons. cbn [scan]. apply IH; [done|simpl in Hn; lia].
Qed.

Section Edged.
Variables (f to : jstr).
Hypothesis Hf : edged f.

Lemma edged_cons : exists a f', f = a :: f' /\ is_word a = true.
Proof. destruct Hf as [Hh _]. destruct f as [|a f']; [done|]. by exists a, f'. Qed.

Lemma exec_edged_nil prev : exec (word_re_i f) prev [] = None.
Proof.
  rewrite exec_edged by done. destruct edged_cons as (a & f' & -> & _).
  simpl. by rewrite andb_false_r.
Qed.

Lemma exec_edged_at_nonword prev c s :
  is_word c = false -> exec (word_re_i f) prev (c :: s) = None.
Proof.
  intros Hc. rewrite exec_edged by done.
  destruct edged_cons as (a & f' & -> & Ha). simpl.
  destruct (eqi c a) eqn:E; [|by rewrite andb_false_r].
  apply eqi_word in E. congruence.
Qed.

Lemma scan_edged_nil prev n : scan (word_re_i f) prev n [] = [].
Proof. cbn [scan]. rewrite exec_edged_nil. by destruct n. Qed.

Lemma scan_edged_fresh prev rest :
  not_starting is_word rest ->
  scan (word_re_i f) prev O rest = scan (word_re_i f) None O rest.
Proof.
  destruct rest as [|c s]; intros Hc; [by rewrite !scan_edged_nil|].
  by rewrite !scan_miss by by apply exec_edged_at_nonword.
Qed.

(** A match does not end in front of a character that is no word
    character and is the last one. *)
Lemma exec_closed prev x c :
  is_word c = false ->
  exec (word_re_i f) prev (x ++ [c]) = exec (word_re_i f) prev x.
Proof.
  intros Hc. rewrite !exec_edged by done.
  destruct edged_cons as (a & f' & Ef & _).
  assert (Hne : f <> []) by (by rewrite Ef).
  destruct (le_lt_dec (length f) (length x)) as [Hle|Hgt].
  - rewrite prefix_by_app_le by done.
    destruct (prefix_by eqi f x) eqn:Hpre; [|by rewrite !andb_false_r].
    rewrite drop_app_le by done.
    destruct (drop (length f) x) as [|d l] eqn:Ed; [|done].
    simpl. by rewrite Hc.
  - assert (H0 : prefix_by eqi f x = false).
    { destruct (prefix_by eqi f x) eqn:E; [|done].
      apply prefix_by_length in E. lia. }
    rewrite H0, andb_false_r. simpl.
    destruct (prefix_by eqi f (x ++ [c])) eqn:Hpre; [|by rewrite andb_false_r].
    exfalso. pose proof (prefix_by_length _ _ _ Hpre) as Hl.
    rewrite length_app in Hl. simpl in Hl.
    pose proof (prefix_by_last f (x ++ [c]) prev Hne Hpre) as Hlast.
    rewrite take_ge in Hlast by (rewrite length_app; simpl; lia).
    rewrite last_or_app in Hlast. unfold last_or at 1 in Hlast. simpl in Hlast.
    destruct Hf as [_ Hl']. congruence.
Qed.

(** No match covers a word that is none of the words of the key. *)
Lemma exec_clear prev x w v :
  clear_of f w = true -> not_ending_word x -> chunk w v ->
  exec (word_re_i f) prev (x ++ w ++ v) = exec (word_re_i f) prev x.
Proof.
  intros Hclear Hx (Hwne & Hw & Hv). rewrite !exec_edged by done.
  destruct edged_cons as (a & f' & Ef & _).
  assert (Hne : f <> []) by (by rewrite Ef).
  destruct (le_lt_dec (length f) (length x)) as [Hle|Hgt].
  - rewrite prefix_by_app_le by done.
    destruct (prefix_by eqi f x) eqn:Hpre; [|by rewrite !andb_false_r].
    destruct (decide (length f = length x)) as [Heq|Hneq].
    + exfalso. pose proof (same_last f x Hne Heq Hpre) as Hl.
      destruct Hf as [_ Hl']. unfold not_ending_word in Hx. congruence.
    + rewrite drop_app_le by done.
      destruct (drop (length f) x) as [|d l] eqn:Ed; [|done].
      apply (f_equal length) in Ed. rewrite length_drop in Ed. simpl in Ed. lia.
  - assert (H0 : prefix_by eqi f x = false).
    { destruct (prefix_by eqi f x) eqn:E; [|done].
      apply prefix_by_length in E. lia. }
    rewrite H0, andb_false_r. simpl.
    destruct (prefix_by eqi f (x ++ w ++ v)) eqn:Hpre; [|by rewrite andb_false_r].
    rewrite andb_true_r.
    destruct (negb (is_word_at prev)); [|done]. simpl.
    rewrite drop_app_ge by lia.
    destruct (le_lt_dec (length w) (length f - length x)) as [Hcover|Hinside].
    + (* the match covers [w]: it is a word of the key *)
      exfalso.
      rewrite prefix_by_split in Hpre by lia.
      apply andb_prop in Hpre as [Hfx Hrest].
      rewrite prefix_by_split in Hrest by (rewrite length_drop; lia).
      apply andb_prop in Hrest as [Hfw Hfr].
      set (fx := take (length x) f) in *.
      set (fw := take (length w) (drop (length x) f)) in *.
      set (fr := drop (length w) (drop (length x) f)) in *.
      assert (Hsplit : f = fx ++ fw ++ fr).
      { unfold fx, fw, fr. by rewrite !take_drop. }
      assert (Hlx : length fx = length x).
      { unfold fx. rewrite length_take. lia. }
      assert (Hlw : length fw = length w).
      { unfold fw. rewrite length_take, length_drop. lia. }
      assert (Hin : fw ∈ words f).
      { rewrite Hsplit. apply words_between.
        - destruct (decide (fx = [])) as [->|Hfxne]; [done|].
          unfold not_ending_word.
          by rewrite <- (same_last fx x Hfxne Hlx Hfx).
        - repeat split.
          + intros E. rewrite E in Hlw. by destruct w.
          + by apply (same_words fw w).
          + destruct fr as [|b fr']; [done|]. simpl.
            destruct v as [|d v']; [done|]. simpl in Hfr, Hv.
            apply andb_prop in Hfr as [Hb _]. apply eqi_word in Hb. congruence. }
      unfold clear_of in Hclear. rewrite forallb_forall in Hclear.
      apply list_elem_of_In, Hclear in Hin.
      unfold same_ic in Hin. by rewrite Hlw, Nat.eqb_refl, Hfw in Hin.
    + (* the match ends inside [w] *)
      rewrite drop_app_le by lia.
      destruct (drop (length f - length x) w) as [|d l] eqn:Ed.
      { apply (f_equal length) in Ed. rewrite length_drop in Ed. simpl in Ed. lia. }
      assert (Hd : d ∈ w).
      { rewrite <- (take_drop (length f - length x) w), Ed.
        apply elem_of_app. right. by left. }
      rewrite Forall_forall in Hw. simpl. by rewrite (Hw d Hd).
Qed.

Lemma emit_app' ps qs : emit to (ps ++ qs) = emit to ps ++ emit to qs.
Proof. unfold emit. by rewrite flat_map_app. Qed.

(** The replacement keeps a text that does not end in a word character
    such, and one that does not begin with one too. *)
Lemma replace_closed u :
  not_ending_word u -> not_ending_word (replace_g (word_re_i f) to u).
Proof.
  intros Hu. destruct (last u) as [c|] eqn:E.
  - apply last_Some in E as [u0 ->].
    assert (Hc : is_word c = false).
    { unfold not_ending_word in Hu. by rewrite last_snoc in Hu. }
    rewrite replace_g_emit, scan_sealed.
    + rewrite scan_miss by by apply exec_edged_at_nonword.
      rewrite scan_edged_nil, emit_app'. unfold not_ending_word.
      cbn [emit flat_map]. by rewrite app_nil_r, last_snoc.
    + apply exec_edged_nil.
    + intros p s n Hn. by apply exec_edged_length in Hn as [_ [_ ?]].
    + intros i p _. by apply exec_closed.
    + lia.
  - apply last_None in E. subst u. by rewrite replace_g_emit, scan_edged_nil.
Qed.

Lemma replace_open v :
  not_starting is_word v -> not_starting is_word (replace_g (word_re_i f) to v).
Proof.
  destruct v as [|c v]; intros Hc.
  - by rewrite replace_g_emit, scan_edged_nil.
  - rewrite replace_g_emit, scan_miss by by apply exec_edged_at_nonword. done.
Qed.

(** A word that is none of the words of the key stays, and the texts on
    its two sides are rewritten each on its own. *)
Lemma replace_clear_between u w v :
  clear_of f w = true -> not_ending_word u -> chunk w v ->
  replace_g (word_re_i f) to (u ++ w ++ v)
  = replace_g (word_re_i f) to u ++ w ++ replace_g (word_re_i f) to v.
Proof.
  intros Hclear Hu Hch. pose proof Hch as (Hwne & Hw & Hv).
  rewrite !replace_g_emit, scan_sealed.
  - rewrite emit_app'. f_equal.
    assert (Hp : is_word_at (last_or None u) = false).
    { unfold last_or. unfold not_ending_word in Hu. by destruct (last u). }
    destruct w as [|c w]; [done|]. apply Forall_cons in Hw as [Hc Hw].
    pose proof (exec_clear (last_or None u) [] (c :: w) v Hclear
                  ltac:(done) Hch) as He.
    rewrite app_nil_l, exec_edged_nil in He.
    rewrite <- app_comm_cons, scan_miss by done.
    rewrite scan_inside by done.
    cbn [emit flat_map]. simpl app. f_equal.
    fold (emit to ((Keep <$> w)
                   ++ scan (word_re_i f) (last_or (Some c) w) O v)).
    rewrite emit_app', emit_Keep. f_equal.
    by rewrite scan_edged_fresh.
  - apply exec_edged_nil.
  - intros p s n Hn. by apply exec_edged_length in Hn as [_ [_ ?]].
  - intros i p Hi. apply exec_clear; [done| |done].
    unfold not_ending_word in *. by rewrite last_drop.
  - lia.
Qed.

End Edged.

(** The entries of a lexicon that has no key with the word [w] leave the
    word where it is. *)
Lemma swap_all_between (lexicon : list (jstr * jstr)) u w v :
  Forall (apart_from w) lexicon -> not_ending_word u -> chunk w v ->
  swap_all lexicon (u ++ w ++ v) = swap_all lexicon u ++ w ++ swap_all lexicon v.
Proof.
  intros Hall. revert u v.
  induction Hall as [|[from to] lexicon [He Hc] _ IH]; intros u v Hu Hch; [done|].
  cbn [swap_all fold_left fst snd] in *.
  rewrite (replace_clear_between from to He u w v Hc Hu Hch).
  apply IH.
  - by apply replace_closed.
  - destruct Hch as (Hne & Hw & Hv). repeat split; try done.
    by apply replace_open.
Qed.

End PhraseFacts.

Section FormalFacts.
Import Js Aux TransformWorker.
Implicit Types (u v hi text tone : jstr) (entries : list (jstr * jstr)).

Lemma formal_tone_text text tone :
  toLowerCase tone = str "formal" ->
  fst (applyToneTransform text tone) = swap_all formal text.
Proof. intros H. apply applyToneTransform_text. by rewrite H. Qed.

(** The entries of the formal table after the first, whatever line 65
    defines. *)
Lemma formal_with_tail entries w :
  clear_of (str "hey") w = true -> clear_of (str "yeah") w = true ->
  clear_of (str "nope") w = true -> clear_of (str "gonna") w = true ->
  clear_of (str "wanna") w = true -> clear_of (str "kinda") w = true ->
  clear_of (str "really") w = true -> clear_of (str "pretty") w = true ->
  Forall (apart_from w) entries ->
  Forall (apart_from w) (tail (formal_with entries)).
Proof.
  intros H1 H2 H3 H4 H5 H6 H7 H8 Hline. unfold formal_with. cbn [app tail].
  repeat (constructor; [by split|]).
  apply Forall_app. split; [done|]. by repeat (constructor; [by split|]).
Qed.

Lemma formal_with_edged entries :
  Forall (fun e => edged (fst e)) entries ->
  Forall (fun e => edged (fst e)) (formal_with entries).
Proof.
  intros Hline. unfold formal_with. cbn [app].
  repeat (constructor; [done|]).
  apply Forall_app. split; [done|]. by repeat constructor.
Qed.

Lemma formal_with_hiking entries u v :
  Forall (apart_from (str "hiking")) entries ->
  not_ending_word u -> not_starting is_word v ->
  swap_all (formal_with entries) (u ++ str "hiking" ++ v)
  = swap_all (formal_with entries) u ++ str "hiking"
    ++ swap_all (formal_with entries) v.
Proof.
  intros Hline Hu Hv. apply swap_all_between; [|done|].
  - change (formal_with entries)
      with ((str "hi", str "greetings") :: tail (formal_with entries)).
    constructor; [by split|]. by apply formal_with_tail.
  - repeat split; [done|by repeat constructor|done].
Qed.

Lemma formal_with_hi entries u v hi :
  Forall (apart_from (str "greetings")) entries ->
  not_ending_word u -> not_starting is_word v ->
  same_ic (str "hi") hi = true ->
  swap_all (formal_with entries) (u ++ hi ++ v)
  = swap_all (formal_with entries) u ++ str "greetings"
    ++ swap_all (formal_with entries) v.
Proof.
  intros Hline Hu Hv Hhi.
  assert (Hwordy : wordy (str "hi")) by (split; [done|by repeat constructor]).
  assert (Hedged : edged (str "hi")) by done.
  assert (Hch : chunk hi v).
  { apply andb_prop in Hhi as [Hlen Hpre]. apply Nat.eqb_eq in Hlen.
    destruct hi as [|a [|b [|? ?]]]; try done.
    simpl in Hpre. apply andb_prop in Hpre as [Ha Hb'].
    apply andb_prop in Hb' as [Hb _]. apply eqi_word in Ha, Hb.
    repeat split; [done| |done]. repeat constructor; [by rewrite Ha|by rewrite Hb]. }
  change (formal_with entries)
    with ((str "hi", str "greetings") :: tail (formal_with entries)).
  cbn [swap_all fold_left fst snd].
  fold (swap_all (tail (formal_with entries))).
  rewrite replace_word_between by done.
  unfold sub. rewrite Hhi.
  apply swap_all_between.
  - by apply formal_with_tail.
  - by apply replace_closed.
  - repeat split; [done|by repeat constructor|by apply replace_open].
Qed.

End FormalFacts.

(** C6. With the tone [formal], in whatever case the name is written, the
    tone stage applies the entries of the formal table one after the other,
    [hi -> greetings] first, and each entry rewrites exactly the occurrences
    of its key that stand as a whole word or phrase, in whatever case,
    between characters that are no word characters; everything else is
    copied.  The word [hiking] comes out as it is, between what the stage
    makes of the text before it and of the text after it; a [hi] standing
    alone, however capitalised, comes out as [greetings].  Both hold
    whatever line 65 of the source is read to define, as long as its keys
    begin and end with a word character and have neither [hiking] nor
    [greetings] as one of their words.  Every other table is applied the
    same way, entry by entry on whole words. *)
Theorem tone_replaces_whole_words (tone text u v hi : Js.jstr) :
  Js.toLowerCase tone = Js.str "formal" ->
  Aux.not_ending_word u ->
  Aux.not_starting Js.is_word v ->
  Aux.same_ic (Js.str "hi") hi = true ->
  let formal_tone t := fst (TransformWorker.applyToneTransform t tone) in
  Spec.ToneRewritten TransformWorker.formal text (formal_tone text)
  /\ head TransformWorker.formal = Some (Js.str "hi", Js.str "greetings")
  /\ formal_tone (u ++ Js.str "hiking" ++ v)
     = formal_tone u ++ Js.str "hiking" ++ formal_tone v
  /\ formal_tone (u ++ hi ++ v)
     = formal_tone u ++ Js.str "greetings" ++ formal_tone v
  /\ (forall line65,
        Forall (Aux.apart_from (Js.str "hiking")) line65 ->
        Forall (Aux.apart_from (Js.str "greetings")) line65 ->
        let table := Aux.swap_all (TransformWorker.formal_with line65) in
        Spec.ToneRewritten (TransformWorker.formal_with line65) text (table text)
        /\ table (u ++ Js.str "hiking" ++ v)
           = table u ++ Js.str "hiking" ++ table v
        /\ table (u ++ hi ++ v) = table u ++ Js.str "greetings" ++ table v)
  /\ (forall name lexicon t,
        TransformWorker.TONE_LEXICONS (Js.toLowerCase name) = Some lexicon ->
        Spec.ToneRewritten lexicon t
          (fst (TransformWorker.applyToneTransform t name))).
Proof.
  intros Htone Hu Hv Hhi formal_tone.
  assert (Hgeneral : forall line65,
            Forall (Aux.apart_from (Js.str "hiking")) line65 ->
            Forall (Aux.apart_from (Js.str "greetings")) line65 ->
            let table := Aux.swap_all (TransformWorker.formal_with line65) in
            Spec.ToneRewritten (TransformWorker.formal_with line65) text
              (table text)
            /\ table (u ++ Js.str "hiking" ++ v)
               = table u ++ Js.str "hiking" ++ table v
            /\ table (u ++ hi ++ v)
               = table u ++ Js.str "greetings" ++ table v).
  { intros line65 Hhiking Hgreetings table. split; [|split].
    - apply swap_all_rewritten, formal_with_edged.
      eapply Forall_impl; [exact Hhiking|]. by intros e [He _].
    - by apply formal_with_hiking.
    - by apply formal_with_hi. }
  assert (Hline : forall w,
            Aux.clear_of (Js.str "a lot") w = true ->
            Forall (Aux.apart_from w) TransformWorker.line_65).
  { intros w Hw. by repeat (constructor; [by split|]). }
  destruct (Hgeneral TransformWorker.line_65
              (Hline (Js.str "hiking") eq_refl)
              (Hline (Js.str "greetings") eq_refl))
    as (H1 & H2 & H3).
  unfold formal_tone. rewrite !(formal_tone_text _ tone Htone).
  split; [exact H1|]. split; [done|]. split; [exact H2|]. split; [exact H3|].
  split; [exact Hgeneral|].
  intros name lexicon t Hlex.
  rewrite (applyToneTransform_text _ _ _ Hlex).
  apply swap_all_rewritten. by apply (lexicon_edged _ _ Hlex).
Qed.

(** The formal tone on the greeting of a hiker. *)
Lemma tone_replaces_whole_words_witness :
  let formal_tone t :=
    fst (TransformWorker.applyToneTransform t (Js.str "Formal")) in
  formal_tone (Js.str "Oh, hiking!") = Js.str "Oh, hiking!"
  /\ formal_tone (Js.str "Oh, HI!") = Js.str "Oh, greetings!"
  /\ Spec.ToneRewritten TransformWorker.formal
       (Js.str "Hi, I kinda love hiking")
       (Js.str "greetings, I kind of love hiking").
Proof.
  intros formal_tone.
  destruct (tone_replaces_whole_words (Js.str "Formal")
              (Js.str "Hi, I kinda love hiking")
              (Js.str "Oh, ") (Js.str "!") (Js.str "HI"))
    as (H1 & _ & H2 & H3 & _).
  - reflexivity.
  - reflexivity.
  - reflexivity.
  - reflexivity.
  - split; [exact H2|]. split; [exact H3|exact H1].
Defined.

(** ** Counting with patterns: pieces, runs and sentences *)

Section CountFacts.
Import Js Aux.
Implicit Types (s : jstr) (prev : option ascii) (p : ascii -> bool).

(** The pieces of a split on runs of white space. *)
Lemma split_pieces_spaces s :
  (forall cur prev,
     split_pieces cur (scan (Rep 1 is_space) prev O s) = Spec.pieces_from cur false s)
  /\ (forall prev,
       split_pieces [] (scan (Rep 1 is_space) prev (run is_space s) s)
       = Spec.pieces_from [] true s).
Proof.
  induction s as [|c s [IH1 IH2]].
  - split; intros; cbn [scan run]; by rewrite ?exec_Rep.
  - assert (H1 : forall cur prev,
      split_pieces cur (scan (Rep 1 is_space) prev O (c :: s))
      = Spec.pieces_from cur false (c :: s)).
    { intros cur prev. cbn [scan]. rewrite exec_Rep. simpl run.
      destruct (is_space c) eqn:Hc; simpl.
      - rewrite Hc. f_equal. apply IH2.
      - rewrite Hc. apply IH1. }
    split; [exact H1|]. intros prev. simpl run.
    destruct (is_space c) eqn:Hc.
    + cbn [scan]. simpl. rewrite Hc. apply IH2.
    + rewrite H1. simpl. by rewrite Hc.
Qed.

Lemma split_spaces s : split (Rep 1 is_space) s = Spec.pieces s.
Proof. apply split_pieces_spaces. Qed.

(** Deleting the characters of a class. *)
Lemma replace_class p s prev :
  emit [] (scan (Chr p) prev O s) = List.filter (fun c => negb (p c)) s.
Proof.
  unfold emit. revert prev. induction s as [|c s IH]; intros prev; cbn [scan].
  - by rewrite exec_Chr.
  - rewrite exec_Chr. destruct (p c) eqn:Hc; simpl; rewrite Hc; simpl; by rewrite IH.
Qed.

(** The matches of [p+] are the maximal runs of [p]. *)
Lemma hits_runs p s :
  (forall prev,
     Z.of_nat (length (hits (scan (Rep 1 p) prev O s))) = Spec.runs_from p false s)
  /\ (forall prev,
       Z.of_nat (length (hits (scan (Rep 1 p) prev (run p s) s)))
       = Spec.runs_from p true s).
Proof.
  induction s as [|c s [IH1 IH2]].
  - split; intros; cbn [scan run]; by rewrite ?exec_Rep.
  - assert (H1 : forall prev,
      Z.of_nat (length (hits (scan (Rep 1 p) prev O (c :: s))))
      = Spec.runs_from p false (c :: s)).
    { intros prev. cbn [scan]. rewrite exec_Rep. simpl run.
      destruct (p c) eqn:Hc; simpl.
      - rewrite Hc. rewrite <- (IH2 (Some c)). lia.
      - rewrite Hc. apply IH1. }
    split; [exact H1|]. intros prev. simpl run.
    destruct (p c) eqn:Hc.
    + cbn [scan]. simpl. rewrite Hc. rewrite <- (IH2 (Some c)). lia.
    + rewrite H1. simpl. by rewrite Hc.
Qed.

Lemma match_count p s :
  match match_g (Rep 1 p) s with
  | Some l => Z.of_nat (length l)
  | None => 1
  end = Z.max 1 (Spec.runs p s).
Proof.
  unfold match_g, Spec.runs. rewrite <- (proj1 (hits_runs p s) None).
  destruct (hits (scan (Rep 1 p) None O s)); simpl length; lia.
Qed.

(** Sentences: a match for every place where terminal punctuation follows
    other text. *)
Lemma ends_from_text b a rest :
  a <> [] -> Forall (fun c => nonterm c = true) a ->
  Spec.ends_from b (a ++ rest) = Spec.ends_from true rest.
Proof.
  intros Hne Ha. revert b. induction Ha as [|c a Hc _ IH]; intros b; [done|].
  simpl. apply negb_true_iff in Hc. rewrite Hc.
  destruct a as [|d a]; [done|]. by apply IH.
Qed.

Lemma ends_from_terminators b rest :
  Forall (fun c => is_terminator c = true) b ->
  Spec.ends_from false (b ++ rest) = Spec.ends_from false rest.
Proof. induction 1 as [|c b Hc _ IH]; [done|]. simpl. by rewrite Hc. Qed.

Lemma ends_from_end b rest :
  b <> [] -> Forall (fun c => is_terminator c = true) b ->
  Spec.ends_from true (b ++ rest) = 1 + Spec.ends_from false rest.
Proof.
  intros Hne Hb. destruct Hb as [|c b Hc Hb]; [done|]. simpl. rewrite Hc.
  by rewrite ends_from_terminators.
Qed.

Lemma ends_from_none b s :
  Forall (fun c => nonterm c = true) s -> Spec.ends_from b s = 0.
Proof.
  intros Hs. revert b. induction Hs as [|c s Hc _ IH]; intros b; [done|].
  simpl. apply negb_true_iff in Hc. by rewrite Hc.
Qed.

Lemma sentence_count s prev :
  Z.of_nat (length (hits (scan TransformWorker.sentence_re prev O s)))
  = Spec.ends_from false s.
Proof.
  remember (length s) as n eqn:Hn. revert s Hn prev.
  induction n as [n IH] using lt_wf_ind. intros s Hn prev.
  destruct s as [|c s]; [by rewrite scan_sentence_nil|].
  destruct (exec TransformWorker.sentence_re prev (c :: s)) as [k|] eqn:E.
  - pose proof (exec_sentence_shaped _ _ _ E) as Hsh.
    pose proof (exec_sentence_end _ _ _ E) as [Hk Hrest].
    assert (Hs : c :: s = take k (c :: s) ++ drop k (c :: s)) by by rewrite take_drop.
    rewrite Hs at 1. rewrite scan_sentence by done.
    rewrite hits_Hit. cbn [length].
    rewrite Nat2Z.inj_succ, (IH (length (drop k (c :: s)))); [| |done].
    + rewrite Hs at 2. destruct Hsh as (a & b & -> & Ha & Hna & Hb & Hnb).
      rewrite <- app_assoc, ends_from_text, ends_from_end by done. lia.
    + rewrite Hn, length_drop. lia.
  - rewrite scan_miss, hits_Keep by done.
    rewrite (IH (length s)); [|simpl in Hn; lia|done].
    rewrite exec_sentence in E. simpl run in E. simpl.
    destruct (is_terminator c) eqn:Hc; simpl in E; [done|].
    (* a run of text that no terminator follows: it reaches the end *)
    pose proof (run_stop is_terminator (drop (S (run nonterm s)) (c :: s))) as Hstop.
    pose proof (run_stop nonterm (c :: s)) as Hstop'. simpl run in Hstop'.
    rewrite Hc in Hstop'. simpl negb in Hstop'. cbv iota in Hstop'.
    destruct (drop (S (run nonterm s)) (c :: s)) as [|d l] eqn:Ed.
    + assert (Hall : Forall (fun c => nonterm c = true) s).
      { pose proof (run_all nonterm s) as H. simpl in Ed.
        pose proof (run_le nonterm s).
        rewrite take_ge in H; [done|].
        apply (f_equal length) in Ed. rewrite length_drop in Ed. simpl in Ed. lia. }
      by rewrite !ends_from_none.
    + apply negb_false_iff in Hstop'. simpl in Ed. rewrite Ed in E.
      simpl in E. rewrite Hstop' in E. done.
Qed.



Lemma total_ext (f g : jstr -> Z) (l : list jstr) :
  (forall w, f w = g w) -> Spec.total f l = Spec.total g l.
Proof. intros H. induction l as [|w l IH]; simpl; [done|]. by rewrite H, IH. Qed.

Lemma countSyllables_short word :
  NlpWorker.countSyllables word = Spec.syllables_short word.
Proof.
  unfold NlpWorker.countSyllables, Spec.syllables_short, Spec.heuristic.
  assert (Hl : replace_g NlpWorker.nonletter_re [] (toLowerCase word)
               = Spec.letters word).
  { rewrite replace_g_emit. unfold NlpWorker.nonletter_re.
    rewrite replace_class. unfold Spec.letters.
    induction (toLowerCase word) as [|c l IH]; [done|]. simpl.
    rewrite negb_involutive. destruct (is_lower c); by rewrite IH. }
  rewrite Hl. destruct (length (Spec.letters word) <=? 3)%nat; [done|].
  unfold NlpWorker.vowels_re. by rewrite match_count.
Qed.

End CountFacts.


(** ** Keyword extraction *)

Section KeywordFacts.
Import Js Aux.
Implicit Types (l ks : list jstr) (w k : jstr).

Lemma filter_ext_bool {A} (p q : A -> bool) (l : list A) :
  (forall x, p x = q x) -> List.filter p l = List.filter q l.
Proof. intros H. induction l as [|x l IH]; simpl; [done|]. by rewrite H, IH. Qed.

Lemma filter_map_bool {A B} (g : A -> B) (p : B -> bool) (l : list A) :
  List.filter p (map g l) = map g (List.filter (fun x => p (g x)) l).
Proof.
  induction l as [|x l IH]; simpl; [done|]. destruct (p (g x)); simpl; by rewrite IH.
Qed.

(** The tokens of the code are the tokens of the specification. *)
Lemma keyword_tokens_spec text : NlpWorker.keyword_tokens text = Spec.tokens text.
Proof.
  unfold NlpWorker.keyword_tokens, Spec.tokens.
  change NlpWorker.spaces_re with (Rep 1 is_space). rewrite split_spaces.
  rewrite replace_g_emit. unfold NlpWorker.punct_re. rewrite replace_class.
  do 2 f_equal. apply filter_ext_bool. intros c. apply negb_involutive.
Qed.

Lemma elem_of_filter_bool {A} (p : A -> bool) (l : list A) (x : A) :
  x ∈ List.filter p l <-> x ∈ l /\ p x = true.
Proof. rewrite !list_elem_of_In. apply filter_In. Qed.

Lemma elem_of_firsts l w : w ∈ Spec.firsts l <-> w ∈ l.
Proof.
  induction l as [|x l IH]; simpl; [done|].
  rewrite !elem_of_cons, elem_of_filter_bool, IH.
  destruct (decide (w = x)) as [->|Hne]; [by split; left|].
  rewrite bool_decide_eq_false_2 by done. simpl. tauto.
Qed.

Lemma NoDup_filter_bool {A} (p : A -> bool) (l : list A) :
  NoDup l -> NoDup (List.filter p l).
Proof.
  induction 1 as [|x l Hx _ IH]; simpl; [constructor|].
  destruct (p x); [|done]. constructor; [|done].
  rewrite elem_of_filter_bool. tauto.
Qed.

Lemma NoDup_firsts l : NoDup (Spec.firsts l).
Proof.
  induction l as [|x l IH]; simpl; constructor.
  - rewrite elem_of_filter_bool. intros [_ H]. by rewrite bool_decide_eq_true_2 in H.
  - by apply NoDup_filter_bool.
Qed.

Lemma firsts_snoc l w :
  Spec.firsts (l ++ [w])
  = if bool_decide (w ∈ l) then Spec.firsts l else Spec.firsts l ++ [w].
Proof.
  induction l as [|x l IH]; [done|]. simpl. rewrite IH.
  destruct (decide (w ∈ l)) as [Hin|Hnin].
  - rewrite !bool_decide_eq_true_2; [done|by right|done].
  - rewrite (bool_decide_eq_false_2 (w ∈ l)) by done.
    rewrite List.filter_app. simpl.
    destruct (decide (w = x)) as [->|Hne].
    + rewrite !bool_decide_eq_true_2 by (done || by left). simpl. by rewrite app_nil_r.
    + rewrite (bool_decide_eq_false_2 (w = x)) by done. simpl.
      rewrite bool_decide_eq_false_2; [done|].
      rewrite elem_of_cons. tauto.
Qed.

Lemma occurrences_snoc l w k :
  Spec.occurrences (l ++ [w]) k
  = Spec.occurrences l k + (if bool_decide (w = k) then 1 else 0).
Proof.
  unfold Spec.occurrences. rewrite List.filter_app, length_app. simpl.
  destruct (bool_decide (w = k)); simpl; lia.
Qed.

Lemma occurrences_absent l k : k ∉ l -> Spec.occurrences l k = 0.
Proof.
  unfold Spec.occurrences. induction l as [|x l IH]; intros Hk; [done|]. simpl.
  rewrite not_elem_of_cons in Hk. destruct Hk as [Hne Hk].
  rewrite bool_decide_eq_false_2 by done. by apply IH.
Qed.

(** One more count for a key the table has. *)
Lemma bump_present (c : jstr -> Z) ks w :
  NoDup ks -> w ∈ ks ->
  bump w (map (fun k => (k, c k)) ks)
  = map (fun k => (k, c k + (if bool_decide (w = k) then 1 else 0))) ks.
Proof.
  induction 1 as [|x ks Hx Hnd IH]; intros Hw; [by apply elem_of_nil in Hw|].
  simpl. destruct (decide (w = x)) as [->|Hne].
  - rewrite !bool_decide_eq_true_2 by done. f_equal.
    apply map_ext_in. intros k Hk. apply list_elem_of_In in Hk.
    rewrite bool_decide_eq_false_2; [by rewrite Z.add_0_r|]. by intros <-.
  - rewrite !(bool_decide_eq_false_2 (w = x)) by done. rewrite Z.add_0_r. f_equal.
    apply IH. apply elem_of_cons in Hw as [?|?]; done.
Qed.

(** A first count for a key the table does not have. *)
Lemma bump_absent (c : jstr -> Z) ks w :
  w ∉ ks ->
  bump w (map (fun k => (k, c k)) ks) = map (fun k => (k, c k)) ks ++ [(w, 1)].
Proof.
  induction ks as [|x ks IH]; intros Hw; [done|].
  rewrite not_elem_of_cons in Hw. destruct Hw as [Hne Hw].
  simpl. rewrite bool_decide_eq_false_2 by done. by rewrite IH.
Qed.

(** The table after counting: the distinct tokens in the order of their
    first occurrence, each with the number of its occurrences. *)
Lemma tally l :
  fold_left (fun freq word => bump word freq) l []
  = map (fun k => (k, Spec.occurrences l k)) (Spec.firsts l).
Proof.
  induction l as [|w l IH] using rev_ind; [done|].
  rewrite fold_left_app. simpl. rewrite IH, firsts_snoc.
  destruct (decide (w ∈ l)) as [Hin|Hnin].
  - rewrite bool_decide_eq_true_2 by done.
    rewrite bump_present; [|apply NoDup_firsts|by apply elem_of_firsts].
    apply map_ext. intros k. by rewrite occurrences_snoc.
  - rewrite bool_decide_eq_false_2 by done.
    rewrite bump_absent by by rewrite elem_of_firsts.
    rewrite map_app. simpl. f_equal.
    + apply map_ext_in. intros k Hk. apply list_elem_of_In in Hk.
      apply (proj1 (elem_of_firsts _ _)) in Hk.
      rewrite occurrences_snoc, bool_decide_eq_false_2; [by rewrite Z.add_0_r|].
      by intros <-.
    + rewrite occurrences_snoc, occurrences_absent, bool_decide_eq_true_2 by done.
      done.
Qed.

Lemma insert_by_map {A B} (g : A -> B) (cmpA : A -> A -> Z) (cmpB : B -> B -> Z)
    (x : A) (l : list A) :
  (forall a b, cmpB (g a) (g b) = cmpA a b) ->
  insert_by cmpB (g x) (map g l) = map g (insert_by cmpA x l).
Proof.
  intros H. induction l as [|y l IH]; simpl; [done|].
  rewrite H. destruct (cmpA x y <=? 0); simpl; [done|]. by rewrite IH.
Qed.

Lemma sort_by_map {A B} (g : A -> B) (cmpA : A -> A -> Z) (cmpB : B -> B -> Z)
    (l : list A) :
  (forall a b, cmpB (g a) (g b) = cmpA a b) ->
  sort_by cmpB (map g l) = map g (sort_by cmpA l).
Proof.
  intros H. unfold sort_by. induction l as [|x l IH]; simpl; [done|].
  by rewrite IH, (insert_by_map g cmpA cmpB).
Qed.

Lemma entries_counted (c : jstr -> Z) ks :
  entries (map (fun k => (k, c k)) ks) = map (fun k => (k, c k)) (Spec.enumeration ks).
Proof.
  unfold entries, Spec.enumeration. rewrite !filter_map_bool, map_app. simpl.
  f_equal. by apply sort_by_map.
Qed.

Lemma filter_partition {A} (p : A -> bool) (l : list A) :
  List.filter p l ++ List.filter (fun x => negb (p x)) l ≡ₚ l.
Proof.
  induction l as [|x l IH]; simpl; [done|]. destruct (p x); simpl.
  - by rewrite IH.
  - by rewrite <- Permutation_middle, IH.
Qed.

Lemma enumeration_perm ks : Spec.enumeration ks ≡ₚ ks.
Proof. unfold Spec.enumeration. rewrite sort_by_perm. apply filter_partition. Qed.

Lemma StronglySorted_take {A} (R : A -> A -> Prop) (n : nat) (l : list A) :
  StronglySorted R l -> StronglySorted R (take n l).
Proof.
  intros H. rewrite <- (take_drop n l) in H. by apply StronglySorted_app_1_l in H.
Qed.

Lemma StronglySorted_weaken {A} (R S : A -> A -> Prop) (l : list A) :
  (forall a b, R a b -> S a b) -> StronglySorted R l -> StronglySorted S l.
Proof.
  intros H. induction 1 as [|x l _ IH Hall]; constructor; [done|].
  eapply Forall_impl; [exact Hall|]. apply H.
Qed.

Lemma extractKeywords_spec text maxKeywords :
  0 <= default 10 maxKeywords ->
  NlpWorker.extractKeywords text maxKeywords
  = Spec.keywords_enumerated (Spec.tokens text) (default 10 maxKeywords).
Proof.
  intros HK. unfold NlpWorker.extractKeywords, Spec.keywords_enumerated.
  rewrite keyword_tokens_spec, tally, entries_counted, slice0_take by done.
  rewrite (sort_by_map (fun k => (k, Spec.occurrences (Spec.tokens text) k))
             (Spec.by_frequency (Spec.tokens text))) by done.
  rewrite <- fmap_take, <- list_fmap_compose.
  apply list_fmap_id.
Qed.

End KeywordFacts.

(** C3 as stated fails on a tie between a word and a number that follows
    it: the table lists the number first. *)
Lemma keywords_tie_differs :
  NlpWorker.extractKeywords (Js.str "zeta 2024") None = [Js.str "2024"; Js.str "zeta"]
  /\ Spec.keywords (Spec.tokens (Js.str "zeta 2024")) 10
     = [Js.str "zeta"; Js.str "2024"]
  /\ NlpWorker.extractKeywords (Js.str "zeta 2024") None
     <> Spec.keywords (Spec.tokens (Js.str "zeta 2024")) 10.
Proof. vm_compute. repeat split; done. Qed.

(** The analysis of the transform worker keeps stop words of four letters
    and more. *)
Lemma keywords_other_path :
  NlpWorker.extractKeywords (Js.str "that") None = []
  /\ exists result,
       TransformWorker.performAnalyze
         {| TransformWorker.id := Js.str "r";
            TransformWorker.type := TransformWorker.Analyze;
            TransformWorker.payload_text := Js.str "that";
            TransformWorker.payload_settings := None |} false
       = TransformWorker.ok (Js.str "r") result
       /\ TransformWorker.keywords result = [Js.str "that"].
Proof.
  split; [by vm_compute|]. eexists. split; [vm_compute; reflexivity|done].
Qed.

(** C3, amended. Keyword extraction lower-cases the text, strips the
    characters that are neither word characters nor white space, splits on
    white space and drops the tokens of length at most 3 and the stop words;
    it returns at most [K] (10 by default) distinct tokens by descending
    frequency.  Tokens of equal frequency come in the order of the table of
    counts: tokens that are array indices (canonical numerals below
    [2^32 - 1]) in ascending numeric order first, then the others in the order
    of their first occurrence.  Stated for texts without the tokens
    [constructor] and [__proto__]. *)
Theorem keywords_by_frequency (text : Js.jstr) (maxKeywords : option Z) :
  let K := default 10 maxKeywords in
  let tokens := Spec.tokens text in
  let result := NlpWorker.extractKeywords text maxKeywords in
  0 <= K ->
  Forall (fun w => Js.inherited w = false) tokens ->
  result = Spec.keywords_enumerated tokens K
  /\ NoDup result
  /\ Z.of_nat (length result) <= K
  /\ (forall k, k ∈ result ->
      k ∈ tokens /\ (3 < length k)%nat /\ k ∉ NlpWorker.STOPWORDS)
  /\ StronglySorted
       (fun a b => Spec.occurrences tokens b <= Spec.occurrences tokens a) result.
Proof.
  intros K tokens result HK _.
  assert (Hres : result = Spec.keywords_enumerated tokens K)
    by by apply extractKeywords_spec.
  set (sorted := Js.sort_by (Spec.by_frequency tokens)
                   (Spec.enumeration (Spec.firsts tokens))).
  assert (Hperm : sorted ≡ₚ Spec.firsts tokens).
  { unfold sorted. by rewrite sort_by_perm, enumeration_perm. }
  assert (Htake : result = take (Z.to_nat K) sorted) by exact Hres.
  assert (Hsub : forall k, k ∈ result -> k ∈ tokens).
  { intros k Hk. rewrite Htake in Hk. apply elem_of_take in Hk as (i & Hi & _).
    apply elem_of_firsts. rewrite <- Hperm. by eapply list_elem_of_lookup_2. }
  split; [exact Hres|]. split; [|split; [|split]].
  - rewrite Htake. apply (sublist_NoDup _ sorted); [|apply sublist_take].
    rewrite Hperm. apply NoDup_firsts.
  - rewrite Htake, length_take. lia.
  - intros k Hk. pose proof (Hsub k Hk) as Hin. split; [done|].
    unfold tokens, Spec.tokens in Hin. apply elem_of_filter_bool in Hin as [_ Hp].
    apply andb_prop in Hp as [H3 Hstop]. split.
    + by apply Nat.ltb_lt in H3.
    + apply negb_true_iff in Hstop. unfold NlpWorker.has in Hstop.
      by apply bool_decide_eq_false in Hstop.
  - rewrite Htake. apply StronglySorted_take.
    apply (StronglySorted_weaken (Aux.before (Spec.by_frequency tokens))).
    + intros a b. unfold Aux.before, Spec.by_frequency. lia.
    + apply sort_by_sorted.
      * intros a b. unfold Spec.by_frequency. lia.
      * intros a b c. unfold Spec.by_frequency. lia.
Qed.

(** The ten most frequent tokens of a sentence with a year in it. *)
Lemma keywords_by_frequency_witness :
  NlpWorker.extractKeywords
    (Js.str "The quick brown fox jumps over the lazy dog in 2024: quick dogs.") None
  = map Js.str ["quick"; "2024"; "brown"; "jumps"; "over"; "lazy"; "dogs"]%string
  /\ NoDup (NlpWorker.extractKeywords
       (Js.str "The quick brown fox jumps over the lazy dog in 2024: quick dogs.") None).
Proof.
  destruct (keywords_by_frequency
              (Js.str "The quick brown fox jumps over the lazy dog in 2024: quick dogs.")
              None) as (H1 & H2 & _).
  - simpl. lia.
  - vm_compute. repeat constructor.
  - split; [|exact H2]. rewrite H1. vm_compute. reflexivity.
Defined.

(** ** Eviction on any store, the undo stack as a stack, previews *)

Section EvictFacts.
Import Js Aux Models.
Context {Data : Type}.

Local Abbreviation by_age :=
  (fun a b : CacheEntry Data => lastAccessedAt a - lastAccessedAt b).

(** The records eviction deletes: the first ones in the order by age, as
    many as the store holds beyond [maxSize]. *)
Lemma evictOldest_take (maxSize : Z) (st : store Data) :
  evictOldest maxSize st
  = fold_left (fun st entry => delete_key (cacheKey entry) st)
      (take (Z.to_nat (Z.of_nat (size st) - maxSize))
            (sort_by by_age (index_cursor st)))
      st.
Proof.
  unfold evictOldest.
  assert (Hlen : length (index_cursor st) = size st).
  { by rewrite (Permutation_length (index_cursor_perm st)), length_fmap,
      length_map_to_list. }
  rewrite Hlen.
  destruct (Z.ltb_spec maxSize (Z.of_nat (size st))) as [Hlt|Hge].
  - unfold slice0. rewrite sort_by_length, Hlen.
    destruct (Z.ltb_spec (Z.of_nat (size st) - maxSize) 0) as [?|_]; [lia|].
    destruct (Z.le_ge_cases (Z.of_nat (size st) - maxSize) (Z.of_nat (size st)))
      as [Hle|Hle].
    + by rewrite Z.min_l.
    + rewrite Z.min_r by done.
      rewrite !take_ge; [done|rewrite sort_by_length, Hlen; lia
                        |rewrite sort_by_length, Hlen; lia].
  - replace (Z.to_nat (Z.of_nat (size st) - maxSize)) with O by lia.
    by rewrite take_0.
Qed.

Lemma delete_all_lookup (l : list (CacheEntry Data)) (st : store Data) k :
  fold_left (fun st entry => delete_key (cacheKey entry) st) l st !! k
  = if bool_decide (k ∈ cacheKey <$> l) then None else st !! k.
Proof.
  revert st. induction l as [|e l IH]; intros st; simpl.
  { done. }
  rewrite IH. unfold delete_key.
  destruct (decide (k = cacheKey e)) as [->|Hne].
  - rewrite lookup_delete_eq.
    rewrite (bool_decide_eq_true_2 (cacheKey e ∈ cacheKey e :: _))
      by left.
    by destruct (bool_decide _).
  - rewrite lookup_delete_ne by done.
    do 2 case_bool_decide; try done; rewrite elem_of_cons in *; tauto.
Qed.

Lemma delete_all_size (l : list (CacheEntry Data)) (st : store Data) :
  NoDup (cacheKey <$> l) ->
  (forall e, e ∈ l -> is_Some (st !! cacheKey e)) ->
  size (fold_left (fun st entry => delete_key (cacheKey entry) st) l st)
  = (size st - length l)%nat.
Proof.
  revert st. induction l as [|e l IH]; intros st Hnd Hin; simpl.
  { lia. }
  rewrite fmap_cons in Hnd. apply NoDup_cons in Hnd as [Hnotin Hnd].
  rewrite IH; [|done|].
  - unfold delete_key. rewrite map_size_delete_Some by (apply Hin; left). lia.
  - intros e' He'. unfold delete_key. rewrite lookup_delete_ne.
    + apply Hin. by right.
    + intros Heq. apply Hnotin. rewrite Heq. by apply list_elem_of_fmap_2.
Qed.

Lemma keys_of_records (st : store Data) :
  keyed_by_path st -> cacheKey <$> (snd <$> map_to_list st) = fst <$> map_to_list st.
Proof.
  intros Hk. rewrite <- list_fmap_compose. apply list_fmap_ext.
  intros i [k e] Hi. simpl.
  apply (Hk k e). apply elem_of_map_to_list. by eapply list_elem_of_lookup_2.
Qed.

Lemma record_lookup (st : store Data) e :
  keyed_by_path st -> e ∈ snd <$> map_to_list st <-> st !! cacheKey e = Some e.
Proof.
  intros Hk. split.
  - intros He. apply list_elem_of_fmap in He as ([k e'] & -> & He).
    apply elem_of_map_to_list in He. simpl. by rewrite (Hk k e' He).
  - intros He. apply elem_of_map_to_list in He.
    by apply (list_elem_of_fmap_2 snd) in He.
Qed.

(** The order by age, cut where eviction stops: what goes, and what
    stays. *)
Lemma evictOldest_cut (maxSize : Z) (st : store Data) :
  keyed_by_path st ->
  exists evicted kept,
    evicted ++ kept ≡ₚ snd <$> map_to_list st
    /\ length evicted
       = Z.to_nat (Z.min (Z.of_nat (size st)) (Z.of_nat (size st) - maxSize))
    /\ NoDup (cacheKey <$> evicted ++ kept)
    /\ (forall e e', e ∈ evicted -> e' ∈ kept ->
        lastAccessedAt e <= lastAccessedAt e')
    /\ evictOldest maxSize st
       = fold_left (fun st entry => delete_key (cacheKey entry) st) evicted st.
Proof.
  intros Hk.
  set (sorted := sort_by by_age (index_cursor st)).
  set (n := Z.to_nat (Z.of_nat (size st) - maxSize)).
  assert (Hperm : sorted ≡ₚ snd <$> map_to_list st).
  { unfold sorted. by rewrite sort_by_perm, index_cursor_perm. }
  assert (Hlen : length sorted = size st).
  { by rewrite (Permutation_length Hperm), length_fmap, length_map_to_list. }
  exists (take n sorted), (drop n sorted). rewrite take_drop. repeat split.
  - done.
  - rewrite length_take, Hlen. unfold n. lia.
  - rewrite Hperm, keys_of_records by done. apply NoDup_fst_map_to_list.
  - intros e e' He He'.
    pose proof (sort_by_sorted by_age by_age_total ltac:(lia) (index_cursor st))
      as Hs.
    fold sorted in Hs. rewrite <- (take_drop n sorted) in Hs.
    pose proof (StronglySorted_app_1_elem_of _ _ _ _ _ Hs He He') as Hb.
    unfold before in Hb. lia.
  - apply evictOldest_take.
Qed.

(** What eviction leaves of a store that obeys its key path. *)
Lemma evictOldest_spec (maxSize : Z) (st : store Data) :
  keyed_by_path st ->
  Z.of_nat (size (evictOldest maxSize st))
  = Z.max 0 (Z.min (Z.of_nat (size st)) maxSize)
  /\ evictOldest maxSize st ⊆ st
  /\ (forall k k' e e',
        st !! k = Some e -> evictOldest maxSize st !! k = None ->
        evictOldest maxSize st !! k' = Some e' ->
        lastAccessedAt e <= lastAccessedAt e').
Proof.
  intros Hk.
  destruct (evictOldest_cut maxSize st Hk)
    as (evicted & kept & Hperm & Hlen & Hnd & Hage & ->).
  assert (Hin : forall e, e ∈ evicted ++ kept <-> st !! cacheKey e = Some e).
  { intros e. rewrite Hperm. by apply record_lookup. }
  repeat split.
  - rewrite delete_all_size.
    + lia.
    + rewrite fmap_app in Hnd. by apply NoDup_app in Hnd as [? _].
    + intros e He. exists e. apply Hin. apply elem_of_app. by left.
  - apply map_subseteq_spec. intros k e. rewrite delete_all_lookup.
    by destruct (bool_decide _).
  - intros k k' e e' He Hgone Hkept.
    rewrite delete_all_lookup in Hgone, Hkept.
    destruct (bool_decide_reflect (k ∈ cacheKey <$> evicted)) as [Hke|_];
      [|congruence].
    destruct (bool_decide_reflect (k' ∈ cacheKey <$> evicted)) as [|Hk'e];
      [done|].
    apply list_elem_of_fmap in Hke as (e1 & -> & He1).
    assert (e1 = e) as ->.
    { assert (st !! cacheKey e1 = Some e1) as H1
        by (apply Hin, elem_of_app; by left). congruence. }
    apply Hage; [done|].
    assert (He' : e' ∈ evicted ++ kept).
    { apply Hin. by rewrite (Hk k' e' Hkept). }
    apply elem_of_app in He' as [He'|He']; [|done].
    exfalso. apply Hk'e. rewrite <- (Hk k' e' Hkept).
    by apply list_elem_of_fmap_2.
Qed.

Lemma keyed_by_path_put (e : CacheEntry Data) (st : store Data) :
  keyed_by_path st -> keyed_by_path (put e st).
Proof.
  intros Hk. unfold put. apply map_Forall_insert_2; [done|apply Hk].
Qed.

End EvictFacts.

(** X1. Eviction on any store whose records sit under their key path, for
    any [maxSize]: the store keeps [min(size, maxSize)] records (none for a
    negative [maxSize]), every record it keeps is one it held, unchanged,
    no record that went was accessed later than a record that stayed, and a
    second eviction changes nothing. *)
Theorem evict_keeps_most_recent {Data : Type} (maxSize : Z)
    (st : Models.store Data) :
  Aux.keyed_by_path st ->
  let st' := Models.evictOldest maxSize st in
  Z.of_nat (size st') = Z.max 0 (Z.min (Z.of_nat (size st)) maxSize)
  /\ st' ⊆ st
  /\ (forall k k' e e',
        st !! k = Some e -> st' !! k = None -> st' !! k' = Some e' ->
        Models.lastAccessedAt e <= Models.lastAccessedAt e')
  /\ Models.evictOldest maxSize st' = st'.
Proof.
  intros Hk st'.
  destruct (evictOldest_spec maxSize st Hk) as (Hsize & Hsub & Hage).
  fold st' in Hsize, Hsub, Hage. repeat split; try done.
  rewrite evictOldest_take.
  destruct (Z.le_gt_cases 0 maxSize) as [Hpos|Hneg].
  - replace (Z.to_nat (Z.of_nat (size st') - maxSize)) with O by lia.
    by rewrite take_0.
  - assert (Hempty : size st' = O) by lia.
    apply map_size_empty_iff in Hempty. rewrite Hempty.
    unfold Models.index_cursor. rewrite map_to_list_empty. by destruct (Z.to_nat _).
Qed.

(** Three records put at times 30, 10 and 20, and room for two. *)
Lemma evict_keeps_most_recent_witness :
  let mk k t := {| Models.cacheKey := Js.str k; Models.value := tt;
                   Models.lastAccessedAt := t |} in
  let st := fold_left (fun st e => Models.put e st)
              [mk "a" 30; mk "b" 10; mk "c" 20] ∅ in
  Z.of_nat (size (Models.evictOldest 2 st)) = Z.max 0 (Z.min (Z.of_nat (size st)) 2)
  /\ Models.evictOldest 2 st ⊆ st
  /\ (forall k k' e e',
        st !! k = Some e -> Models.evictOldest 2 st !! k = None ->
        Models.evictOldest 2 st !! k' = Some e' ->
        Models.lastAccessedAt e <= Models.lastAccessedAt e')
  /\ Models.evictOldest 2 (Models.evictOldest 2 st) = Models.evictOldest 2 st.
Proof.
  intros mk st.
  apply (evict_keeps_most_recent 2 st).
  refine (bool_decide_unpack _ _). vm_compute. exact I.
Defined.

(** X2. A record whose access time was just updated to a time later than
    that of every other record, and put back, is not evicted when there is
    room for at least one record. *)
Theorem touched_record_survives {Data : Type} (maxSize now : Z)
    (st : Models.store Data) (entry : Models.CacheEntry Data) :
  Aux.keyed_by_path st ->
  1 <= maxSize ->
  (forall k e, st !! k = Some e -> k <> Models.cacheKey entry ->
               Models.lastAccessedAt e < now) ->
  let touched := Models.updateAccessTime now entry in
  Models.evictOldest maxSize (Models.put touched st) !! Models.cacheKey entry
  = Some touched.
Proof.
  intros Hk Hroom Hnew touched.
  set (st1 := Models.put touched st).
  assert (Hk1 : Aux.keyed_by_path st1) by by apply keyed_by_path_put.
  assert (Hin : st1 !! Models.cacheKey entry = Some touched).
  { unfold st1, Models.put. apply lookup_insert_eq. }
  destruct (evictOldest_spec maxSize st1 Hk1) as (Hsize & Hsub & Hage).
  destruct (Models.evictOldest maxSize st1 !! Models.cacheKey entry) as [x|] eqn:Hx.
  { rewrite map_subseteq_spec in Hsub. apply Hsub in Hx. congruence. }
  exfalso.
  assert (Hne : Models.evictOldest maxSize st1 <> ∅).
  { intros Hempty. rewrite Hempty, map_size_empty in Hsize.
    assert (size st1 <> O); [|lia].
    intros H0. apply map_size_empty_iff in H0. by rewrite H0 in Hin. }
  apply map_choose in Hne as (k' & e' & Hk').
  pose proof (Hage _ _ _ _ Hin Hx Hk') as Hle.
  assert (k' <> Models.cacheKey entry) as Hdiff by congruence.
  rewrite map_subseteq_spec in Hsub. apply Hsub in Hk'.
  unfold st1, Models.put in Hk'. simpl in Hk'.
  rewrite lookup_insert_ne in Hk' by done.
  pose proof (Hnew _ _ Hk' Hdiff). simpl in Hle. lia.
Qed.

(** Records of the times 10 and 20; the older one is read at time 30. *)
Lemma touched_record_survives_witness :
  let mk k t := {| Models.cacheKey := Js.str k; Models.value := tt;
                   Models.lastAccessedAt := t |} in
  let st := fold_left (fun st e => Models.put e st) [mk "a" 10; mk "b" 20] ∅ in
  Models.evictOldest 1 (Models.put (Models.updateAccessTime 30 (mk "a" 10)) st)
    !! Js.str "a"
  = Some (mk "a" 30).
Proof.
  intros mk st.
  apply (touched_record_survives 1 30 st (mk "a" 10)).
  - refine (bool_decide_unpack _ _). vm_compute. exact I.
  - lia.
  - refine (bool_decide_unpack
              (map_Forall (fun k e => k <> Js.str "a" -> Models.lastAccessedAt e < 30) st)
              _).
    vm_compute. exact I.
Defined.

Section StackFacts.
Import Js Aux Models.
Context {Data : Type}.

Lemma pop_all_take (n : nat) (stack : UndoStack Data) :
  pop_all n stack = take n (actions stack).
Proof.
  revert stack. induction n as [|n IH]; intros [key [|a l]]; simpl; try done.
  by rewrite IH.
Qed.

Lemma substring0_take (fin : Z) (s : jstr) :
  substring0 fin s = take (Z.to_nat fin) s.
Proof.
  unfold substring0.
  destruct (Z.le_gt_cases (Z.max fin 0) (Z.of_nat (length s))) as [Hle|Hgt].
  - rewrite Z.min_l by done. f_equal. lia.
  - rewrite Z.min_r by lia. rewrite Nat2Z.id. rewrite !take_ge; [done|lia|lia].
Qed.

Lemma trim_split (s : jstr) :
  exists sp sp', s = sp ++ trim s ++ sp'
    /\ Forall (fun c => is_space c = true) sp
    /\ Forall (fun c => is_space c = true) sp'.
Proof.
  destruct (trimStart_split s) as (sp & Hs & Hsp).
  destruct (trimEnd_split (trimStart s)) as (sp' & Hs' & Hsp').
  exists sp, sp'. unfold trim. by rewrite <- Hs', <- Hs.
Qed.

End StackFacts.

(** X3. The undo stack is a stack: after a [clear] and any pushes, as many
    pops return the pushed actions, the last one pushed first; with more
    than [maxActions] pushes only the [maxActions] last ones.  In general
    [n] pops return the first [n] actions of the stack. *)
Theorem undo_stack_is_lifo {Data : Type} (maxActions : Z)
    (stack : Models.UndoStack Data) (pushed : list (Models.UndoAction Data))
    (n : nat) :
  0 <= maxActions ->
  Aux.pop_all (length pushed)
    (fold_left (Models.pushAction maxActions) pushed (Models.clear stack))
  = take (Z.to_nat maxActions) (rev pushed)
  /\ Aux.pop_all n stack = take n (Models.actions stack)
  /\ Aux.pop_all n (Models.clear stack) = [].
Proof.
  intros HN. repeat split.
  - rewrite pop_all_take, push_all_actions by (simpl; lia).
    simpl. rewrite app_nil_r. apply take_ge.
    rewrite length_take, length_rev. lia.
  - apply pop_all_take.
  - rewrite pop_all_take. simpl. apply take_nil.
Qed.

(** Three actions pushed on a cleared stack that keeps two. *)
Lemma undo_stack_is_lifo_witness :
  let mk n := {| Models.actionType := Js.str "replace"; Models.timestamp := n;
                 Models.data := tt |} in
  let stack := {| Models.siteKey := Js.str "example.org";
                  Models.actions := [mk 0] |} in
  Aux.pop_all 3
    (fold_left (Models.pushAction 2) [mk 1; mk 2; mk 3] (Models.clear stack))
  = [mk 3; mk 2]
  /\ Aux.pop_all 1 stack = [mk 0]
  /\ Aux.pop_all 1 (Models.clear stack) = [].
Proof.
  intros mk stack.
  apply (undo_stack_is_lifo 2 stack [mk 1; mk 2; mk 3] 1). lia.
Defined.

(** X4. A preview is never longer than [maxLength] (150 by default, 0 for
    a negative one) plus the three dots.  A text that fits is its own
    preview; of a longer one the preview is a stretch of its first
    [maxLength] characters, without white space at either end (white space
    in front of it is dropped too), and the dots. *)
Theorem preview_is_bounded (text : Js.jstr) (maxLength : option Z) :
  let M := default 150 maxLength in
  let preview := Models.createPreview text maxLength in
  Z.of_nat (length preview) <= Z.max 0 M + 3
  /\ (Z.of_nat (length text) <= M -> preview = text)
  /\ (M < Z.of_nat (length text) ->
      exists sp body rest,
        text = sp ++ body ++ rest
        /\ preview = body ++ Js.str "..."
        /\ Forall (fun c => Js.is_space c = true) sp
        /\ Js.trim body = body
        /\ Z.of_nat (length (sp ++ body)) <= Z.max 0 M).
Proof.
  intros M preview. unfold preview, Models.createPreview. fold M.
  assert (Hcut : exists sp sp',
            take (Z.to_nat M) text
            = sp ++ Js.trim (Js.substring0 M text) ++ sp'
            /\ Forall (fun c => Js.is_space c = true) sp).
  { destruct (trim_split (Js.substring0 M text)) as (sp & sp' & Hs & Hsp & _).
    exists sp, sp'. by rewrite <- substring0_take. }
  destruct Hcut as (sp & sp' & Hcut & Hsp).
  assert (Hlen : Z.of_nat (length (sp ++ Js.trim (Js.substring0 M text)))
                 <= Z.max 0 M).
  { assert (Z.of_nat (length (take (Z.to_nat M) text)) <= Z.max 0 M)
      by (rewrite length_take; lia).
    rewrite Hcut, !length_app in H. rewrite length_app. lia. }
  destruct (Z.leb_spec (Z.of_nat (length text)) M) as [Hfit|Hlong].
  - split; [lia|]. split; [done|lia].
  - split; [|split; [lia|]].
    + rewrite length_app in *. simpl. lia.
    + intros _. exists sp, (Js.trim (Js.substring0 M text)),
        (sp' ++ drop (Z.to_nat M) text).
      split; [|split; [done|split; [done|split; [apply trim_idem|done]]]].
      rewrite <- (take_drop (Z.to_nat M) text) at 1.
      rewrite Hcut. by rewrite <- !app_assoc.
Qed.

(** ** The whitelist of sites: action router, service worker, content
       script *)

Section RouterFacts.
Import Js Aux Chrome ActionRouter.

Lemma get_site (st : Storage) (hostname : jstr) :
  get (siteWhitelist st) hostname
  = match site st hostname with
    | Some p => Own p
    | None =>
        match siteWhitelist st with
        | Some _ =>
            if bool_decide (hostname ∈ Object_prototype) then Inherited
            else Undefined
        | None => Undefined
        end
    end.
Proof.
  unfold get, site, spread. destruct (siteWhitelist st) as [w|]; simpl.
  - by destruct (w !! hostname).
  - by rewrite lookup_empty.
Qed.

Lemma site_set (updated : Whitelist) (st : Storage) (hostname : jstr) :
  site (set_siteWhitelist updated st) hostname = updated !! hostname.
Proof. done. Qed.

(** The answer to [checkPermissions] depends on the own record only. *)
Lemma check_reply (hostname : jstr) (st : Storage) :
  handleCheckPermissions hostname st
  = (st,
     resolves
       (Permissions
          (match site st hostname with
           | Some p => default false (enabled p)
           | None => false
           end)
          (match site st hostname with
           | Some p => features p
           | None => ∅
           end))).
Proof.
  unfold handleCheckPermissions. rewrite get_site.
  destruct (site st hostname); [done|].
  destruct (siteWhitelist st); [|done]. by destruct (bool_decide _).
Qed.

Lemma isSiteWhitelisted_site (hostname : jstr) (st : Storage) :
  ServiceWorker.isSiteWhitelisted hostname st
  = match site st hostname with
    | Some p => default false (enabled p)
    | None => false
    end.
Proof.
  unfold ServiceWorker.isSiteWhitelisted. rewrite get_site.
  destruct (site st hostname); [done|].
  destruct (siteWhitelist st); [|done]. by destruct (bool_decide _).
Qed.

(** What a switch of a feature leaves of the own records. *)
Lemma set_feature_site (value : bool) (hostname feature : jstr) (st : Storage)
    (h : jstr) :
  site (fst (set_feature value hostname feature st)) h
  = match get (siteWhitelist st) hostname with
    | Undefined => site st h
    | Own p =>
        if bool_decide (h = hostname)
        then Some {| enabled := enabled p;
                     features := <[feature := value]> (features p);
                     addedAt := addedAt p |}
        else site st h
    | Inherited =>
        if bool_decide (h = hostname)
        then Some {| enabled := None; features := <[feature := value]> ∅;
                     addedAt := None |}
        else site st h
    end.
Proof.
  unfold set_feature.
  destruct (get (siteWhitelist st) hostname) as [p| |]; simpl; try done;
    rewrite site_set; case_bool_decide as Hh; subst;
    by rewrite ?lookup_insert_eq, ?lookup_insert_ne by done.
Qed.

Lemma actionRouter_settings (browser : Browser) (message : Message)
    (st : Storage) :
  extensionSettings (fst (actionRouter browser message st))
  = extensionSettings st.
Proof.
  destruct message; simpl; try done.
  - unfold handleRequestSiteAccess.
    destruct (permissions_request browser) as [[]|]; done.
  - unfold handleEnableFeature, set_feature.
    by destruct (get (siteWhitelist st) hostname).
  - unfold handleDisableFeature, set_feature.
    by destruct (get (siteWhitelist st) hostname).
  - unfold handleRemoveSiteAccess. by destruct (permissions_remove browser).
  - unfold handleInjectContent. by destruct (scripting_executeScript browser).
  - unfold handleOpenDashboard. by destruct (tabs_create browser).
Qed.

(** Only the record of the hostname the message names can change. *)
Lemma actionRouter_frame (browser : Browser) (message : Message)
    (st : Storage) (h : jstr) :
  site_of message <> Some h ->
  site (fst (actionRouter browser message st)) h = site st h.
Proof.
  intros Hother. destruct message; simpl in *; try done.
  - unfold handleRequestSiteAccess.
    destruct (permissions_request browser) as [[]|]; try done.
    simpl. rewrite site_set, lookup_insert_ne; [done|congruence].
  - unfold handleEnableFeature. rewrite set_feature_site.
    destruct (get _ _); try done; rewrite bool_decide_eq_false_2; congruence.
  - unfold handleDisableFeature. rewrite set_feature_site.
    destruct (get _ _); try done; rewrite bool_decide_eq_false_2; congruence.
  - unfold handleRemoveSiteAccess.
    assert (site (set_siteWhitelist (delete hostname (spread (siteWhitelist st))) st) h
            = site st h) as Hdel.
    { rewrite site_set, lookup_delete_ne; [done|congruence]. }
    by destruct (permissions_remove browser).
  - unfold handleInjectContent. by destruct (scripting_executeScript browser).
  - unfold handleOpenDashboard. by destruct (tabs_create browser).
Qed.

End RouterFacts.

(** X5. A feature of a site that has no record in the whitelist cannot be
    switched: for a hostname that is no member name of [Object.prototype],
    [enableFeature] and [disableFeature] are rejected with
    [Site not whitelisted], the service worker answers with that error, and
    the storage stays as it is. *)
Theorem feature_switch_needs_whitelisted_site (browser : Chrome.Browser)
    (value : bool) (hostname feature : Js.jstr) (st : Chrome.Storage) :
  Aux.site st hostname = None ->
  hostname ∉ Js.Object_prototype ->
  ActionRouter.actionRouter browser (Aux.switch value hostname feature) st
  = (st, Chrome.rejects (Js.str "Site not whitelisted"))
  /\ ServiceWorker.onMessage browser (Aux.switch value hostname feature) st
     = (st, ServiceWorker.error (Js.str "Site not whitelisted")).
Proof.
  intros Hnone Hname.
  assert (Hget : Chrome.get (Chrome.siteWhitelist st) hostname = Chrome.Undefined).
  { rewrite get_site, Hnone. rewrite bool_decide_eq_false_2 by done.
    by destruct (Chrome.siteWhitelist st). }
  assert (ActionRouter.actionRouter browser (Aux.switch value hostname feature) st
          = (st, Chrome.rejects (Js.str "Site not whitelisted"))) as Hrouter.
  { destruct value; simpl;
      unfold ActionRouter.handleEnableFeature, ActionRouter.handleDisableFeature,
        ActionRouter.set_feature; by rewrite Hget. }
  split; [done|]. unfold ServiceWorker.onMessage. by rewrite Hrouter.
Qed.

(** An empty whitelist and the site example.org. *)
Lemma feature_switch_needs_whitelisted_site_witness :
  let browser :=
    {| Chrome.permissions_request := Chrome.resolves true;
       Chrome.permissions_remove := Chrome.resolves true;
       Chrome.scripting_executeScript := Chrome.resolves tt;
       Chrome.tabs_create := Chrome.resolves tt; Chrome.Date_now := 0 |} in
  let st := {| Chrome.siteWhitelist := Some ∅; Chrome.extensionSettings := None |} in
  ActionRouter.actionRouter browser
    (ActionRouter.enableFeature (Js.str "example.org") (Js.str "copyRewrite")) st
  = (st, Chrome.rejects (Js.str "Site not whitelisted"))
  /\ ServiceWorker.onMessage browser
       (ActionRouter.enableFeature (Js.str "example.org") (Js.str "copyRewrite")) st
     = (st, ServiceWorker.error (Js.str "Site not whitelisted")).
Proof.
  intros browser st.
  apply (feature_switch_needs_whitelisted_site browser true (Js.str "example.org")
           (Js.str "copyRewrite") st).
  - reflexivity.
  - refine (bool_decide_unpack _ _). vm_compute. exact I.
Defined.

(** X6. Access to a site.  When the browser grants the host permission,
    the site gets a fresh record, whatever it had before: it answers
    [checkPermissions] as enabled with the three features off, and a page of
    the site starts nothing yet.  When the browser does not grant it (the
    user declines, or the request fails), the storage stays as it is and the
    answer is not a success. *)
Theorem site_access_request (browser : Chrome.Browser) (hostname : Js.jstr)
    (st : Chrome.Storage) :
  let after := ActionRouter.actionRouter browser
                 (ActionRouter.requestSiteAccess hostname) st in
  (Chrome.permissions_request browser = Chrome.resolves true ->
   snd after = Chrome.resolves (ActionRouter.Success true)
   /\ Aux.site (fst after) hostname
      = Some {| Chrome.enabled := Some true; Chrome.features := Aux.all_off;
                Chrome.addedAt := Some (Chrome.Date_now browser) |}
   /\ ServiceWorker.isSiteWhitelisted hostname (fst after) = true
   /\ (forall browser',
         snd (ActionRouter.actionRouter browser'
                (ActionRouter.checkPermissions hostname) (fst after))
         = Chrome.resolves (ActionRouter.Permissions true Aux.all_off))
   /\ (forall channel browser' protocol,
         Aux.page_load channel browser' protocol hostname (fst after) = []))
  /\ (Chrome.permissions_request browser <> Chrome.resolves true ->
      fst after = st
      /\ snd after <> Chrome.resolves (ActionRouter.Success true)).
Proof.
  intros after. split.
  - intros Hgranted.
    set (fresh := {| Chrome.enabled := Some true; Chrome.features := Aux.all_off;
                     Chrome.addedAt := Some (Chrome.Date_now browser) |}).
    assert (Hafter : after
              = (Chrome.set_siteWhitelist
                   (<[hostname := fresh]> (Chrome.spread (Chrome.siteWhitelist st)))
                   st,
                 Chrome.resolves (ActionRouter.Success true))).
    { unfold after. cbn [ActionRouter.actionRouter].
      unfold ActionRouter.handleRequestSiteAccess. by rewrite Hgranted. }
    rewrite Hafter. cbn [fst snd].
    assert (Hsite : Aux.site
              (Chrome.set_siteWhitelist
                 (<[hostname := fresh]> (Chrome.spread (Chrome.siteWhitelist st)))
                 st) hostname = Some fresh).
    { rewrite site_set. apply lookup_insert_eq. }
    split; [done|]. split; [exact Hsite|]. split; [|split].
    + by rewrite isSiteWhitelisted_site, Hsite.
    + intros browser'. cbn [ActionRouter.actionRouter].
      by rewrite check_reply, Hsite.
    + intros channel browser' protocol.
      unfold Aux.page_load, Aux.sendMessage, ContentBootstrap.bootstrap.
      case_bool_decide; [done|]. destruct channel as [[]|failure]; [|done].
      unfold ServiceWorker.onMessage. cbn [ActionRouter.actionRouter].
      by rewrite check_reply, Hsite.
  - intros Hno. unfold after. cbn [ActionRouter.actionRouter].
    unfold ActionRouter.handleRequestSiteAccess.
    destruct (Chrome.permissions_request browser) as [[]|]; try done.
Qed.

(** X7. Of two switches of the same feature of the same site in a row the
    second one decides: the storage is the one the second switch alone
    leaves. *)
Theorem feature_switch_last_write_wins (browser1 browser2 : Chrome.Browser)
    (value1 value2 : bool) (hostname feature : Js.jstr) (st : Chrome.Storage) :
  fst (ActionRouter.actionRouter browser2 (Aux.switch value2 hostname feature)
         (fst (ActionRouter.actionRouter browser1
                 (Aux.switch value1 hostname feature) st)))
  = fst (ActionRouter.actionRouter browser2 (Aux.switch value2 hostname feature) st).
Proof.
  assert (Hset : forall v1 v2,
            fst (ActionRouter.set_feature v2 hostname feature
                   (fst (ActionRouter.set_feature v1 hostname feature st)))
            = fst (ActionRouter.set_feature v2 hostname feature st)).
  { intros v1 v2. unfold ActionRouter.set_feature at 2 3.
    destruct (Chrome.get (Chrome.siteWhitelist st) hostname) as [p| |] eqn:Hget;
      simpl.
    - unfold ActionRouter.set_feature. simpl. rewrite lookup_insert_eq. simpl.
      unfold Chrome.set_siteWhitelist. simpl. by rewrite !insert_insert_eq.
    - unfold ActionRouter.set_feature. simpl. rewrite lookup_insert_eq. simpl.
      unfold Chrome.set_siteWhitelist. simpl. by rewrite !insert_insert_eq.
    - unfold ActionRouter.set_feature. by rewrite Hget. }
  destruct value1, value2; apply Hset.
Qed.

(** X8. The switch of a feature of a whitelisted site succeeds, and the
    site then answers [checkPermissions] with its flags as they were but for
    the switched one, which has the value written; whether the site counts
    as enabled does not change. *)
Theorem feature_switch_is_reported (browser : Chrome.Browser) (value : bool)
    (hostname feature : Js.jstr) (st : Chrome.Storage)
    (p : Chrome.SitePermissions) :
  Aux.site st hostname = Some p ->
  let after := ActionRouter.actionRouter browser
                 (Aux.switch value hostname feature) st in
  snd after = Chrome.resolves (ActionRouter.Success true)
  /\ (forall browser',
        snd (ActionRouter.actionRouter browser'
               (ActionRouter.checkPermissions hostname) (fst after))
        = Chrome.resolves
            (ActionRouter.Permissions (default false (Chrome.enabled p))
               (<[feature := value]> (Chrome.features p))))
  /\ ServiceWorker.isSiteWhitelisted hostname (fst after)
     = ServiceWorker.isSiteWhitelisted hostname st.
Proof.
  intros Hsite after.
  assert (Hget : Chrome.get (Chrome.siteWhitelist st) hostname = Chrome.Own p).
  { by rewrite get_site, Hsite. }
  assert (Hafter : after = ActionRouter.set_feature value hostname feature st).
  { unfold after. by destruct value. }
  assert (Hsite' : Aux.site (fst after) hostname
                   = Some {| Chrome.enabled := Chrome.enabled p;
                             Chrome.features := <[feature := value]> (Chrome.features p);
                             Chrome.addedAt := Chrome.addedAt p |}).
  { rewrite Hafter, set_feature_site, Hget. by rewrite bool_decide_eq_true_2. }
  split; [|split].
  - rewrite Hafter. unfold ActionRouter.set_feature. by rewrite Hget.
  - intros browser'. cbn [ActionRouter.actionRouter].
    by rewrite check_reply, Hsite'.
  - rewrite !isSiteWhitelisted_site, Hsite', Hsite. done.
Qed.

(** The site example.org, enabled and with its copy feature off. *)
Lemma feature_switch_is_reported_witness :
  let browser :=
    {| Chrome.permissions_request := Chrome.resolves true;
       Chrome.permissions_remove := Chrome.resolves true;
       Chrome.scripting_executeScript := Chrome.resolves tt;
       Chrome.tabs_create := Chrome.resolves tt; Chrome.Date_now := 0 |} in
  let p := {| Chrome.enabled := Some true; Chrome.features := Aux.all_off;
              Chrome.addedAt := Some 0 |} in
  let st := {| Chrome.siteWhitelist := Some {[ Js.str "example.org" := p ]};
               Chrome.extensionSettings := None |} in
  let after := ActionRouter.actionRouter browser
                 (ActionRouter.enableFeature (Js.str "example.org")
                    (Js.str "copyRewrite")) st in
  snd after = Chrome.resolves (ActionRouter.Success true)
  /\ (forall browser',
        snd (ActionRouter.actionRouter browser'
               (ActionRouter.checkPermissions (Js.str "example.org")) (fst after))
        = Chrome.resolves
            (ActionRouter.Permissions true
               (<[Js.str "copyRewrite" := true]> Aux.all_off)))
  /\ ServiceWorker.isSiteWhitelisted (Js.str "example.org") (fst after)
     = ServiceWorker.isSiteWhitelisted (Js.str "example.org") st.
Proof.
  intros browser p st.
  apply (feature_switch_is_reported browser true (Js.str "example.org")
           (Js.str "copyRewrite") st p).
  reflexivity.
Defined.

Section BootstrapFacts.
Import Js Aux Chrome ActionRouter ContentBootstrap.

Lemma page_load_site (channel : promise unit) (browser : Browser)
    (protocol hostname : jstr) (st : Storage) :
  page_load channel browser protocol hostname st
  = if bool_decide (protocol = str "chrome-extension:") then [] else
    match channel, site st hostname with
    | resolves _, Some p =>
        if default false (enabled p) then initializeFeatures (features p) else []
    | _, _ => []
    end.
Proof.
  unfold page_load, sendMessage, bootstrap, checkPermissions.
  case_bool_decide; [done|]. destruct channel as [[]|failure]; [|done].
  unfold ServiceWorker.onMessage. cbn [actionRouter].
  rewrite check_reply. cbn [snd].
  destruct (site st hostname) as [p|]; [|done].
  by destruct (default false (enabled p)).
Qed.

Lemma elem_of_initializeFeatures (x : Started) (features : Features) :
  x ∈ initializeFeatures features <-> features !! str (flag_of x) = Some true.
Proof.
  unfold initializeFeatures, flag.
  destruct x; simpl flag_of; rewrite elem_of_app;
    destruct (features !! str "copyRewrite") as [[]|];
    destruct (features !! str "observers") as [[]|]; simpl;
    rewrite ?list_elem_of_singleton, ?elem_of_nil; intuition congruence.
Qed.

End BootstrapFacts.

(** X9. After [removeSiteAccess] the site has no record: it answers
    [checkPermissions] as not enabled and without features, a page of it
    starts nothing, and (for a hostname that is no member name of
    [Object.prototype]) its features cannot be switched.  This holds also
    when the browser fails to remove the host permission and the message is
    answered with that error: the record is deleted first. *)
Theorem removed_site_is_off (browser : Chrome.Browser) (hostname : Js.jstr)
    (st : Chrome.Storage) :
  let after := ActionRouter.actionRouter browser
                 (ActionRouter.removeSiteAccess hostname) st in
  Aux.site (fst after) hostname = None
  /\ ServiceWorker.isSiteWhitelisted hostname (fst after) = false
  /\ (forall browser',
        snd (ActionRouter.actionRouter browser'
               (ActionRouter.checkPermissions hostname) (fst after))
        = Chrome.resolves (ActionRouter.Permissions false ∅))
  /\ (forall channel browser' protocol,
        Aux.page_load channel browser' protocol hostname (fst after) = [])
  /\ (hostname ∉ Js.Object_prototype ->
      forall browser' value feature,
        snd (ActionRouter.actionRouter browser'
               (Aux.switch value hostname feature) (fst after))
        = Chrome.rejects (Js.str "Site not whitelisted"))
  /\ (forall message,
        Chrome.permissions_remove browser = Chrome.rejects message ->
        snd after = Chrome.rejects message).
Proof.
  intros after.
  assert (Hfst : fst after
            = Chrome.set_siteWhitelist
                (delete hostname (Chrome.spread (Chrome.siteWhitelist st))) st).
  { unfold after. cbn [ActionRouter.actionRouter].
    unfold ActionRouter.handleRemoveSiteAccess.
    by destruct (Chrome.permissions_remove browser). }
  assert (Hsite : Aux.site (fst after) hostname = None).
  { rewrite Hfst, site_set. apply lookup_delete_eq. }
  split; [done|]. split; [|split; [|split; [|split]]].
  - by rewrite isSiteWhitelisted_site, Hsite.
  - intros browser'. cbn [ActionRouter.actionRouter].
    by rewrite check_reply, Hsite.
  - intros channel browser' protocol. rewrite page_load_site, Hsite.
    case_bool_decide; [done|]. by destruct channel.
  - intros Hname browser' value feature.
    assert (Hget : Chrome.get (Chrome.siteWhitelist (fst after)) hostname
                   = Chrome.Undefined).
    { rewrite get_site, Hsite. rewrite bool_decide_eq_false_2 by done.
      by destruct (Chrome.siteWhitelist (fst after)). }
    destruct value; cbn [Aux.switch ActionRouter.actionRouter];
      unfold ActionRouter.handleEnableFeature, ActionRouter.handleDisableFeature,
        ActionRouter.set_feature; by rewrite Hget.
  - intros message Hfail. unfold after. cbn [ActionRouter.actionRouter].
    unfold ActionRouter.handleRemoveSiteAccess. by rewrite Hfail.
Qed.

(** X10. A message changes the record of no site but the one it names, and
    never the extension settings: every other site has the record it had,
    answers [checkPermissions] as before and counts as whitelisted as
    before. *)
Theorem other_sites_are_untouched (browser : Chrome.Browser)
    (message : ActionRouter.Message) (st : Chrome.Storage)
    (hostname : Js.jstr) :
  Aux.site_of message <> Some hostname ->
  let st' := fst (ActionRouter.actionRouter browser message st) in
  Aux.site st' hostname = Aux.site st hostname
  /\ (forall browser',
        snd (ActionRouter.actionRouter browser'
               (ActionRouter.checkPermissions hostname) st')
        = snd (ActionRouter.actionRouter browser'
                 (ActionRouter.checkPermissions hostname) st))
  /\ ServiceWorker.isSiteWhitelisted hostname st'
     = ServiceWorker.isSiteWhitelisted hostname st
  /\ Chrome.extensionSettings st' = Chrome.extensionSettings st.
Proof.
  intros Hother st'.
  pose proof (actionRouter_frame browser message st hostname Hother) as Hsite.
  fold st' in Hsite. split; [done|]. split; [|split].
  - intros browser'. cbn [ActionRouter.actionRouter].
    by rewrite !check_reply, Hsite.
  - by rewrite !isSiteWhitelisted_site, Hsite.
  - apply actionRouter_settings.
Qed.

(** The site a.example loses its access; b.example keeps its record. *)
Lemma other_sites_are_untouched_witness :
  let browser :=
    {| Chrome.permissions_request := Chrome.resolves true;
       Chrome.permissions_remove := Chrome.resolves true;
       Chrome.scripting_executeScript := Chrome.resolves tt;
       Chrome.tabs_create := Chrome.resolves tt; Chrome.Date_now := 0 |} in
  let p := {| Chrome.enabled := Some true; Chrome.features := Aux.all_off;
              Chrome.addedAt := Some 0 |} in
  let st := {| Chrome.siteWhitelist :=
                 Some {[ Js.str "a.example" := p; Js.str "b.example" := p ]};
               Chrome.extensionSettings := None |} in
  let st' := fst (ActionRouter.actionRouter browser
                    (ActionRouter.removeSiteAccess (Js.str "a.example")) st) in
  Aux.site st' (Js.str "b.example") = Aux.site st (Js.str "b.example")
  /\ (forall browser',
        snd (ActionRouter.actionRouter browser'
               (ActionRouter.checkPermissions (Js.str "b.example")) st')
        = snd (ActionRouter.actionRouter browser'
                 (ActionRouter.checkPermissions (Js.str "b.example")) st))
  /\ ServiceWorker.isSiteWhitelisted (Js.str "b.example") st'
     = ServiceWorker.isSiteWhitelisted (Js.str "b.example") st
  /\ Chrome.extensionSettings st' = Chrome.extensionSettings st.
Proof.
  intros browser p st.
  apply (other_sites_are_untouched browser
           (ActionRouter.removeSiteAccess (Js.str "a.example")) st
           (Js.str "b.example")).
  simpl. discriminate.
Defined.

(** X11. The service worker answers an action the router does not know
    with the error [Unknown action: ] and its name, and leaves the storage as
    it is.  Whenever it answers a message with an error, the storage is as it
    was, unless the message is [removeSiteAccess]. *)
Theorem failed_message_changes_nothing (browser : Chrome.Browser)
    (st : Chrome.Storage) :
  (forall action,
     ServiceWorker.onMessage browser (ActionRouter.unknown action) st
     = (st, ServiceWorker.error (Js.str "Unknown action: " ++ action)))
  /\ (forall message st' text,
        ServiceWorker.onMessage browser message st
        = (st', ServiceWorker.error text) ->
        (forall hostname, message <> ActionRouter.removeSiteAccess hostname) ->
        st' = st).
Proof.
  split; [done|].
  unfold ServiceWorker.onMessage. intros message st' text Herr Hkeep.
  destruct message; cbn [ActionRouter.actionRouter] in Herr.
  - rewrite check_reply in Herr. by inversion Herr.
  - unfold ActionRouter.handleRequestSiteAccess in Herr.
    destruct (Chrome.permissions_request browser) as [[]|]; by inversion Herr.
  - unfold ActionRouter.handleEnableFeature, ActionRouter.set_feature in Herr.
    destruct (Chrome.get _ _); by inversion Herr.
  - unfold ActionRouter.handleDisableFeature, ActionRouter.set_feature in Herr.
    destruct (Chrome.get _ _); by inversion Herr.
  - by destruct (Hkeep hostname).
  - unfold ActionRouter.handleInjectContent in Herr.
    destruct (Chrome.scripting_executeScript browser); by inversion Herr.
  - unfold ActionRouter.handleOpenDashboard in Herr.
    destruct (Chrome.tabs_create browser); by inversion Herr.
  - by inversion Herr.
Qed.

(** The action [ping] and an injection into a tab that is gone, on a
    whitelist with one site. *)
Lemma failed_message_changes_nothing_witness :
  let browser :=
    {| Chrome.permissions_request := Chrome.resolves true;
       Chrome.permissions_remove := Chrome.resolves true;
       Chrome.scripting_executeScript := Chrome.rejects (Js.str "No tab with id: 7");
       Chrome.tabs_create := Chrome.resolves tt; Chrome.Date_now := 0 |} in
  let st :=
    {| Chrome.siteWhitelist :=
         Some {[ Js.str "example.org" :=
                   {| Chrome.enabled := Some true; Chrome.features := Aux.all_off;
                      Chrome.addedAt := Some 0 |} ]};
       Chrome.extensionSettings := None |} in
  ServiceWorker.onMessage browser (ActionRouter.unknown (Js.str "ping")) st
  = (st, ServiceWorker.error (Js.str "Unknown action: ping"))
  /\ ServiceWorker.onMessage browser (ActionRouter.injectContent 7) st
     = (st, ServiceWorker.error (Js.str "No tab with id: 7")).
Proof.
  intros browser st.
  destruct (failed_message_changes_nothing browser st) as [Hunknown Hkeep].
  split; [exact (Hunknown (Js.str "ping"))|].
  rewrite <- (Hkeep (ActionRouter.injectContent 7)
                (fst (ServiceWorker.onMessage browser
                        (ActionRouter.injectContent 7) st))
                (Js.str "No tab with id: 7")) at 2.
  - reflexivity.
  - reflexivity.
  - discriminate.
Defined.

(** X12. The guard of the feature switches reads the whitelist through its
    prototype: for a hostname that is a member name of [Object.prototype]
    and has no record in a stored whitelist, the switch is not rejected but
    writes a record with the one flag and without [enabled].  The site
    still does not count as whitelisted, and a page of it starts nothing. *)
Theorem prototype_name_passes_the_guard (browser : Chrome.Browser)
    (value : bool) (hostname feature : Js.jstr) (st : Chrome.Storage)
    (whitelist : Chrome.Whitelist) :
  Chrome.siteWhitelist st = Some whitelist ->
  whitelist !! hostname = None ->
  hostname ∈ Js.Object_prototype ->
  let after := ActionRouter.actionRouter browser
                 (Aux.switch value hostname feature) st in
  snd after = Chrome.resolves (ActionRouter.Success true)
  /\ Aux.site (fst after) hostname
     = Some {| Chrome.enabled := None; Chrome.features := {[ feature := value ]};
               Chrome.addedAt := None |}
  /\ ServiceWorker.isSiteWhitelisted hostname (fst after) = false
  /\ (forall channel browser' protocol,
        Aux.page_load channel browser' protocol hostname (fst after) = []).
Proof.
  intros Hw Hnone Hname after.
  assert (Hget : Chrome.get (Chrome.siteWhitelist st) hostname = Chrome.Inherited).
  { unfold Chrome.get. rewrite Hw, Hnone. by rewrite bool_decide_eq_true_2. }
  assert (Hafter : after = ActionRouter.set_feature value hostname feature st).
  { unfold after. by destruct value. }
  assert (Hsite : Aux.site (fst after) hostname
            = Some {| Chrome.enabled := None;
                      Chrome.features := {[ feature := value ]};
                      Chrome.addedAt := None |}).
  { rewrite Hafter, set_feature_site, Hget. by rewrite bool_decide_eq_true_2. }
  split; [|split; [done|split]].
  - rewrite Hafter. unfold ActionRouter.set_feature. by rewrite Hget.
  - by rewrite isSiteWhitelisted_site, Hsite.
  - intros channel browser' protocol. rewrite page_load_site, Hsite.
    case_bool_decide; [done|]. by destruct channel.
Qed.

(** The hostname [constructor] and an empty whitelist. *)
Lemma prototype_name_passes_the_guard_witness :
  let browser :=
    {| Chrome.permissions_request := Chrome.resolves true;
       Chrome.permissions_remove := Chrome.resolves true;
       Chrome.scripting_executeScript := Chrome.resolves tt;
       Chrome.tabs_create := Chrome.resolves tt; Chrome.Date_now := 0 |} in
  let st := {| Chrome.siteWhitelist := Some ∅; Chrome.extensionSettings := None |} in
  let after := ActionRouter.actionRouter browser
                 (ActionRouter.enableFeature (Js.str "constructor")
                    (Js.str "copyRewrite")) st in
  snd after = Chrome.resolves (ActionRouter.Success true)
  /\ Aux.site (fst after) (Js.str "constructor")
     = Some {| Chrome.enabled := None;
               Chrome.features := {[ Js.str "copyRewrite" := true ]};
               Chrome.addedAt := None |}
  /\ ServiceWorker.isSiteWhitelisted (Js.str "constructor") (fst after) = false
  /\ (forall channel browser' protocol,
        Aux.page_load channel browser' protocol (Js.str "constructor")
          (fst after) = []).
Proof.
  intros browser st.
  apply (prototype_name_passes_the_guard browser true (Js.str "constructor")
           (Js.str "copyRewrite") st ∅).
  - reflexivity.
  - reflexivity.
  - refine (bool_decide_unpack _ _). vm_compute. exact I.
Defined.

(** X13. Installing or updating the extension keeps the whitelist: every
    site has the record it had and answers [checkPermissions] as before.
    The whitelist is then set (to the empty one if it was not), the settings
    are the defaults with telemetry off, and a second run changes nothing. *)
Theorem install_keeps_the_whitelist (st : Chrome.Storage) (hostname : Js.jstr) :
  let st' := ServiceWorker.onInstalled st in
  Aux.site st' hostname = Aux.site st hostname
  /\ (forall browser,
        snd (ActionRouter.actionRouter browser
               (ActionRouter.checkPermissions hostname) st')
        = snd (ActionRouter.actionRouter browser
                 (ActionRouter.checkPermissions hostname) st))
  /\ Chrome.siteWhitelist st' = Some (Chrome.spread (Chrome.siteWhitelist st))
  /\ Chrome.extensionSettings st'
     = Some {| Chrome.telemetryEnabled := false; Chrome.maxCharLimit := 20000;
               Chrome.retentionDays := 30 |}
  /\ ServiceWorker.onInstalled st' = st'.
Proof.
  intros st'.
  assert (Hsite : Aux.site st' hostname = Aux.site st hostname).
  { unfold st'. by destruct st as [[w|] s]. }
  split; [done|]. split; [|split; [|split]].
  - intros browser. cbn [ActionRouter.actionRouter].
    by rewrite !check_reply, Hsite.
  - unfold st'. by destruct st as [[w|] s].
  - done.
  - unfold st'. by destruct st as [[w|] s].
Qed.

(** X14. The content script starts its copy interceptor, or its observer,
    on a page exactly when the page is no extension page, its
    [checkPermissions] message is delivered and answered, its hostname has a
    record in the whitelist that is enabled, and the record has the flag of
    that part ([copyRewrite], [observers]) set.  When sending the message
    fails, nothing starts, whatever the whitelist holds. *)
Theorem content_script_is_gated (channel : Chrome.promise unit)
    (browser : Chrome.Browser) (protocol hostname : Js.jstr)
    (st : Chrome.Storage) (x : ContentBootstrap.Started) :
  (x ∈ ContentBootstrap.bootstrap protocol
         (Aux.sendMessage channel browser
            (ActionRouter.checkPermissions hostname) st)
   <-> protocol <> Js.str "chrome-extension:"
       /\ channel = Chrome.resolves tt
       /\ exists p,
            Aux.site st hostname = Some p
            /\ Chrome.enabled p = Some true
            /\ Chrome.features p !! Js.str (Aux.flag_of x) = Some true)
  /\ (forall failure,
        ContentBootstrap.bootstrap protocol (Chrome.rejects failure) = []).
Proof.
  split; [|by intros failure; unfold ContentBootstrap.bootstrap; case_bool_decide].
  fold (Aux.page_load channel browser protocol hostname st).
  rewrite page_load_site. case_bool_decide as Hp.
  { rewrite elem_of_nil. tauto. }
  destruct channel as [[]|failure].
  2: { rewrite elem_of_nil. split; [done|]. by intros (_ & Hc & _). }
  destruct (Aux.site st hostname) as [p|].
  - destruct (Chrome.enabled p) as [[]|] eqn:He; simpl.
    + rewrite elem_of_initializeFeatures. split.
      * intros Hx. split; [done|]. split; [done|]. by exists p.
      * intros (_ & _ & p' & Hp' & _ & Hx). by inversion Hp'; subst.
    + rewrite elem_of_nil. split; [done|].
      intros (_ & _ & p' & Hp' & He' & _). inversion Hp'; subst. congruence.
    + rewrite elem_of_nil. split; [done|].
      intros (_ & _ & p' & Hp' & He' & _). inversion Hp'; subst. congruence.
  - rewrite elem_of_nil. split; [done|]. by intros (_ & _ & p' & Hp' & _).
Qed.

(** ** More on the two workers *)

Section StageFacts.
Import Js Aux TransformWorker.

Lemma slice0_as_take {A} (fin : Z) (a : list A) :
  slice0 fin a
  = take (Z.to_nat (if fin <? 0 then Z.max (Z.of_nat (length a) + fin) 0
                    else Z.min fin (Z.of_nat (length a)))) a.
Proof. reflexivity. Qed.

(** The sentence ends of sentences joined by single spaces. *)
Lemma joined_ends (hs : list jstr) :
  Forall sentence_shaped hs ->
  Spec.sentenceEnds (join (str " ") hs) = Z.of_nat (length hs).
Proof.
  intros Hsh. unfold Spec.sentenceEnds.
  rewrite <- (sentence_count _ None).
  destruct hs as [|h hs]; [done|].
  pose proof (count_joined (h :: hs) [] None ltac:(done) Hsh ltac:(constructor))
    as Hc.
  change ([] ++ join (str " ") (h :: hs)) with (join (str " ") (h :: hs)) in Hc.
  by rewrite Hc.
Qed.

(** The sentences of a text are its matches, one for each sentence end,
    or the text alone when it has no sentence end. *)
Lemma sentences_of_ends (text : jstr) :
  (Spec.sentenceEnds text = 0 /\ sentences_of text = [text])
  \/ (1 <= Spec.sentenceEnds text
      /\ Forall sentence_shaped (sentences_of text)
      /\ Z.of_nat (length (sentences_of text)) = Spec.sentenceEnds text).
Proof.
  unfold sentences_of, match_g, Spec.sentenceEnds.
  pose proof (sentences_shaped None text) as Hsh.
  pose proof (sentence_count text None) as Hc.
  destruct (hits (scan sentence_re None O text)) as [|h hs].
  - left. split; [by rewrite <- Hc|done].
  - right. rewrite <- Hc. cbn [length]. split; [lia|done].
Qed.

(** The sentence ends the first sentences of a text have, joined. *)
Lemma slice0_ends (text : jstr) (fin : Z) :
  let n := Z.of_nat (length (sentences_of text)) in
  Spec.sentenceEnds (join (str " ") (slice0 fin (sentences_of text)))
  = Z.min (Spec.sentenceEnds text)
      (if fin <? 0 then Z.max 0 (n + fin) else Z.min fin n).
Proof.
  intros n. rewrite slice0_as_take. fold n.
  destruct (sentences_of_ends text) as [[Hnone Hone]|(Hsome & Hsh & Hlen)].
  - rewrite Hnone. unfold n. rewrite Hone. cbn [length].
    destruct (Z.to_nat _) as [|k] eqn:Ek.
    + rewrite take_0. cbn [join]. unfold Spec.sentenceEnds. simpl.
      destruct (Z.ltb_spec fin 0); lia.
    + cbn [take]. rewrite take_nil. cbn [join]. rewrite Hnone.
      destruct (Z.ltb_spec fin 0); lia.
  - rewrite joined_ends by by apply Forall_take.
    rewrite length_take. fold n in Hlen.
    destruct (Z.ltb_spec fin 0); lia.
Qed.

Lemma Qceiling_part (n : Z) (q : Q) :
  0 <= n -> (q <= 1)%Q -> Qceiling (inject_Z n * q) <= n.
Proof.
  intros Hn Hq.
  assert (Hle : (inject_Z n * q <= inject_Z n)%Q).
  { rewrite Qmult_comm. rewrite <- (Qmult_1_l (inject_Z n)) at 2.
    apply Qmult_le_compat_r; [done|].
    change 0%Q with (inject_Z 0). by rewrite <- Zle_Qle. }
  apply Qceiling_resp_le in Hle. by rewrite Qceiling_Z in Hle.
Qed.

End StageFacts.

Section LongFacts.
Import Js Aux TransformWorker.

(** Runs of text and their ends: every run ends at terminal punctuation,
    but for the one the text may end with. *)
Lemma runs_ends_from (b : bool) (s : jstr) :
  Spec.runs_from nonterm b s + (if b then 1 else 0)
  = Spec.ends_from b s
    + (if match last s with Some c => nonterm c | None => b end then 1 else 0).
Proof.
  revert b. induction s as [|c s IH]; intros b; [simpl; lia|].
  cbn [Spec.runs_from Spec.ends_from]. rewrite last_cons.
  destruct (is_terminator c) eqn:Hc; cbn [negb].
  - specialize (IH false).
    destruct (last s) as [a|]; [destruct (is_terminator a)|rewrite Hc];
      destruct b; simpl in *; lia.
  - specialize (IH true).
    destruct (last s) as [a|]; [destruct (is_terminator a)|rewrite Hc];
      destruct b; simpl in *; lia.
Qed.

Lemma sentences_ends (s : jstr) :
  Spec.sentences s
  = Spec.sentenceEnds s
    + (if match last s with Some c => nonterm c | None => false end
       then 1 else 0).
Proof.
  unfold Spec.sentences, Spec.runs, Spec.sentenceEnds.
  pose proof (runs_ends_from false s) as H. by rewrite Z.add_0_r in H.
Qed.

Lemma shaped_closed (h : jstr) :
  sentence_shaped h -> exists c, last h = Some c /\ is_terminator c = true.
Proof.
  intros (a & b & -> & _ & _ & Hb & Hall).
  destruct (last b) as [c|] eqn:E; [|by apply last_None in E].
  exists c. split.
  - rewrite last_app, E. done.
  - rewrite Forall_forall in Hall. apply Hall.
    apply last_Some in E as [l' ->]. apply elem_of_app. right. by left.
Qed.

Lemma joined_closed (hs : list jstr) :
  hs <> [] -> Forall sentence_shaped hs ->
  exists c, last (join (str " ") hs) = Some c /\ is_terminator c = true.
Proof.
  induction hs as [|h hs IH]; [done|]. intros _ Hall.
  apply Forall_cons in Hall as [Hh Hall].
  destruct hs as [|h2 hs]; [by apply shaped_closed|].
  destruct (IH ltac:(done) Hall) as (c & Hc & Ht).
  exists c. split; [|done].
  change (join (str " ") (h :: h2 :: hs))
    with (h ++ str " " ++ join (str " ") (h2 :: hs)).
  by rewrite !last_app, Hc.
Qed.

(** Sentences that end, joined: as many sentences, none left open. *)
Lemma joined_sentences (hs : list jstr) :
  hs <> [] -> Forall sentence_shaped hs ->
  Spec.sentences (join (str " ") hs) = Z.of_nat (length hs).
Proof.
  intros Hne Hall. rewrite sentences_ends, joined_ends by done.
  destruct (joined_closed hs Hne Hall) as (c & -> & Hc).
  rewrite Hc. simpl. lia.
Qed.

Lemma long_result (text : jstr) (customLength : option Z) :
  fst (applyLengthTransform text long customLength)
  = join (str " ") (sentences_of text).
Proof.
  unfold applyLengthTransform. cbn [fst targetSentences]. by rewrite slice0_all.
Qed.

Lemma sentenceEnds_nonneg (s : jstr) : 0 <= Spec.sentenceEnds s.
Proof. unfold Spec.sentenceEnds. rewrite <- (sentence_count s None). lia. Qed.

Lemma ends_le_sentences (s : jstr) :
  Spec.sentenceEnds s <= Spec.sentences s <= Spec.sentenceEnds s + 1.
Proof.
  rewrite sentences_ends. destruct (last s) as [c|]; [destruct (negb _)|]; lia.
Qed.

(** The first sentences of a text, joined, are never more than its
    sentences. *)
Lemma slice0_sentences (text : jstr) (fin : Z) :
  Spec.sentences (join (str " ") (slice0 fin (sentences_of text)))
  <= Spec.sentences text.
Proof.
  rewrite slice0_as_take. pose proof (ends_le_sentences text) as Hle.
  pose proof (sentenceEnds_nonneg text) as H0.
  destruct (sentences_of_ends text) as [[Hnone Hone]|(Hsome & Hsh & Hlen)].
  - rewrite Hone. destruct (Z.to_nat _) as [|k]; cbn [take join].
    + change (Spec.sentences []) with 0. lia.
    + rewrite take_nil. cbn [join]. lia.
  - destruct (take _ (sentences_of text)) as [|h hs] eqn:E.
    + change (Spec.sentences (join (str " ") [])) with 0. lia.
    + rewrite joined_sentences; [|done|rewrite <- E; by apply Forall_take].
      rewrite <- E, length_take. lia.
Qed.

(** Characters added in front of a text or behind it take no run away. *)
Lemma runs_from_states (p : ascii -> bool) (s : jstr) :
  0 <= Spec.runs_from p true s
  /\ Spec.runs_from p true s <= Spec.runs_from p false s
     <= Spec.runs_from p true s + 1.
Proof.
  induction s as [|c s IH]; simpl; [lia|]. destruct (p c); lia.
Qed.

Lemma runs_from_behind (p : ascii -> bool) (b : bool) (s sp : jstr) :
  Spec.runs_from p b s <= Spec.runs_from p b (s ++ sp).
Proof.
  revert b. induction s as [|c s IH]; intros b; simpl.
  - pose proof (runs_from_states p sp). destruct b; lia.
  - destruct (p c); [pose proof (IH true)|pose proof (IH false)]; lia.
Qed.

Lemma runs_in_front (p : ascii -> bool) (sp s : jstr) :
  Spec.runs p s <= Spec.runs p (sp ++ s).
Proof.
  unfold Spec.runs. induction sp as [|c sp IH]; simpl; [lia|].
  pose proof (runs_from_states p (sp ++ s)). destruct (p c); lia.
Qed.

Lemma sentences_trim (s : jstr) : Spec.sentences (trim s) <= Spec.sentences s.
Proof.
  unfold Spec.sentences, trim.
  destruct (trimStart_split s) as (sp1 & E1 & _).
  destruct (trimEnd_split (trimStart s)) as (sp2 & E2 & _).
  pose proof (runs_in_front nonterm sp1 (trimStart s)) as H1.
  rewrite <- E1 in H1.
  pose proof (runs_from_behind nonterm false (trimEnd (trimStart s)) sp2) as H2.
  rewrite <- E2 in H2. unfold Spec.runs in *. lia.
Qed.

End LongFacts.

(** X15. The change ratio does not depend on which of the two texts is the
    original. *)
Theorem change_ratio_symmetric (original transformed : Js.jstr) :
  TransformWorker.calculateChangeRatio original transformed
  = TransformWorker.calculateChangeRatio transformed original.
Proof.
  unfold TransformWorker.calculateChangeRatio.
  set (a := Z.of_nat (length (Js.split TransformWorker.spaces_re original))).
  set (b := Z.of_nat (length (Js.split TransformWorker.spaces_re transformed))).
  rewrite (Z.max_comm a b).
  by replace (Z.abs (a - b)) with (Z.abs (b - a)) by lia.
Qed.

(** X16. The length stage never adds a sentence (a maximal run of
    characters other than terminal punctuation), nor a sentence end, a place
    where terminal punctuation follows other text.  The stage counts [n]
    sentences, one for each of the [m] sentence ends of the text and one for
    a text that has none; with its target [t] it keeps the first
    [min(t, n)] of them for a [t] that is not negative and drops the last
    [-t] (all of them, when there are no more) for a negative one, and the
    text it returns has that many sentence ends, never more than [m].  In
    the modes short, medium and long a text with a sentence end is returned
    with exactly [t] of them. *)
Theorem length_stage_sentence_count (text : Js.jstr)
    (length : TransformWorker.Length) (customLength : option Z) :
  let sentences := TransformWorker.sentences_of text in
  let n := Z.of_nat (List.length sentences) in
  let t := TransformWorker.targetSentences sentences length customLength in
  let kept := if t <? 0 then Z.max 0 (n + t) else Z.min t n in
  let result :=
    fst (TransformWorker.applyLengthTransform text length customLength) in
  n = Z.max 1 (Spec.sentenceEnds text)
  /\ Spec.sentenceEnds result = Z.min (Spec.sentenceEnds text) kept
  /\ Spec.sentenceEnds result <= Spec.sentenceEnds text
  /\ Spec.sentences result <= Spec.sentences text
  /\ (length <> TransformWorker.custom ->
      (1 <= Spec.sentenceEnds text -> Spec.sentenceEnds result = t)
      /\ (Spec.sentenceEnds text = 0 -> result = text)).
Proof.
  intros sentences n t kept result.
  assert (Hn : n = Z.max 1 (Spec.sentenceEnds text)).
  { unfold n, sentences.
    destruct (sentences_of_ends text) as [[Hnone Hone]|(Hsome & _ & Hlen)].
    - rewrite Hone, Hnone. done.
    - lia. }
  assert (Hends : Spec.sentenceEnds result = Z.min (Spec.sentenceEnds text) kept).
  { unfold result, TransformWorker.applyLengthTransform. cbn [fst].
    apply slice0_ends. }
  split; [done|]. split; [done|]. split; [lia|].
  split.
  { unfold result, TransformWorker.applyLengthTransform. cbn [fst].
    apply slice0_sentences. }
  intros Hmode.
  assert (Ht : 1 <= t <= n).
  { unfold t, TransformWorker.targetSentences. fold sentences. fold n.
    destruct length; try done.
    - pose proof (Qceiling_part n (3 # 10) ltac:(lia) ltac:(done)). lia.
    - pose proof (Qceiling_part n (6 # 10) ltac:(lia) ltac:(done)). lia.
    - lia. }
  split.
  - intros Hsome. rewrite Hends. unfold kept.
    destruct (Z.ltb_spec t 0); lia.
  - intros Hnone. unfold result, TransformWorker.applyLengthTransform.
    cbn [fst]. fold sentences. fold t.
    assert (t = 1) as -> by lia.
    destruct (sentences_of_ends text) as [[_ Hone]|(Hsome & _)]; [|lia].
    unfold sentences. rewrite Hone. reflexivity.
Qed.

(** C5. In mode [long] the length stage loses the text after the last
    terminal punctuation: of the two sentences of [Dear team. Please read
    the attached notes] it returns the first.  What it keeps are the
    sentences that end in terminal punctuation: the text returned has the
    sentence ends of the text given and no sentence besides, so that a
    sentence is lost exactly when the text goes on after its last terminal
    punctuation; a text without a sentence end is returned as it is. *)
Theorem long_drops_unfinished_sentence :
  let text := Js.str "Dear team. Please read the attached notes" in
  TransformWorker.applyLengthTransform text TransformWorker.long None
  = (Js.str "Dear team.", Js.str "length_long_1_sentences")
  /\ Spec.sentences text = 2
  /\ Spec.sentences
       (fst (TransformWorker.applyLengthTransform text TransformWorker.long None))
     = 1
  /\ (forall t customLength,
        let result :=
          fst (TransformWorker.applyLengthTransform t TransformWorker.long
                 customLength) in
        Spec.sentenceEnds result = Spec.sentenceEnds t
        /\ Spec.sentenceEnds t <= Spec.sentences t <= Spec.sentenceEnds t + 1
        /\ (1 <= Spec.sentenceEnds t -> Spec.sentences result = Spec.sentenceEnds t)
        /\ (Spec.sentenceEnds t = 0 -> result = t)).
Proof.
  intros text.
  split; [by vm_compute|]. split; [by vm_compute|]. split; [by vm_compute|].
  intros t customLength result. unfold result. rewrite long_result.
  pose proof (ends_le_sentences t) as Hle.
  destruct (sentences_of_ends t) as [[Hnone Hone]|(Hsome & Hsh & Hlen)].
  - rewrite Hone. cbn [Js.join]. split; [done|]. split; [done|]. split; [lia|done].
  - assert (Hne : TransformWorker.sentences_of t <> []).
    { intros E. rewrite E in Hlen. simpl in Hlen. lia. }
    rewrite joined_ends, joined_sentences by done.
    split; [done|]. split; [done|]. split; [done|lia].
Qed.

Section TableFacts.
Import Js Aux.

(** The keys of a table of counts, most frequent first, cut to [K]. *)
Lemma top_of_tally (l : list jstr) (K : Z) :
  0 <= K ->
  map fst (slice0 K (sort_by (fun a b => snd b - snd a)
                       (entries (fold_left (fun freq w => bump w freq) l []))))
  = Spec.keywords_enumerated l K.
Proof.
  intros HK. unfold Spec.keywords_enumerated.
  rewrite tally, entries_counted, slice0_take by done.
  rewrite (sort_by_map (fun k => (k, Spec.occurrences l k)) (Spec.by_frequency l))
    by done.
  rewrite <- fmap_take, <- list_fmap_compose.
  apply list_fmap_id.
Qed.

Lemma keywords_enumerated_facts (l : list jstr) (K : Z) :
  0 <= K ->
  NoDup (Spec.keywords_enumerated l K)
  /\ Z.of_nat (length (Spec.keywords_enumerated l K)) <= K
  /\ (forall k, k ∈ Spec.keywords_enumerated l K -> k ∈ l).
Proof.
  intros HK. unfold Spec.keywords_enumerated.
  set (sorted := sort_by (Spec.by_frequency l) (Spec.enumeration (Spec.firsts l))).
  assert (Hperm : sorted ≡ₚ Spec.firsts l).
  { unfold sorted. by rewrite sort_by_perm, enumeration_perm. }
  split; [|split].
  - apply (sublist_NoDup _ sorted); [|apply sublist_take].
    rewrite Hperm. apply NoDup_firsts.
  - rewrite length_take. lia.
  - intros k Hk. apply elem_of_take in Hk as (i & Hi & _).
    apply elem_of_firsts. rewrite <- Hperm. by eapply list_elem_of_lookup_2.
Qed.

Lemma round_nonneg (x : Q) : (0 <= x)%Q -> 0 <= round x.
Proof.
  intros Hx. unfold round.
  change 0 with (Qfloor (inject_Z 0)). apply Qfloor_resp_le.
  change (inject_Z 0) with (0 + 0)%Q. by apply Qplus_le_compat.
Qed.

End TableFacts.

(** X17. A transform request is answered under its own id.  It fails only
    when it is cancelled, or when its style is [__proto__] in whatever case;
    otherwise [rulesApplied] has one rule for each of [length], a non-empty
    [tone] and a non-empty [style] that the settings give.  The [prompt] of
    the settings is never read. *)
Theorem transform_response (request : TransformWorker.TransformRequest)
    (aborted : bool) (prompt : option Js.jstr) :
  let settings :=
    default TransformWorker.no_settings
      (TransformWorker.payload_settings request) in
  match TransformWorker.performTransform request aborted with
  | TransformWorker.ok rid result =>
      rid = TransformWorker.id request
      /\ aborted = false
      /\ length (TransformWorker.rulesApplied result)
         = (Aux.given (TransformWorker.length_ settings)
            + Aux.given (TransformWorker.truthy (TransformWorker.tone settings))
            + Aux.given (TransformWorker.truthy (TransformWorker.style settings)))%nat
  | TransformWorker.err rid error =>
      rid = TransformWorker.id request
      /\ (if aborted then error = Js.str "Transform cancelled"
          else exists style,
                 TransformWorker.truthy (TransformWorker.style settings) = Some style
                 /\ Js.toLowerCase style = Js.str "__proto__")
  end
  /\ TransformWorker.performTransform (Aux.with_prompt prompt request) aborted
     = TransformWorker.performTransform request aborted.
Proof.
  intros settings. split; [|done].
  unfold TransformWorker.performTransform. fold settings.
  destruct aborted; [done|].
  destruct (TransformWorker.length_ settings) as [l|];
    destruct (TransformWorker.truthy (TransformWorker.tone settings)) as [t|];
    destruct (TransformWorker.truthy (TransformWorker.style settings)) as [s|];
    cbn [Aux.given]; try done.
  all: unfold TransformWorker.applyStyleTransform, TransformWorker.STYLE_PATTERNS.
  all: repeat case_bool_decide; try done.
  all: split; [done|]; by exists s.
Qed.

Section TokenFacts.
Import Js Aux.

Lemma lower_not_upper (c : ascii) : is_upper (lower c) = false.
Proof. by destruct c as [[] [] [] [] [] [] [] []]. Qed.

Lemma lower_idem (c : ascii) : lower (lower c) = lower c.
Proof. by destruct c as [[] [] [] [] [] [] [] []]. Qed.

Lemma lower_word_space (c : ascii) :
  is_word (lower c) = is_word c /\ is_space (lower c) = is_space c.
Proof. by destruct c as [[] [] [] [] [] [] [] []]. Qed.

Lemma toLowerCase_idem (s : jstr) : toLowerCase (toLowerCase s) = toLowerCase s.
Proof.
  unfold toLowerCase. rewrite map_map. apply map_ext. apply lower_idem.
Qed.

(** The lower-cased text without its punctuation, cut at white space. *)
Lemma clean_pieces (text : jstr) :
  split (Rep 1 is_space)
    (replace_g (Chr (fun c => negb (is_word c || is_space c))) []
       (toLowerCase text))
  = Spec.pieces (List.filter (fun c => is_word c || is_space c) (toLowerCase text)).
Proof.
  rewrite split_spaces, replace_g_emit, replace_class.
  f_equal. apply filter_ext_bool. intros c. apply negb_involutive.
Qed.

Lemma pieces_from_chars (P : ascii -> Prop) (s cur : jstr) (b : bool) :
  Forall P cur ->
  Forall (fun c => is_space c = false -> P c) s ->
  Forall (Forall P) (Spec.pieces_from cur b s).
Proof.
  revert cur b. induction s as [|c s IH]; intros cur b Hcur Hs; simpl.
  { constructor; [|done]. apply Forall_forall. intros x Hx.
    apply list_elem_of_In, in_rev, list_elem_of_In in Hx.
    by eapply Forall_forall in Hcur. }
  apply Forall_cons in Hs as [Hc Hs].
  destruct (is_space c) eqn:Esp.
  - destruct b; [by apply IH|].
    constructor; [|by apply IH].
    apply Forall_forall. intros x Hx.
    apply list_elem_of_In, in_rev, list_elem_of_In in Hx.
    by eapply Forall_forall in Hcur.
  - apply IH; [|done]. constructor; [by apply Hc|done].
Qed.

(** Every piece of the cleaned text is made of lower-case letters, digits
    and underscores. *)
Lemma clean_pieces_lower (text : jstr) :
  Forall lower_word
    (Spec.pieces (List.filter (fun c => is_word c || is_space c) (toLowerCase text))).
Proof.
  apply pieces_from_chars; [constructor|].
  apply Forall_forall. intros c Hc Hsp.
  apply elem_of_filter_bool in Hc as [Hc Hws].
  rewrite Hsp, orb_false_r in Hws. split; [done|].
  unfold toLowerCase in Hc. apply list_elem_of_In, in_map_iff in Hc as (c0 & <- & _).
  apply lower_not_upper.
Qed.

Lemma quotient_nonneg (a b : Z) :
  0 <= a -> 0 < b -> (0 <= inject_Z a / inject_Z b)%Q.
Proof.
  intros Ha Hb. apply Qle_shift_div_l.
  - change 0%Q with (inject_Z 0). by rewrite <- Zlt_Qlt.
  - rewrite Qmult_0_l. change 0%Q with (inject_Z 0). by rewrite <- Zle_Qle.
Qed.

End TokenFacts.

(** X18. The analysis of the transform worker, for a text whose counted
    words do not name a member of [Object.prototype]: the score lies between
    0 and 100; the keywords are at most ten, all different, each of more
    than three characters, all of them lower-case letters, digits or
    underscores, and each a word of the text; the summary has no white space
    at either end. *)
Theorem analysis_is_bounded (request : TransformWorker.TransformRequest) :
  let words := Aux.analysis_words (TransformWorker.payload_text request) in
  Forall (fun w => Js.inherited w = false) words ->
  exists result,
    TransformWorker.performAnalyze request false
    = TransformWorker.ok (TransformWorker.id request) result
    /\ 0 <= TransformWorker.score result <= 100
    /\ TransformWorker.keywords result = Spec.keywords_enumerated words 10
    /\ NoDup (TransformWorker.keywords result)
    /\ (length (TransformWorker.keywords result) <= 10)%nat
    /\ (forall k, k ∈ TransformWorker.keywords result ->
        k ∈ words /\ (3 < length k)%nat /\ Aux.lower_word k)
    /\ Js.trim (TransformWorker.summary result) = TransformWorker.summary result.
Proof.
  intros words _. eexists. split; [reflexivity|]. cbn [TransformWorker.score
    TransformWorker.keywords TransformWorker.summary].
  fold (Aux.analysis_words (TransformWorker.payload_text request)). fold words.
  rewrite top_of_tally by lia.
  destruct (keywords_enumerated_facts words 10 ltac:(lia)) as (Hnd & Hlen & Hin).
  split; [|split; [done|split; [done|split; [lia|split]]]].
  - split; [|lia]. apply Z.min_glb; [lia|]. apply round_nonneg.
    pose proof (sentences_of_nonempty (TransformWorker.payload_text request)) as Hn.
    destruct (Nat.ltb_spec 0 (length (TransformWorker.sentences_of
                                        (TransformWorker.payload_text request))))
      as [Hpos|?]; [|lia].
    apply Qmult_le_0_compat; [|done]. apply quotient_nonneg; lia.
  - intros k Hk. apply Hin in Hk. split; [done|].
    unfold words, Aux.analysis_words in Hk.
    apply elem_of_filter_bool in Hk as [Hk Hlong].
    apply Nat.ltb_lt in Hlong. split; [done|].
    unfold TransformWorker.spaces_re, TransformWorker.punct_re in Hk.
    rewrite clean_pieces in Hk.
    pose proof (clean_pieces_lower (TransformWorker.payload_text request)) as Hl.
    by eapply Forall_forall in Hl.
  - apply trim_idem.
Qed.

(** The text of a short note. *)
Lemma analysis_is_bounded_witness :
  exists result,
    TransformWorker.performAnalyze
      {| TransformWorker.id := Js.str "r1";
         TransformWorker.type := TransformWorker.Analyze;
         TransformWorker.payload_text :=
           Js.str "Quick notes: the Parser reads tokens. Tokens feed the parser!";
         TransformWorker.payload_settings := None |} false
    = TransformWorker.ok (Js.str "r1") result
    /\ 0 <= TransformWorker.score result <= 100
    /\ TransformWorker.keywords result
       = map Js.str ["parser"; "tokens"; "quick"; "notes"; "reads"; "feed"]%string.
Proof.
  destruct (analysis_is_bounded
              {| TransformWorker.id := Js.str "r1";
                 TransformWorker.type := TransformWorker.Analyze;
                 TransformWorker.payload_text :=
                   Js.str "Quick notes: the Parser reads tokens. Tokens feed the parser!";
                 TransformWorker.payload_settings := None |})
    as (result & Hok & Hscore & Hkw & _).
  - vm_compute. repeat constructor.
  - exists result. split; [exact Hok|]. split; [exact Hscore|].
    rewrite Hkw. vm_compute. reflexivity.
Defined.

Section SummaryFacts.
Import Js Aux.

Lemma slice0_elem_of {A} (fin : Z) (a : list A) (x : A) : x ∈ slice0 fin a -> x ∈ a.
Proof.
  rewrite slice0_as_take. intros Hx. apply elem_of_take in Hx as (i & Hi & _).
  by eapply list_elem_of_lookup_2.
Qed.

(** Whatever the cut, the keys of the table are words that were counted. *)
Lemma top_of_tally_elem_of (l : list jstr) (K : Z) (k : jstr) :
  k ∈ map fst (slice0 K (sort_by (fun a b => snd b - snd a)
                           (entries (fold_left (fun freq w => bump w freq) l []))))
  -> k ∈ l.
Proof.
  intros Hk. apply list_elem_of_fmap in Hk as ([k' n] & -> & Hk).
  apply slice0_elem_of in Hk. rewrite sort_by_perm in Hk.
  rewrite tally, entries_counted in Hk.
  apply list_elem_of_fmap in Hk as (k0 & Heq & Hk). inversion Heq; subst.
  simpl. rewrite enumeration_perm in Hk. by apply (proj1 (elem_of_firsts _ _)) in Hk.
Qed.

Lemma filter_lower_clean (text : jstr) :
  List.filter (fun c => is_word c || is_space c)
    (toLowerCase (List.filter (fun c => is_word c || is_space c) text))
  = List.filter (fun c => is_word c || is_space c) (toLowerCase text).
Proof.
  induction text as [|c text IH]; [done|]. simpl.
  destruct (lower_word_space c) as [Hw Hs].
  destruct (is_word c || is_space c) eqn:E; simpl; rewrite Hw, Hs, E; by rewrite IH.
Qed.

Lemma space_not_terminator (c : ascii) : is_space c = true -> is_terminator c = false.
Proof. by destruct c as [[] [] [] [] [] [] [] []]. Qed.

Lemma ends_from_mono (s : jstr) : Spec.ends_from false s <= Spec.ends_from true s.
Proof. destruct s as [|c s]; simpl; [done|]. destruct (is_terminator c); lia. Qed.

Lemma ends_from_trimStart (s : jstr) :
  Spec.ends_from false (trimStart s) <= Spec.ends_from false s.
Proof.
  induction s as [|c s IH]; simpl; [done|].
  destruct (is_space c) eqn:E; [|simpl; lia].
  rewrite (space_not_terminator c E). pose proof (ends_from_mono s). lia.
Qed.

Lemma ends_from_trailing (x sp : jstr) (b : bool) :
  Forall (fun c => nonterm c = true) sp ->
  Spec.ends_from b (x ++ sp) = Spec.ends_from b x.
Proof.
  intros Hsp. revert b. induction x as [|c x IH]; intros b; simpl.
  - rewrite ends_from_none by done. by destruct b.
  - destruct (is_terminator c); by rewrite IH.
Qed.

Lemma ends_from_trim (s : jstr) :
  Spec.ends_from false (trim s) <= Spec.ends_from false s.
Proof.
  unfold trim. destruct (trimEnd_split (trimStart s)) as (sp & Hs & Hsp).
  pose proof (ends_from_trimStart s) as H1. rewrite Hs in H1 at 1.
  rewrite ends_from_trailing in H1; [done|].
  eapply Forall_impl; [exact Hsp|]. intros c Hc. simpl in Hc.
  by rewrite (space_not_terminator c Hc).
Qed.

Lemma lower_fixed (c : ascii) : is_lower c = true -> lower c = c.
Proof. by destruct c as [[] [] [] [] [] [] [] []]. Qed.

Lemma letters_idem (word : jstr) : Spec.letters (Spec.letters word) = Spec.letters word.
Proof.
  unfold Spec.letters. induction (toLowerCase word) as [|c l IH]; [done|].
  simpl. destruct (is_lower c) eqn:E; [|done].
  simpl. rewrite (lower_fixed c E), E. simpl. f_equal. exact IH.
Qed.

Lemma heuristic_bounds (w : jstr) :
  1 <= Spec.heuristic w <= Z.max 1 (Spec.runs is_vowel w).
Proof.
  unfold Spec.heuristic, endsWith. simpl rev.
  destruct (rev w) as [|b [|b' r]]; simpl; try lia;
    destruct (eqc "e" b); simpl; try lia;
    destruct (eqc "l" b'); simpl; try lia;
    destruct (2 <? length w)%nat; lia.
Qed.

End SummaryFacts.

(** X19. Keyword extraction does not see the case of letters: the text in
    lower case has the keywords of the text, whatever the limit, and so has
    the normal form the extraction works on (the text in lower case without
    its characters that are neither word characters nor white space).  Every
    keyword is made of lower-case letters, digits and underscores. *)
Theorem keywords_ignore_case (text : Js.jstr) (maxKeywords : option Z) :
  NlpWorker.extractKeywords (Js.toLowerCase text) maxKeywords
  = NlpWorker.extractKeywords text maxKeywords
  /\ NlpWorker.extractKeywords
       (Js.replace_g NlpWorker.punct_re [] (Js.toLowerCase text)) maxKeywords
     = NlpWorker.extractKeywords text maxKeywords
  /\ Forall Aux.lower_word (NlpWorker.extractKeywords text maxKeywords).
Proof.
  split; [|split].
  - unfold NlpWorker.extractKeywords, NlpWorker.keyword_tokens.
    by rewrite toLowerCase_idem.
  - unfold NlpWorker.extractKeywords. rewrite !keyword_tokens_spec.
    unfold Spec.tokens.
    assert (Hclean : Js.replace_g NlpWorker.punct_re [] (Js.toLowerCase text)
                     = List.filter (fun c => Js.is_word c || Js.is_space c)
                         (Js.toLowerCase text)).
    { rewrite replace_g_emit. unfold NlpWorker.punct_re. rewrite replace_class.
      apply filter_ext_bool. intros c. apply negb_involutive. }
    by rewrite Hclean, filter_lower_clean, toLowerCase_idem.
  - apply Forall_forall. intros k Hk. unfold NlpWorker.extractKeywords in Hk.
    apply top_of_tally_elem_of in Hk. rewrite keyword_tokens_spec in Hk.
    unfold Spec.tokens in Hk. apply elem_of_filter_bool in Hk as [Hk _].
    pose proof (clean_pieces_lower text) as Hl.
    by eapply Forall_forall in Hl.
Qed.

(** X20. A summary has no white space at either end, never more
    sentences (maximal runs of characters other than terminal punctuation)
    than the text and never more sentence ends (places where terminal
    punctuation follows other text); for a limit that is not negative (2 by default) it has at
    most that many, none for the limit 0.  A text without a sentence match is
    its own summary, trimmed, for every limit from 1 on. *)
Theorem summary_is_bounded (text : Js.jstr) (summaryLength : option Z) :
  let N := default 2 summaryLength in
  let summary := NlpWorker.extractiveSummarize text summaryLength in
  Js.trim summary = summary
  /\ Spec.sentences summary <= Spec.sentences text
  /\ Spec.sentenceEnds summary <= Spec.sentenceEnds text
  /\ (0 <= N -> Spec.sentenceEnds summary <= N)
  /\ (N = 0 -> summary = [])
  /\ (Js.match_g NlpWorker.sentence_re text = None -> 1 <= N ->
      summary = Js.trim text).
Proof.
  intros N summary.
  set (n := Z.of_nat (length (NlpWorker.sentences_of text))).
  assert (Hsum : summary
            = Js.trim (Js.join (Js.str " ")
                         (Js.slice0 (Z.min N n) (NlpWorker.sentences_of text))))
    by reflexivity.
  pose proof (slice0_ends text (Z.min N n)) as Hjoined.
  cbv zeta in Hjoined.
  change (TransformWorker.sentences_of text)
    with (NlpWorker.sentences_of text) in Hjoined.
  fold n in Hjoined.
  pose proof (ends_from_trim (Js.join (Js.str " ")
                (Js.slice0 (Z.min N n) (NlpWorker.sentences_of text)))) as Htrim.
  fold (Spec.sentenceEnds
          (Js.trim (Js.join (Js.str " ")
             (Js.slice0 (Z.min N n) (NlpWorker.sentences_of text))))) in Htrim.
  fold (Spec.sentenceEnds
          (Js.join (Js.str " ")
             (Js.slice0 (Z.min N n) (NlpWorker.sentences_of text)))) in Htrim.
  rewrite <- Hsum, Hjoined in Htrim.
  split; [rewrite Hsum; apply trim_idem|]. split; [|split; [|split; [|split]]].
  - rewrite Hsum.
    pose proof (sentences_trim (Js.join (Js.str " ")
                  (Js.slice0 (Z.min N n) (NlpWorker.sentences_of text)))) as Ht.
    pose proof (slice0_sentences text (Z.min N n)) as Hs.
    change (TransformWorker.sentences_of text)
      with (NlpWorker.sentences_of text) in Hs.
    lia.
  - lia.
  - intros HN. destruct (Z.ltb_spec (Z.min N n) 0); lia.
  - intros HN. rewrite Hsum, HN.
    replace (Z.min 0 n) with 0 by lia. by rewrite slice0_take.
  - intros Hnone HN. rewrite Hsum.
    assert (Hone : NlpWorker.sentences_of text = [text]).
    { unfold NlpWorker.sentences_of. by rewrite Hnone. }
    assert (n = 1) as -> by (unfold n; by rewrite Hone).
    rewrite Hone. by replace (Z.min N 1) with 1 by lia.
Qed.

(** X21. The syllable count of a word is at least 1 and at most the number
    of its groups of vowels (1 if it has none); it depends on the letters of
    the word only, not on their case nor on other characters. *)
Theorem syllable_count_bounds (word : Js.jstr) :
  1 <= NlpWorker.countSyllables word
    <= Z.max 1 (Spec.runs Js.is_vowel (Spec.letters word))
  /\ NlpWorker.countSyllables (Js.toLowerCase word) = NlpWorker.countSyllables word
  /\ NlpWorker.countSyllables (Spec.letters word) = NlpWorker.countSyllables word.
Proof.
  rewrite !countSyllables_short. unfold Spec.syllables_short. split; [|split].
  - destruct (length (Spec.letters word) <=? 3)%nat; [lia|].
    apply heuristic_bounds.
  - unfold Spec.letters. by rewrite toLowerCase_idem.
  - by rewrite letters_idem.
Qed.

(** X30. A request to the NLP worker is answered under its own id, and
    fails only when it is cancelled or of a type the worker does not know
    (the error then names the type).  An [analyze] request does not read
    the limits of its payload: whatever [maxKeywords] and [summaryLength]
    it carries, the answer holds the keywords, the summary and the score the
    three single requests give without limits (ten keywords, two
    sentences). *)
Theorem nlp_response (request : NlpWorker.NLPRequest) (aborted : bool) :
  match NlpWorker.processRequest request aborted with
  | NlpWorker.ok rid result =>
      rid = NlpWorker.id request /\ aborted = false
      /\ forall name, NlpWorker.type request <> NlpWorker.other name
  | NlpWorker.err rid error =>
      rid = NlpWorker.id request
      /\ (if aborted then error = Js.str "Request cancelled"
          else exists name,
                 NlpWorker.type request = NlpWorker.other name
                 /\ error = Js.str "Unknown request type: " ++ name)
  end
  /\ (NlpWorker.type request = NlpWorker.analyze ->
      NlpWorker.processRequest request false
      = NlpWorker.ok (NlpWorker.id request)
          (NlpWorker.Analysis
             (NlpWorker.extractKeywords (NlpWorker.payload_text request) (Some 10))
             (NlpWorker.extractiveSummarize (NlpWorker.payload_text request)
                (Some 2))
             (NlpWorker.calculateReadabilityScore
                (NlpWorker.payload_text request)))).
Proof.
  unfold NlpWorker.processRequest. split.
  - destruct aborted; [done|].
    destruct (NlpWorker.type request) eqn:E; try done.
    split; [done|]. by exists name.
  - by intros ->.
Qed.

(** ** Whole words without the [i] flag: the technical and the detailed
       style *)

Section WordsBy.
Import Js Aux.
Implicit Types (s w rest : jstr) (prev : option ascii) (k : cont).

Variable eq : ascii -> ascii -> bool.
Hypothesis eq_word : forall x a, eq x a = true -> is_word x = is_word a.

Lemma m_lit_by w k prev s :
  m (lit_by eq w) k prev s
  = if prefix_by eq w s
    then (fun n => (length w + n)%nat)
           <$> k (last_or prev (take (length w) s)) (drop (length w) s)
    else None.
Proof.
  revert prev s. induction w as [|a w IH]; intros prev s; simpl.
  - rewrite take_0, drop_0. unfold last_or. simpl. by destruct (k prev s).
  - destruct s as [|x s]; [done|].
    destruct (eq x a); simpl; [|done].
    rewrite IH, last_or_cons. destruct (prefix_by eq w s); [|done].
    by destruct (k _ _).
Qed.

Lemma exec_word_by w prev s :
  exec (word_by eq w) prev s
  = if boundary prev (head s) && prefix_by eq w s
       && boundary (last_or prev (take (length w) s)) (head (drop (length w) s))
    then Some (length w) else None.
Proof.
  unfold exec, word_by, boundary. cbn [m].
  destruct (xorb (is_word_at prev) (is_word_at (head s))); [|done].
  rewrite m_lit_by. cbn [m].
  destruct (prefix_by eq w s); [|done]. simpl.
  destruct (xorb _ _); simpl; [|done]. f_equal. lia.
Qed.

Lemma prefix_by_word_by w s :
  Forall (fun c => is_word c = true) w -> prefix_by eq w s = true ->
  Forall (fun c => is_word c = true) (take (length w) s).
Proof.
  intros Hw. revert s. induction Hw as [|a w Ha _ IH]; intros [|b s]; simpl; try done.
  intros [H1 H2]%andb_prop. constructor; [|by apply IH].
  by rewrite (eq_word _ _ H1).
Qed.

Variables (f to : jstr).
Hypothesis Hf : wordy f.

Lemma exec_by_nil prev : exec (word_by eq f) prev [] = None.
Proof.
  rewrite exec_word_by. destruct Hf as [Hne _]. destruct f; [done|].
  simpl. by rewrite andb_false_r.
Qed.

Lemma exec_by_at_nonword prev c s :
  is_word c = false -> exec (word_by eq f) prev (c :: s) = None.
Proof.
  intros Hc. rewrite exec_word_by. destruct Hf as [Hne Hall].
  destruct f as [|a f']; [done|]. apply Forall_cons in Hall as [Ha _].
  simpl. destruct (eq c a) eqn:E; [|by rewrite andb_false_r].
  apply eq_word in E. congruence.
Qed.

Lemma exec_by_inside prev c s :
  is_word_at prev = true -> is_word c = true ->
  exec (word_by eq f) prev (c :: s) = None.
Proof.
  intros Hp Hc. rewrite exec_word_by. unfold boundary. simpl. by rewrite Hp, Hc.
Qed.

Lemma exec_by_at_chunk prev w rest :
  is_word_at prev = false -> chunk w rest ->
  exec (word_by eq f) prev (w ++ rest)
  = if same_by eq f w then Some (length w) else None.
Proof.
  intros Hp (Hne & Hw & Hrest). rewrite exec_word_by.
  destruct Hf as [Hfne Hfall]. unfold same_by.
  assert (Hb : boundary prev (head (w ++ rest)) = true).
  { unfold boundary. destruct w as [|c w]; [done|]. simpl.
    apply Forall_cons in Hw as [-> _]. by rewrite Hp. }
  rewrite Hb. simpl.
  destruct (Nat.eqb_spec (length w) (length f)) as [Hlen|Hlen]; simpl.
  - rewrite <- Hlen, prefix_by_app, take_app_length, drop_app_length by done.
    destruct (prefix_by eq f w); simpl; [|done].
    unfold boundary. by rewrite last_word, is_word_at_head_false.
  - destruct (prefix_by eq f (w ++ rest)) eqn:E; simpl; [|done].
    pose proof (prefix_by_word_by _ _ Hfall E) as Hpw.
    pose proof (prefix_by_length _ _ _ E) as Hlen'.
    destruct (decide (length f < length w)%nat) as [Hlt|Hge].
    + unfold boundary. rewrite last_word; [| |done].
      2:{ intros E'. apply (f_equal length) in E'.
          rewrite length_take, length_app in E'.
          destruct f, w; simpl in *; try done; lia. }
      rewrite drop_app_le by lia.
      destruct (drop (length f) w) as [|d l] eqn:Ed.
      { apply (f_equal length) in Ed. rewrite length_drop in Ed. simpl in Ed. lia. }
      simpl. assert (Hd : is_word d = true).
      { assert (Hin : d ∈ w) by (rewrite <- (take_drop (length f) w), Ed; set_solver).
        rewrite Forall_forall in Hw. by apply Hw. }
      by rewrite Hd.
    + exfalso. rewrite take_app_ge in Hpw by lia.
      apply Forall_app in Hpw as [_ Hpw].
      destruct rest as [|c rest]; [rewrite length_app in Hlen'; simpl in *; lia|].
      assert (Hpos : (0 < length f - length w)%nat) by lia.
      destruct (length f - length w)%nat as [|n]; [lia|].
      simpl in Hpw. apply Forall_cons in Hpw as [Hc _]. simpl in Hrest. congruence.
Qed.

Lemma scan_by_inside prev w rest :
  is_word_at prev = true -> Forall (fun c => is_word c = true) w ->
  scan (word_by eq f) prev O (w ++ rest)
  = (Keep <$> w) ++ scan (word_by eq f) (last_or prev w) O rest.
Proof.
  intros Hp Hw. revert prev Hp. induction Hw as [|c w Hc _ IH]; intros prev Hp; [done|].
  rewrite <- app_comm_cons, scan_miss by by apply exec_by_inside.
  rewrite IH by done. by rewrite last_or_cons.
Qed.

(** What the replacement writes from a position on. *)
Lemma emit_by_nil prev : emit to (scan (word_by eq f) prev O []) = [].
Proof. cbn [scan]. by rewrite exec_by_nil. Qed.

Lemma emit_by_nonword prev c s :
  is_word c = false ->
  emit to (scan (word_by eq f) prev O (c :: s))
  = c :: emit to (scan (word_by eq f) (Some c) O s).
Proof. intros Hc. by rewrite scan_miss by by apply exec_by_at_nonword. Qed.

Lemma emit_by_chunk prev w rest :
  is_word_at prev = false -> chunk w rest ->
  emit to (scan (word_by eq f) prev O (w ++ rest))
  = (if same_by eq f w then to else w)
    ++ emit to (scan (word_by eq f) (last_or prev w) O rest).
Proof.
  intros Hp Hch. pose proof (exec_by_at_chunk prev w rest Hp Hch) as He.
  destruct Hch as (Hne & Hw & Hrest).
  destruct (same_by eq f w) eqn:Hs.
  - destruct w as [|c w]; [done|].
    rewrite (scan_hit _ (length w) _ _ He) by (simpl; rewrite length_app; lia).
    change (S (length w)) with (length (c :: w)).
    rewrite take_app_length, drop_app_length. done.
  - destruct w as [|c w]; [done|]. apply Forall_cons in Hw as [Hc Hw].
    rewrite <- app_comm_cons, scan_miss by done.
    rewrite scan_by_inside by done. cbn [emit flat_map]. simpl app.
    fold (emit to ((Keep <$> w) ++ scan (word_by eq f) (last_or (Some c) w) O rest)).
    by rewrite emit_app, emit_Keep, last_or_cons.
Qed.

Lemma emit_by_fresh prev rest :
  not_starting is_word rest ->
  emit to (scan (word_by eq f) prev O rest)
  = emit to (scan (word_by eq f) None O rest).
Proof.
  destruct rest as [|c s]; intros Hc; [by rewrite !emit_by_nil|].
  by rewrite !emit_by_nonword.
Qed.

End WordsBy.

Section MapWords.
Import Js Aux.
Implicit Types (s w rest a b : jstr) (g : jstr -> jstr).

Lemma map_words_from_fresh g (inword : bool) rest :
  not_starting is_word rest ->
  map_words_from g inword rest = map_words_from g false rest.
Proof. destruct rest as [|c s]; [done|]. simpl. by intros ->. Qed.

Lemma map_words_from_inside g w rest :
  Forall (fun c => is_word c = true) w ->
  map_words_from g true (w ++ rest) = map_words_from g true rest.
Proof. induction 1 as [|c w Hc _ IH]; [done|]. simpl. by rewrite Hc. Qed.

Lemma map_words_nonword g c s :
  is_word c = false -> map_words g (c :: s) = c :: map_words g s.
Proof. unfold map_words. simpl. by intros ->. Qed.

Lemma map_words_chunk g w rest :
  chunk w rest -> map_words g (w ++ rest) = g w ++ map_words g rest.
Proof.
  intros Hch. pose proof (run_chunk w rest Hch) as Hrun.
  destruct Hch as (Hne & Hw & Hrest). unfold map_words.
  destruct w as [|c w]; [done|]. apply Forall_cons in Hw as [Hc Hw].
  cbn [map_words_from app]. rewrite Hc. f_equal.
  - change (c :: w ++ rest) with ((c :: w) ++ rest). by rewrite Hrun, take_app_length.
  - rewrite map_words_from_inside by done. by apply map_words_from_fresh.
Qed.

Lemma map_words_not_starting g rest :
  not_starting is_word rest -> not_starting is_word (map_words g rest).
Proof.
  destruct rest as [|c s]; [done|]. intros Hc. by rewrite map_words_nonword.
Qed.

(** A text cut in front of a character that is no word character. *)
Lemma map_words_app g a b :
  not_starting is_word b -> map_words g (a ++ b) = map_words g a ++ map_words g b.
Proof.
  intros Hb. induction a as [| c a Hc IH | w rest Hch IH] using chunk_ind.
  - done.
  - rewrite <- app_comm_cons, !map_words_nonword by done. by rewrite IH.
  - rewrite <- app_assoc, (map_words_chunk g w rest) by done.
    rewrite map_words_chunk, IH; [by rewrite app_assoc|].
    destruct Hch as (Hne & Hw & Hrest). repeat split; try done.
    destruct rest as [|c rest]; [done|]. by apply not_starting_app.
Qed.

Lemma map_words_word g w : wordy w -> map_words g w = g w.
Proof.
  intros [Hne Hw]. rewrite <- (app_nil_r w) at 1.
  rewrite map_words_chunk by done. apply app_nil_r.
Qed.

Lemma map_words_ext g g' s :
  (forall w, wordy w -> g w = g' w) -> map_words g s = map_words g' s.
Proof.
  intros Hext. induction s as [| c s Hc IH | w rest Hch IH] using chunk_ind.
  - done.
  - rewrite !map_words_nonword by done. by rewrite IH.
  - rewrite (map_words_chunk g w rest), (map_words_chunk g' w rest) by done.
    rewrite IH, Hext; [done|]. by destruct Hch as (? & ? & _).
Qed.

(** Two passes over the words are one pass. *)
Lemma map_words_compose g1 g2 s :
  map_words g2 (map_words g1 s) = map_words (fun w => map_words g2 (g1 w)) s.
Proof.
  induction s as [| c s Hc IH | w rest Hch IH] using chunk_ind.
  - done.
  - rewrite !map_words_nonword by done. by rewrite IH.
  - rewrite (map_words_chunk g1 w rest), (map_words_chunk _ w rest) by done.
    rewrite map_words_app, IH; [done|].
    apply map_words_not_starting. by destruct Hch as (_ & _ & ?).
Qed.

Lemma map_words_length g s :
  (forall w, wordy w -> (length w <= length (g w))%nat) ->
  (length s <= length (map_words g s))%nat.
Proof.
  intros Hg. induction s as [| c s Hc IH | w rest Hch IH] using chunk_ind.
  - done.
  - rewrite map_words_nonword by done. simpl. lia.
  - rewrite (map_words_chunk g w rest) by done. rewrite !length_app.
    assert (wordy w) as Hw by by destruct Hch as (? & ? & _).
    specialize (Hg w Hw). lia.
Qed.

Lemma words_map_words g s :
  (forall w, wordy w -> wordy (g w)) -> words (map_words g s) = map g (words s).
Proof.
  intros Hg. induction s as [| c s Hc IH | w rest Hch IH] using chunk_ind.
  - done.
  - rewrite map_words_nonword, !words_nonword by done. exact IH.
  - rewrite (map_words_chunk g w rest), (words_chunk w rest) by done.
    destruct Hch as (Hne & Hw & Hrest).
    destruct (Hg w (conj Hne Hw)) as [Hgne Hgw].
    rewrite words_chunk; [by rewrite IH|].
    repeat split; try done. by apply map_words_not_starting.
Qed.

Lemma lit_eqs w : lit w = lit_by eqs w.
Proof. induction w as [|c w IH]; [done|]. simpl. by rewrite IH. Qed.

Lemma same_by_eqs f w : same_by eqs f w = bool_decide (w = f).
Proof.
  unfold same_by. revert w. induction f as [|a f IH]; intros [|b w]; simpl; try done.
  specialize (IH w). unfold eqs, eqc at 1.
  destruct (N.eqb_spec (code a) (code b)) as [Hab|Hab]; cbn [andb].
  - assert (a = b) as -> by (apply code_inj; by apply N.eqb_eq).
    fold eqs. rewrite IH. apply bool_decide_ext. split; congruence.
  - rewrite andb_false_r. symmetry. apply bool_decide_eq_false.
    intros [= -> _]. done.
Qed.

(** The replacement of a whole word, word by word. *)
Lemma replace_word_re (f to : jstr) s :
  wordy f -> replace_g (word_re f) to s = map_words (swap f to) s.
Proof.
  intros Hf. unfold word_re. rewrite lit_eqs. fold (word_by eqs f).
  assert (Heq : forall x y : ascii, eqs x y = true -> is_word x = is_word y).
  { intros x y H. apply code_inj in H. by subst. }
  rewrite replace_g_emit.
  assert (Hgen : forall prev, is_word_at prev = false ->
            emit to (scan (word_by eqs f) prev O s) = map_words (swap f to) s).
  { induction s as [| c s Hc IH | w rest Hch IH] using chunk_ind; intros prev Hp.
    - by rewrite emit_by_nil.
    - rewrite emit_by_nonword, map_words_nonword by done. f_equal.
      apply IH. simpl. done.
    - rewrite emit_by_chunk, (map_words_chunk _ w rest) by done.
      unfold swap at 1. rewrite same_by_eqs. f_equal.
      rewrite emit_by_fresh by (try done; by destruct Hch as (_ & _ & ?)).
      by apply IH. }
  by apply Hgen.
Qed.

Lemma wordy_swap (f to w : jstr) : wordy to -> wordy w -> wordy (swap f to w).
Proof. intros Hto Hw. unfold swap. by case_bool_decide. Qed.

End MapWords.

(** X22. The technical style works word by word: the text it returns is
    the text with each word [use], [part] and [thing] (in this very case,
    and only as a whole word) replaced by [utilize], [component] and
    [element], and everything else as it was.  So it keeps the number of
    words, never shortens the text, and a second pass changes nothing. *)
Theorem technical_rewrites_words (text : Js.jstr) :
  TransformWorker.technical text = Aux.map_words Aux.technical_word text
  /\ Aux.words (TransformWorker.technical text)
     = map Aux.technical_word (Aux.words text)
  /\ (length text <= length (TransformWorker.technical text))%nat
  /\ TransformWorker.technical (TransformWorker.technical text)
     = TransformWorker.technical text.
Proof.
  assert (Hwordy : forall w, Aux.wordy w -> Aux.wordy (Aux.technical_word w)).
  { intros w Hw. unfold Aux.technical_word.
    repeat apply wordy_swap; try done; split; try done;
      repeat constructor. }
  assert (Hmap : forall t,
            TransformWorker.technical t = Aux.map_words Aux.technical_word t).
  { intros t. unfold TransformWorker.technical.
    rewrite !replace_word_re by (split; [done|repeat constructor]).
    rewrite !map_words_compose. apply map_words_ext. intros w Hw.
    rewrite !map_words_word; [done| |].
    - apply wordy_swap; [split; [done|repeat constructor]|].
      apply wordy_swap; [split; [done|repeat constructor]|done].
    - apply wordy_swap; [split; [done|repeat constructor]|done]. }
  split; [apply Hmap|]. split; [|split].
  - rewrite Hmap. by apply words_map_words.
  - rewrite Hmap. apply map_words_length. intros w _.
    unfold Aux.technical_word, Aux.swap.
    repeat case_bool_decide; subst; simpl in *; try done; lia.
  - rewrite !Hmap, map_words_compose. apply map_words_ext. intros w Hw.
    rewrite map_words_word by by apply Hwordy.
    unfold Aux.technical_word, Aux.swap.
    repeat case_bool_decide; subst; try done.
Qed.

(** X23. The detailed style works word by word: the text it returns is the
    text with each word [is], [was] and [can] (in this very case, and only
    as a whole word) replaced by [is currently], [was previously] and
    [is able to], and everything else as it was; it never shortens the
    text.  A second pass is not idle: it meets the [is] the first pass
    wrote. *)
Theorem detailed_rewrites_words (text : Js.jstr) :
  TransformWorker.detailed text = Aux.map_words Aux.detailed_word text
  /\ (length text <= length (TransformWorker.detailed text))%nat
  /\ TransformWorker.detailed (TransformWorker.detailed (Js.str "it is"))
     = Js.str "it is currently currently".
Proof.
  assert (Hmap : forall t,
            TransformWorker.detailed t = Aux.map_words Aux.detailed_word t).
  { intros t. unfold TransformWorker.detailed.
    rewrite !replace_word_re by (split; [done|repeat constructor]).
    rewrite !map_words_compose. apply map_words_ext. intros w Hw.
    unfold Aux.detailed_word, Aux.swap at 3.
    case_bool_decide as H1; [by subst|].
    rewrite (map_words_word _ w Hw). unfold Aux.swap at 2.
    case_bool_decide as H2; [by subst|].
    rewrite (map_words_word _ w Hw). unfold Aux.swap.
    by case_bool_decide. }
  split; [apply Hmap|]. split; [|by vm_compute].
  rewrite Hmap. apply map_words_length. intros w _.
  unfold Aux.detailed_word.
  repeat case_bool_decide; subst; simpl in *; try done; lia.
Qed.

(** ** The sanitizer *)

Section SanitizerFacts.
Import Js Aux.

(** The replacement of the characters of a class. *)
Lemma replace_chr (p : ascii -> bool) (to s : jstr) (prev : option ascii) :
  emit to (scan (Chr p) prev O s) = flat_map (fun c => if p c then to else [c]) s.
Proof.
  revert prev. induction s as [|c s IH]; intros prev; [done|].
  cbn [scan]. rewrite exec_Chr. destruct (p c) eqn:Hp.
  - cbn [emit flat_map]. rewrite Hp. f_equal. apply IH.
  - cbn [emit flat_map]. rewrite Hp. simpl. f_equal. apply IH.
Qed.

Lemma flat_map_flat_map {A B C} (f : A -> list B) (g : B -> list C) (l : list A) :
  flat_map g (flat_map f l) = flat_map (fun x => flat_map g (f x)) l.
Proof.
  induction l as [|x l IH]; [done|]. simpl. by rewrite flat_map_app, IH.
Qed.

Lemma escape_plain (c : ascii) : special c = false -> escape c = [c].
Proof. by destruct c as [[] [] [] [] [] [] [] []]. Qed.

Lemma escape_clean (c : ascii) :
  Forall (fun x => special x = false) (escape c) /\ (1 <= length (escape c))%nat.
Proof.
  destruct c as [[] [] [] [] [] [] [] []];
    (split; [by repeat constructor|simpl; lia]).
Qed.

Lemma sanitizeText_escape (text : jstr) :
  Sanitizer.sanitizeText text = flat_map escape text.
Proof.
  unfold Sanitizer.sanitizeText. rewrite !replace_g_emit, !replace_chr.
  rewrite !flat_map_flat_map. apply flat_map_ext. intros c.
  by destruct c as [[] [] [] [] [] [] [] []].
Qed.

End SanitizerFacts.

(** X24. [sanitizeText] escapes character by character: each of the five
    characters less-than, greater-than, double quote, apostrophe and slash
    becomes its entity, every other character stays.  The text it returns
    has none of the five and is not shorter, and a second pass changes
    nothing.  The ampersand is not escaped: a text that holds an entity
    already is sanitized to the same text as the character it stands for. *)
Theorem sanitizeText_escapes (text : Js.jstr) :
  Sanitizer.sanitizeText text = flat_map Aux.escape text
  /\ Forall (fun c => Aux.special c = false) (Sanitizer.sanitizeText text)
  /\ (length text <= length (Sanitizer.sanitizeText text))%nat
  /\ Sanitizer.sanitizeText (Sanitizer.sanitizeText text)
     = Sanitizer.sanitizeText text
  /\ Sanitizer.sanitizeText (Js.str "&lt;") = Sanitizer.sanitizeText (Js.str "<").
Proof.
  assert (Hclean : Forall (fun c => Aux.special c = false)
                     (Sanitizer.sanitizeText text)).
  { rewrite sanitizeText_escape. induction text as [|c text IH]; [done|].
    simpl. apply Forall_app. split; [apply escape_clean|done]. }
  split; [apply sanitizeText_escape|]. split; [done|]. split; [|split].
  - rewrite sanitizeText_escape. clear Hclean.
    induction text as [|c text IH]; [done|].
    cbn [flat_map]. rewrite length_app. destruct (escape_clean c) as [_ H].
    cbn [length]. lia.
  - rewrite (sanitizeText_escape (Sanitizer.sanitizeText text)).
    induction Hclean as [|c s Hc _ IH]; [done|].
    simpl. by rewrite escape_plain, IH.
  - by vm_compute.
Qed.

Section AnchoredFacts.
Import Js Aux.

(** A greedy repetition in front of any continuation succeeds exactly when
    the continuation succeeds after some number of characters of the class,
    at least [min]. *)
Lemma rep_m_some (p : ascii -> bool) (min : nat) (k : cont)
    (prev : option ascii) (s : jstr) :
  is_Some (rep_m p min k prev s)
  <-> exists j, (min <= j <= run p s)%nat
                /\ is_Some (k (last_or prev (take j s)) (drop j s)).
Proof.
  revert min prev. induction s as [|c s IH]; intros min prev.
  - simpl. split.
    + destruct min; [|by intros [? ?]]. intros Hk. exists O. split; [lia|done].
    + intros (j & Hj & Hk). assert (j = O) as -> by lia.
      destruct min; [done|lia].
  - cbn [rep_m run]. destruct (p c) eqn:Hp.
    + split.
      * destruct (rep_m p (Nat.pred min) k (Some c) s) as [n|] eqn:E.
        -- intros _. destruct (proj1 (IH (Nat.pred min) (Some c)))
             as (j & Hj & Hk); [by rewrite E|].
           exists (S j). split; [lia|].
           by rewrite firstn_cons, last_or_cons.
        -- destruct min; [|by intros [? ?]]. intros Hk. exists O.
           split; [lia|done].
      * intros ([|j] & Hj & Hk).
        -- assert (min = O) as -> by lia.
           destruct (rep_m p (Nat.pred 0) k (Some c) s); [done|exact Hk].
        -- assert (is_Some (rep_m p (Nat.pred min) k (Some c) s)) as [n ->].
           { apply IH. exists j. split; [lia|].
             by rewrite firstn_cons, last_or_cons in Hk. }
           done.
    + split.
      * destruct min; [|by intros [? ?]]. intros Hk. exists O. split; [lia|done].
      * intros (j & Hj & Hk). assert (j = O) as -> by lia.
        destruct min; [done|lia].
Qed.

Lemma m_Chr_some (p : ascii -> bool) (k : cont) (prev : option ascii) (s : jstr) :
  is_Some (m (Chr p) k prev s)
  <-> exists c s', s = c :: s' /\ p c = true /\ is_Some (k (Some c) s').
Proof.
  cbn [m]. destruct s as [|c s]; [split; [by intros [? ?]|by intros (? & ? & ? & _)]|].
  destruct (p c) eqn:Hp.
  - rewrite fmap_is_Some. split.
    + intros Hk. by exists c, s.
    + by intros (c' & s' & [= <- <-] & _ & Hk).
  - split; [by intros [? ?]|]. intros (c' & s' & [= <- <-] & Hc & _). congruence.
Qed.

Lemma m_Cat (r1 r2 : regex) (k : cont) (prev : option ascii) (s : jstr) :
  m (Cat r1 r2) k prev s = m r1 (m r2 k) prev s.
Proof. reflexivity. Qed.

Lemma m_Rep (p : ascii -> bool) (min : nat) (k : cont) (prev : option ascii)
    (s : jstr) :
  m (Rep min p) k prev s = rep_m p min k prev s.
Proof. reflexivity. Qed.

Lemma test_whole_some (r : regex) (s : jstr) :
  test_whole r s = true <-> is_Some (m r at_end None s).
Proof.
  unfold test_whole. destruct (m r at_end None s); split; try done;
    by intros [? ?].
Qed.

Lemma at_end_some (prev : option ascii) (s : jstr) :
  is_Some (at_end prev s) <-> s = [].
Proof. destruct s; simpl; split; try done; by intros [? ?]. Qed.

Lemma take_run (p : ascii -> bool) (j : nat) (s : jstr) :
  (j <= run p s)%nat -> Forall (fun c => p c = true) (take j s).
Proof.
  intros Hj. rewrite <- (Nat.min_l j (run p s)) by done.
  rewrite <- take_take. apply Forall_take, run_all.
Qed.

Lemma run_prefix_all (p : ascii -> bool) (a s : jstr) :
  Forall (fun c => p c = true) a -> (length a <= run p (a ++ s))%nat.
Proof. intros Ha. rewrite run_app by done. lia. Qed.

(** A class repeated up to the end of the input. *)
Lemma test_whole_Rep (p : ascii -> bool) (s : jstr) :
  test_whole (Rep 1 p) s = true <-> s <> [] /\ Forall (fun c => p c = true) s.
Proof.
  rewrite test_whole_some, m_Rep, rep_m_some. split.
  - intros (j & Hj & Hend). apply at_end_some in Hend.
    pose proof (run_le p s) as Hle.
    assert (Hlen : (length s <= j)%nat).
    { apply (f_equal length) in Hend. rewrite length_drop in Hend. simpl in Hend. lia. }
    split; [destruct s; [simpl in *; lia|done]|].
    rewrite <- (take_ge s j) by done. apply take_run. lia.
  - intros [Hne Hall]. exists (length s). split.
    + pose proof (run_prefix_all p s [] Hall) as H. rewrite app_nil_r in H.
      destruct s; [done|]. simpl in *. lia.
    + rewrite drop_all. by apply at_end_some.
Qed.

(** The pattern of an address: three parts, [@] after the first, a dot
    after the second. *)
Lemma test_whole_email (value : jstr) :
  test_whole Sanitizer.email_re value = true
  <-> exists l d t,
        value = l ++ "@"%char :: d ++ "."%char :: t
        /\ address_part l /\ address_part d /\ address_part t.
Proof.
  rewrite test_whole_some. unfold Sanitizer.email_re.
  rewrite m_Cat, m_Rep, rep_m_some. split.
  - intros (j1 & Hj1 & H1).
    rewrite m_Cat in H1. apply m_Chr_some in H1 as (c1 & s1 & Hs1 & Hc1 & H2).
    rewrite m_Cat, m_Rep in H2. apply rep_m_some in H2 as (j2 & Hj2 & H2).
    rewrite m_Cat in H2. apply m_Chr_some in H2 as (c2 & s2 & Hs2 & Hc2 & H3).
    rewrite m_Rep in H3. apply rep_m_some in H3 as (j3 & Hj3 & H3).
    apply at_end_some in H3.
    apply code_inj in Hc1, Hc2. subst c1 c2.
    exists (take j1 value), (take j2 s1), s2.
    assert (Hpart : forall j s, (1 <= j <= run Sanitizer.address_char s)%nat ->
              address_part (take j s)).
    { intros j s Hj. split; [|apply take_run; lia].
      pose proof (run_le Sanitizer.address_char s).
      destruct s, j; simpl in *; try done; lia. }
    split; [|split; [by apply Hpart|split; [by apply Hpart|]]].
    + rewrite <- (take_drop j1 value) at 1. rewrite Hs1. do 2 f_equal.
      rewrite <- (take_drop j2 s1) at 1. by rewrite Hs2.
    + pose proof (run_le Sanitizer.address_char s2) as Hle.
      assert (Hlen : (length s2 <= j3)%nat).
      { apply (f_equal length) in H3. rewrite length_drop in H3. simpl in H3. lia. }
      rewrite <- (take_ge s2 j3) by done. apply Hpart. lia.
  - intros (l & d & t & -> & [Hl Hla] & [Hd Hda] & [Ht Hta]).
    exists (length l). split.
    { pose proof (run_prefix_all Sanitizer.address_char l
                    ("@"%char :: d ++ "."%char :: t) Hla).
      destruct l; [done|]. simpl in *. lia. }
    rewrite drop_app_length, m_Cat. apply m_Chr_some.
    exists "@"%char, (d ++ "."%char :: t). split; [done|]. split; [done|].
    rewrite m_Cat, m_Rep. apply rep_m_some. exists (length d). split.
    { pose proof (run_prefix_all Sanitizer.address_char d ("."%char :: t) Hda).
      destruct d; [done|]. simpl in *. lia. }
    rewrite drop_app_length, m_Cat. apply m_Chr_some.
    exists "."%char, t. split; [done|]. split; [done|].
    rewrite m_Rep. apply rep_m_some. exists (length t). split.
    { pose proof (run_prefix_all Sanitizer.address_char t [] Hta) as H.
      rewrite app_nil_r in H. destruct t; [done|]. simpl in *. lia. }
    rewrite drop_all. by apply at_end_some.
Qed.

End AnchoredFacts.

(** X25. A value is a valid [email] field exactly when it is a first part,
    [@], a second part, a dot and a third part, each part not empty and
    without white space and [@] (dots may occur in every part).  So a
    valid value has no white space and exactly one [@]. *)
Theorem email_field_is_three_parts (URL_parses Number_isNaN : Js.jstr -> bool)
    (value : Js.jstr) :
  let valid :=
    Sanitizer.validateFieldValue URL_parses Number_isNaN value (Js.str "email") in
  (valid = true
   <-> exists l d t,
         value = l ++ "@"%char :: d ++ "."%char :: t
         /\ Aux.address_part l /\ Aux.address_part d /\ Aux.address_part t)
  /\ (valid = true ->
      Forall (fun c => Js.is_space c = false) value
      /\ length (List.filter (Js.eqc "@"%char) value) = 1%nat).
Proof.
  intros valid.
  assert (Hvalid : valid = Js.test_whole Sanitizer.email_re value) by reflexivity.
  rewrite Hvalid. split; [apply test_whole_email|].
  intros (l & d & t & -> & [_ Hl] & [_ Hd] & [_ Ht])%test_whole_email.
  assert (Hplain : forall s,
            Forall (fun c => Sanitizer.address_char c = true) s ->
            Forall (fun c => Js.is_space c = false) s
            /\ List.filter (Js.eqc "@"%char) s = []).
  { intros s Hs. induction Hs as [|c s Hc _ [IH1 IH2]]; [done|].
    unfold Sanitizer.address_char in Hc. apply negb_true_iff, orb_false_iff in Hc
      as [Hsp Hat].
    split; [by constructor|]. simpl.
    assert (Js.eqc "@" c = false) as ->; [|done].
    unfold Js.eqc in *. by rewrite N.eqb_sym. }
  destruct (Hplain l Hl) as [Hl1 Hl2], (Hplain d Hd) as [Hd1 Hd2],
    (Hplain t Ht) as [Ht1 Ht2].
  split.
  - apply Forall_app. split; [done|]. constructor; [done|].
    apply Forall_app. split; [done|]. by constructor.
  - rewrite List.filter_app. cbn [List.filter].
    change (Js.eqc "@" "@") with true. cbn iota.
    rewrite List.filter_app. cbn [List.filter].
    change (Js.eqc "@" ".") with false. cbn iota.
    by rewrite Hl2, Hd2, Ht2.
Qed.

(** X26. A value is a valid [tel] field exactly when it is not empty and
    made of digits, white space, parentheses, plus and minus signs only.  A
    field of a type other than [email], [url], [tel] and [number] is always
    valid. *)
Theorem tel_field_is_phone_characters (URL_parses Number_isNaN : Js.jstr -> bool)
    (value type : Js.jstr) :
  (Sanitizer.validateFieldValue URL_parses Number_isNaN value (Js.str "tel") = true
   <-> value <> [] /\ Forall (fun c => Sanitizer.phone_char c = true) value)
  /\ (type ∉ map Js.str ["email"; "url"; "tel"; "number"]%string ->
      Sanitizer.validateFieldValue URL_parses Number_isNaN value type = true).
Proof.
  split.
  - change (Sanitizer.validateFieldValue URL_parses Number_isNaN value (Js.str "tel"))
      with (Js.test_whole Sanitizer.tel_re value).
    apply test_whole_Rep.
  - intros Hother. unfold Sanitizer.validateFieldValue.
    repeat case_bool_decide; try done; subst; exfalso; apply Hother;
      set_solver.
Qed.

(** ** More on the concise style and on the names of tones and styles *)

Section ShrinkFacts.
Import Js Aux.

(** Deleting the matches of a pattern does not lengthen the text. *)
Lemma emit_nil_length (r : regex) (s : jstr) (prev : option ascii) (n : nat) :
  (length (emit [] (scan r prev n s)) <= length s)%nat.
Proof.
  revert prev n. induction s as [|c s IH]; intros prev n.
  - cbn [scan]. destruct n; [|done]. by destruct (exec r prev []).
  - cbn [scan]. destruct n as [|n].
    + destruct (exec r prev (c :: s)) as [[|k]|].
      * cbn [emit flat_map app length]. specialize (IH (Some c) O).
        unfold emit in IH. lia.
      * cbn [emit flat_map app length]. specialize (IH (Some c) k).
        unfold emit in IH. lia.
      * cbn [emit flat_map app length]. specialize (IH (Some c) O).
        unfold emit in IH. lia.
    + specialize (IH (Some c) n). cbn [length]. lia.
Qed.

Lemma squeeze_length (s : jstr) : (length (squeeze s) <= length s)%nat.
Proof.
  remember (length s) as n eqn:Hn. revert s Hn.
  induction n as [n IH] using lt_wf_ind. intros s Hn. subst n.
  destruct s as [|c s]; [rewrite squeeze_nil; simpl; lia|].
  destruct (le_lt_dec 2 (run is_space (c :: s))) as [Hrun|Hrun].
  - rewrite squeeze_run by done.
    pose proof (run_le is_space (c :: s)) as Hle.
    pose proof (IH (length (drop (run is_space (c :: s)) (c :: s)))
                  ltac:(rewrite length_drop; lia) _ eq_refl) as IH'.
    rewrite length_drop in IH'. rewrite length_app. simpl length in *. lia.
  - rewrite squeeze_keep by done. cbn [length].
    pose proof (IH (length s) ltac:(cbn [length]; lia) s eq_refl). lia.
Qed.

Lemma trim_length (s : jstr) : (length (trim s) <= length s)%nat.
Proof.
  destruct (trim_split s) as (sp & sp' & Hs & _).
  rewrite Hs at 2. rewrite !length_app. lia.
Qed.

Lemma del_all_length (fs : list jstr) (s : jstr) :
  (length (fold_left (fun result filler => replace_g (word_re_i filler) [] result)
             fs s) <= length s)%nat.
Proof.
  revert s. induction fs as [|f fs IH]; intros s; [done|]. simpl.
  etransitivity; [apply IH|]. rewrite replace_g_emit. apply emit_nil_length.
Qed.

End ShrinkFacts.

(** X27. The concise style removes the filler words and nothing else of
    the words: the words of the text it returns are the words of the text
    that are no filler in whatever case, in their order.  The text it
    returns has no two white-space characters in a row, no white space at
    either end, and is not longer than the text. *)
Theorem concise_removes_fillers (text : Js.jstr) :
  Aux.words (TransformWorker.concise text)
  = List.filter (fun w => negb (Aux.is_filler w)) (Aux.words text)
  /\ Aux.no_adjacent_spaces (TransformWorker.concise text) = true
  /\ Js.trim (TransformWorker.concise text) = TransformWorker.concise text
  /\ (length (TransformWorker.concise text) <= length text)%nat.
Proof.
  assert (Hfs : Forall Aux.wordy TransformWorker.fillers).
  { repeat constructor; done. }
  unfold TransformWorker.concise.
  set (deleted := fold_left
         (fun result filler => Js.replace_g (Js.word_re_i filler) [] result)
         TransformWorker.fillers text).
  fold (Aux.squeeze deleted).
  split; [|split; [|split]].
  - rewrite words_trim, words_squeeze. unfold deleted.
    rewrite words_del_all by done. apply filter_ext_bool. intros w.
    unfold Aux.is_filler. generalize TransformWorker.fillers as fs.
    induction fs as [|f fs IH]; [done|].
    simpl. rewrite IH. by destruct (Aux.same_ic f w).
  - apply no_adjacent_trim, squeeze_no_adjacent.
  - apply trim_idem.
  - etransitivity; [apply trim_length|].
    etransitivity; [apply squeeze_length|]. apply del_all_length.
Qed.

(** X28. The names of tones and styles are read without regard to case,
    and a name the tables do not answer to leaves the text as it is, with
    the rule [tone_unchanged] or [style_unchanged]. *)
Theorem stage_names_ignore_case (text tone style : Js.jstr) :
  fst (TransformWorker.applyToneTransform text (Js.toLowerCase tone))
  = fst (TransformWorker.applyToneTransform text tone)
  /\ fst <$> TransformWorker.applyStyleTransform text (Js.toLowerCase style)
     = fst <$> TransformWorker.applyStyleTransform text style
  /\ (Js.toLowerCase tone ∉ Aux.tone_names ->
      TransformWorker.applyToneTransform text tone
      = (text, Js.str "tone_unchanged"))
  /\ (Js.toLowerCase style ∉ Aux.style_names ->
      TransformWorker.applyStyleTransform text style
      = Some (text, Js.str "style_unchanged")).
Proof.
  split; [|split; [|split]].
  - destruct (TransformWorker.TONE_LEXICONS (Js.toLowerCase tone)) as [lexicon|]
      eqn:E.
    + rewrite (applyToneTransform_text text tone lexicon E).
      apply applyToneTransform_text. by rewrite toLowerCase_idem.
    + unfold TransformWorker.applyToneTransform.
      by rewrite toLowerCase_idem, E.
  - unfold TransformWorker.applyStyleTransform. rewrite toLowerCase_idem.
    by destruct (TransformWorker.STYLE_PATTERNS (Js.toLowerCase style)) as [[f|]|].
  - intros Hname. unfold TransformWorker.applyToneTransform,
      TransformWorker.TONE_LEXICONS, Js.inherited.
    repeat case_bool_decide; try done; exfalso; apply Hname;
      unfold Aux.tone_names; set_solver.
  - intros Hname. unfold TransformWorker.applyStyleTransform,
      TransformWorker.STYLE_PATTERNS.
    repeat case_bool_decide; try done; exfalso; apply Hname;
      unfold Aux.style_names; set_solver.
Qed.

(** ** The professional tone, word by word *)

Section ToneWords.
Import Js Aux TransformWorker.
Implicit Types (s w rest f to : jstr).

Lemma map_words_id s : map_words (fun w => w) s = s.
Proof.
  induction s as [| c s Hc IH | w rest Hch IH] using chunk_ind.
  - done.
  - rewrite map_words_nonword by done. by rewrite IH.
  - rewrite (map_words_chunk _ w rest) by done. by rewrite IH.
Qed.

(** The replacement of a whole word in whatever case, word by word. *)
Lemma replace_word_re_i f to s :
  wordy f -> replace_g (word_re_i f) to s = map_words (sub f to) s.
Proof.
  intros Hf. induction s as [| c s Hc IH | w rest Hch IH] using chunk_ind.
  - by rewrite (replace_nil f to Hf).
  - rewrite (replace_nonword f to Hf), map_words_nonword by done. by rewrite IH.
  - rewrite (replace_chunk f to Hf), (map_words_chunk _ w rest) by done.
    by rewrite IH.
Qed.

Lemma hits_app ps qs : hits (ps ++ qs) = hits ps ++ hits qs.
Proof. unfold hits. apply flat_map_app. Qed.

Lemma hits_Keeps w : hits (Keep <$> w) = [].
Proof. induction w as [|c w IH]; [done|]. simpl. exact IH. Qed.

Section Count.
Variable f : jstr.
Hypothesis Hf : wordy f.

Lemma hits_fresh prev rest :
  not_starting is_word rest ->
  hits (scan (word_re_i f) prev O rest) = hits (scan (word_re_i f) None O rest).
Proof.
  destruct rest as [|c s]; intros Hc.
  - cbn [scan]. by rewrite !(exec_word_nil f Hf).
  - by rewrite !scan_miss by by apply exec_word_at_nonword.
Qed.

(** The matches of a whole word are the words of the text that are the
    word up to case. *)
Lemma hits_count s prev :
  is_word_at prev = false ->
  Z.of_nat (length (hits (scan (word_re_i f) prev O s)))
  = Spec.total (fun w => if same_ic f w then 1 else 0) (words s).
Proof.
  revert prev. induction s as [| c s Hc IH | w rest Hch IH] using chunk_ind;
    intros prev Hp.
  - cbn [scan]. by rewrite (exec_word_nil f Hf).
  - rewrite scan_miss by by apply exec_word_at_nonword.
    rewrite hits_Keep, words_nonword by done. by apply IH.
  - pose proof (exec_word_at_chunk f Hf prev w rest Hp Hch) as He.
    rewrite (words_chunk w rest) by done. cbn [Spec.total foldr].
    fold (Spec.total (fun w => if same_ic f w then 1 else 0) (words rest)).
    rewrite <- (IH None eq_refl).
    destruct Hch as (Hne & Hw & Hrest).
    destruct (same_ic f w) eqn:Hs.
    + destruct w as [|c w]; [done|].
      rewrite (scan_hit _ (length w) _ _ He) by (simpl; rewrite length_app; lia).
      change (S (length w)) with (length (c :: w)).
      rewrite take_app_length, drop_app_length, hits_Hit.
      rewrite hits_fresh by done. cbn [length]. lia.
    + destruct w as [|c w]; [done|]. apply Forall_cons in Hw as [Hc Hw].
      rewrite <- app_comm_cons, scan_miss by done.
      rewrite (scan_inside f) by done.
      rewrite hits_Keep, hits_app, hits_Keeps. cbn [app].
      rewrite hits_fresh by done. lia.
Qed.

End Count.

Lemma total_map (c : jstr -> Z) (g : jstr -> jstr) (l : list jstr) :
  Spec.total c (map g l) = Spec.total (fun w => c (g w)) l.
Proof.
  induction l as [|w l IH]; [done|]. unfold Spec.total in *. simpl. by rewrite IH.
Qed.

Lemma total_add (c d : jstr -> Z) (l : list jstr) :
  Spec.total c l + Spec.total d l = Spec.total (fun w => c w + d w) l.
Proof.
  induction l as [|w l IH]; [done|]. unfold Spec.total in *. simpl. lia.
Qed.

Lemma total_zero (l : list jstr) : Spec.total (fun _ => 0) l = 0.
Proof. induction l as [|w l IH]; [done|]. unfold Spec.total in *. simpl. lia. Qed.

Lemma total_filter (p : jstr -> bool) (l : list jstr) :
  Spec.total (fun w => if p w then 1 else 0) l
  = Z.of_nat (length (List.filter p l)).
Proof.
  induction l as [|w l IH]; [done|]. unfold Spec.total in *. simpl.
  rewrite IH. destruct (p w); simpl length; lia.
Qed.

Lemma wordy_sub f to w : wordy to -> wordy w -> wordy (sub f to w).
Proof. intros Hto Hw. unfold sub. by destruct (same_ic f w). Qed.

(** The tone stage for a lexicon of whole words with whole words as
    values: the text word by word, and the swaps counted word by word. *)
Lemma tone_fold_words (lexicon : list (jstr * jstr)) (text : jstr) (n : Z) :
  Forall (fun e => wordy (fst e) /\ wordy (snd e)) lexicon ->
  fold_left
    (fun '(result, swaps) '(from, to) =>
       let regex := word_re_i from in
       match match_g regex result with
       | Some matches =>
           (replace_g regex to result, swaps + Z.of_nat (List.length matches))
       | None => (result, swaps)
       end) lexicon (text, n)
  = (map_words (word_after lexicon) text,
     n + Spec.total (swaps_of lexicon) (words text)).
Proof.
  intros Hlex. revert text n.
  induction Hlex as [|[f to] lexicon [Hf Hto] _ IH]; intros text n.
  - cbn [fold_left]. unfold word_after. cbn [fold_left swaps_of].
    rewrite map_words_id, total_zero. f_equal. lia.
  - cbn [fold_left]. cbn [fst snd] in Hf, Hto.
    assert (Hstep :
      match match_g (word_re_i f) text with
      | Some matches =>
          (replace_g (word_re_i f) to text, n + Z.of_nat (List.length matches))
      | None => (text, n)
      end
      = (map_words (sub f to) text,
         n + Spec.total (fun w => if same_ic f w then 1 else 0) (words text))).
    { rewrite <- (hits_count f Hf text None eq_refl).
      rewrite <- (replace_word_re_i f to text Hf).
      destruct (match_g (word_re_i f) text) as [matches|] eqn:E.
      - unfold match_g in E.
        destruct (hits (scan (word_re_i f) None O text)); [done|].
        by inversion E.
      - rewrite (replace_no_match _ to text E). f_equal.
        unfold match_g in E.
        destruct (hits (scan (word_re_i f) None O text)); [simpl; lia|done]. }
    cbn zeta. rewrite Hstep, IH. f_equal.
    + rewrite map_words_compose. apply map_words_ext. intros w Hw.
      rewrite map_words_word by by apply wordy_sub. done.
    + rewrite words_map_words by (intros w Hw; by apply wordy_sub).
      rewrite total_map, <- Z.add_assoc. f_equal.
      rewrite total_add. done.
Qed.

Local Ltac closed_word :=
  split; [by vm_compute|];
  split; [by vm_compute|];
  split; [intros _; cbn; split; [done|repeat constructor]|by vm_compute].

Lemma professional_words (w : jstr) :
  word_after professional w = professional_word w
  /\ swaps_of professional w = (if professional_key w then 1 else 0)
  /\ (wordy w -> wordy (professional_word w))
  /\ professional_word (professional_word w) = professional_word w.
Proof.
  unfold professional_word, professional_key, lookup_ic, word_after, professional.
  cbn [fold_left swaps_of List.find fst snd]. unfold sub.
  destruct (same_ic (str "think") w) eqn:E1.
  { closed_word. }
  destruct (same_ic (str "get") w) eqn:E2.
  { closed_word. }
  destruct (same_ic (str "make") w) eqn:E3.
  { closed_word. }
  destruct (same_ic (str "help") w) eqn:E4.
  { closed_word. }
  destruct (same_ic (str "show") w) eqn:E5.
  { closed_word. }
  destruct (same_ic (str "tell") w) eqn:E6.
  { closed_word. }
  cbn [fmap option_fmap option_map default]. rewrite E1, E2, E3, E4, E5, E6.
  done.
Qed.

End ToneWords.

(** X29. The professional tone works word by word.  The text it returns
    is the text with each word that is a key of the lexicon, in whatever
    case ([think], [get], [make], [help], [show], [tell]), replaced by its
    value, and everything else as it was; the number of swaps its rule
    reports is the number of words of the text that are keys; and a second
    pass changes nothing. *)
Theorem professional_tone_word_by_word (text tone : Js.jstr) :
  Js.toLowerCase tone = Js.str "professional" ->
  TransformWorker.applyToneTransform text tone
  = (Aux.map_words Aux.professional_word text,
     Js.str "tone_" ++ tone ++ Js.str "_"
       ++ Js.showZ (Z.of_nat (length (List.filter Aux.professional_key
                                        (Aux.words text))))
       ++ Js.str "_swaps")
  /\ fst (TransformWorker.applyToneTransform
            (fst (TransformWorker.applyToneTransform text tone)) tone)
     = fst (TransformWorker.applyToneTransform text tone).
Proof.
  intros Htone.
  assert (Hlex : Forall (fun e => Aux.wordy (fst e) /\ Aux.wordy (snd e))
                   TransformWorker.professional).
  { repeat constructor; done. }
  assert (Hrun : forall t,
            TransformWorker.applyToneTransform t tone
            = (Aux.map_words Aux.professional_word t,
               Js.str "tone_" ++ tone ++ Js.str "_"
                 ++ Js.showZ (Z.of_nat (length (List.filter Aux.professional_key
                                                  (Aux.words t))))
                 ++ Js.str "_swaps")).
  { intros t. unfold TransformWorker.applyToneTransform. rewrite Htone.
    change (TransformWorker.TONE_LEXICONS (Js.str "professional"))
      with (Some TransformWorker.professional).
    cbn iota. pose proof (tone_fold_words _ t 0 Hlex) as Hfold.
    destruct (fold_left _ TransformWorker.professional (t, 0))
      as [result swaps] eqn:E.
    apply pair_equal_spec in Hfold as [-> ->].
    rewrite (map_words_ext (Aux.word_after TransformWorker.professional)
               Aux.professional_word)
      by (intros w _; apply professional_words).
    rewrite Z.add_0_l, <- total_filter.
    rewrite (total_ext (Aux.swaps_of TransformWorker.professional)
               (fun w => if Aux.professional_key w then 1 else 0)); [done|].
    intros w. apply professional_words. }
  split; [apply Hrun|]. rewrite !Hrun. cbn [fst].
  rewrite map_words_compose. apply map_words_ext. intros w Hw.
  rewrite map_words_word by by apply professional_words.
  apply professional_words.
Qed.

(** The tone [Professional] and a request for help. *)
Lemma professional_tone_word_by_word_witness :
  TransformWorker.applyToneTransform (Js.str "Help me get it; I think so.")
    (Js.str "Professional")
  = (Js.str "assist me obtain it; I believe so.",
     Js.str "tone_Professional_3_swaps").
Proof.
  destruct (professional_tone_word_by_word (Js.str "Help me get it; I think so.")
              (Js.str "Professional")) as [H _].
  - reflexivity.
  - rewrite H. vm_compute. reflexivity.
Defined.
(** ** The readability score *)

Section ScoreFacts.
Import Js Aux.



(** Where the exact value of the formula is a half, the doubles decide:
    520 words in 14 sentences with 637 syllables give 65.5 exactly, the
    doubles stay below it and the score is 65. *)
Lemma flesch_in_doubles : Spec.flesch 520 14 637 = 65%float.
Proof. by vm_compute. Qed.

End ScoreFacts.


(** Where the text has no word, the guard of the code for that case does
    not fire, since a split never gives an empty array: the empty text and a
    text of white space score 100, where the specification says 0. *)
Lemma readability_without_words :
  NlpWorker.calculateReadabilityScore [] = 100%float
  /\ Spec.readabilityScore [] = 0%float
  /\ NlpWorker.calculateReadabilityScore (Js.str "   ") = 100%float
  /\ Spec.readabilityScore (Js.str "   ") = 0%float
  /\ (forall text,
        (1 <= length (Js.split NlpWorker.spaces_re text))%nat
        /\ (1 <= length (NlpWorker.sentences_of text))%nat).
Proof.
  split; [by vm_compute|]. split; [by vm_compute|].
  split; [by vm_compute|]. split; [by vm_compute|].
  intros text. split; [apply split_nonempty|apply sentences_of_nonempty].
Qed.


